(** * tfdrift-operator: the drift fingerprinter and the drift reconcilers

    A shallow embedding of [internal/drift] (constants.go, hash.go) and of
    [internal/controller] (the Deployment and the Service reconciler),
    followed by the properties of the drift-detection decision engine. *)

From Stdlib Require Import ZArith Ascii String.
From Stdlib Require Import Sorting.Sorted Sorting.Permutation.
From stdpp Require Import gmap strings list fin_maps pretty sorting.

Set Warnings "-register-all".
Local Open Scope Z_scope.

(* ===================================================================== *)
(** * Library routines the program calls *)
(* ===================================================================== *)

(** ** [crypto/sha256] and [encoding/hex]

    [sha256.Sum256] over a byte string, words as 32-bit [Z] with the
    wrap-around written out (FIPS 180-4). *)
Module sha256.

Definition mask32 : Z := 0xffffffff.
Definition add32 (a b : Z) : Z := Z.land (a + b) mask32.
Definition rotr (n x : Z) : Z :=
  Z.lor (Z.shiftr x n) (Z.land (Z.shiftl x (32 - n)) mask32).
Definition not32 (x : Z) : Z := Z.lxor x mask32.

Definition Ch (x y z : Z) : Z := Z.lxor (Z.land x y) (Z.land (not32 x) z).
Definition Maj (x y z : Z) : Z :=
  Z.lxor (Z.lxor (Z.land x y) (Z.land x z)) (Z.land y z).
Definition bsig0 (x : Z) : Z := Z.lxor (Z.lxor (rotr 2 x) (rotr 13 x)) (rotr 22 x).
Definition bsig1 (x : Z) : Z := Z.lxor (Z.lxor (rotr 6 x) (rotr 11 x)) (rotr 25 x).
Definition ssig0 (x : Z) : Z := Z.lxor (Z.lxor (rotr 7 x) (rotr 18 x)) (Z.shiftr x 3).
Definition ssig1 (x : Z) : Z := Z.lxor (Z.lxor (rotr 17 x) (rotr 19 x)) (Z.shiftr x 10).

(** The round constants and the initial hash value are the first 32 bits
    of the fractional parts of the cube roots, and of the square roots, of
    the first primes. *)
Definition is_prime (n : Z) : bool :=
  (1 <? n) && forallb (fun d => negb (n mod d =? 0) || (n <=? d))
                      (map Z.of_nat (seq 2 18)).

Definition primes : list Z := filter (fun n => is_prime n) (map Z.of_nat (seq 2 310)).

(** The integer cube root of [x], by bisection on [lo, lo + 2^n). *)
Fixpoint cbrt_from (n : nat) (lo x : Z) : Z :=
  match n with
  | O => lo
  | S n' =>
      let mid := lo + 2 ^ Z.of_nat n' in
      if mid * mid * mid <=? x then cbrt_from n' mid x else cbrt_from n' lo x
  end.

Definition K : list Z :=
  map (fun p => Z.land (cbrt_from 40 0 (p * 2 ^ 96)) mask32) primes.

Definition H0 : list Z :=
  map (fun p => Z.land (Z.sqrt (p * 2 ^ 64)) mask32) (firstn 8 primes).

(** Big-endian bytes of the low [n] bytes of [x]. *)
Fixpoint be_bytes (n : nat) (x : Z) : list Z :=
  match n with
  | O => []
  | S n' => Z.land (Z.shiftr x (8 * Z.of_nat n')) 0xff :: be_bytes n' x
  end.

Definition pad (msg : list Z) : list Z :=
  let len := Z.of_nat (length msg) in
  let zeros := Z.to_nat ((55 - len) mod 64) in
  msg ++ [0x80] ++ replicate zeros 0 ++ be_bytes 8 (8 * len).

(** Sixteen big-endian words of one 64-byte block. *)
Fixpoint words (n : nat) (bs : list Z) : list Z :=
  match n, bs with
  | S n', b0 :: b1 :: b2 :: b3 :: rest =>
      Z.lor (Z.shiftl b0 24) (Z.lor (Z.shiftl b1 16) (Z.lor (Z.shiftl b2 8) b3))
      :: words n' rest
  | _, _ => []
  end.

(** Message schedule, most recent word first. *)
Fixpoint schedule (n : nat) (rw : list Z) : list Z :=
  match n with
  | O => rw
  | S n' =>
      let w := add32 (add32 (ssig1 (nth 1 rw 0)) (nth 6 rw 0))
                     (add32 (ssig0 (nth 14 rw 0)) (nth 15 rw 0)) in
      schedule n' (w :: rw)
  end.

Definition round (st : list Z) (kw : Z * Z) : list Z :=
  match st with
  | [a; b; c; d; e; f; g; h] =>
      let t1 := add32 (add32 (add32 h (bsig1 e)) (add32 (Ch e f g) (fst kw))) (snd kw) in
      let t2 := add32 (bsig0 a) (Maj a b c) in
      [add32 t1 t2; a; b; c; add32 d t1; e; f; g]
  | _ => st
  end.

Definition compress (h : list Z) (block : list Z) : list Z :=
  let w := rev (schedule 48 (rev (words 16 block))) in
  let st := fold_left round (combine K w) h in
  map (fun p => add32 (fst p) (snd p)) (combine h st).

Fixpoint blocks (n : nat) (h : list Z) (bs : list Z) : list Z :=
  match n with
  | O => h
  | S n' =>
      match bs with
      | [] => h
      | _ => blocks n' (compress h (firstn 64 bs)) (skipn 64 bs)
      end
  end.

Definition bytes_of_string (s : string) : list Z :=
  map (fun a => Z.of_N (N_of_ascii a)) (list_ascii_of_string s).

(** The 32 bytes of the digest. *)
Definition Sum256 (s : string) : list Z :=
  let p := pad (bytes_of_string s) in
  flat_map (be_bytes 4) (blocks (length p) H0 p).

End sha256.

(** [hex.EncodeToString]: two lowercase hexadecimal digits per byte. *)
Module hex.

Definition digit (d : Z) : ascii :=
  ascii_of_N (Z.to_N (if d <? 10 then 48 + d else 87 + d)).

Fixpoint EncodeToString (bs : list Z) : string :=
  match bs with
  | [] => EmptyString
  | b :: rest => String (digit (Z.shiftr b 4)) (String (digit (Z.land b 15)) (EncodeToString rest))
  end.

End hex.

(** ** [strings.TrimSpace]

    Leading and trailing Unicode white space is removed. The strings are
    UTF-8; the white-space code points are listed by their encodings. *)
Module strings.

Definition of_codes (l : list N) : string :=
  string_of_list_ascii (map ascii_of_N l).

(** [unicode.IsSpace]: TAB, LF, VT, FF, CR, SPACE, U+0085, U+00A0, U+1680,
    U+2000..U+200A, U+2028, U+2029, U+202F, U+205F, U+3000. *)
Definition spaces : list string :=
  map of_codes
    ([ [9]; [10]; [11]; [12]; [13]; [32]; [194; 133]; [194; 160]; [225; 154; 128] ]
     ++ map (fun k => [226; 128; k]) [128; 129; 130; 131; 132; 133; 134; 135; 136; 137; 138]
     ++ [ [226; 128; 168]; [226; 128; 169]; [226; 128; 175]; [226; 129; 159];
          [227; 128; 128] ])%N.

Fixpoint strip_prefix (p s : string) : option string :=
  match p, s with
  | EmptyString, _ => Some s
  | String a p', String b s' => if Ascii.eqb a b then strip_prefix p' s' else None
  | String _ _, EmptyString => None
  end.

Fixpoint strip_any (ps : list string) (s : string) : option string :=
  match ps with
  | [] => None
  | p :: ps' =>
      match strip_prefix p s with
      | Some r => Some r
      | None => strip_any ps' s
      end
  end.

Fixpoint trim_left (fuel : nat) (ps : list string) (s : string) : string :=
  match fuel with
  | O => s
  | S fuel' =>
      match strip_any ps s with
      | Some r => trim_left fuel' ps r
      | None => s
      end
  end.

Definition TrimLeft (ps : list string) (s : string) : string :=
  trim_left (String.length s) ps s.

Definition TrimSpace (s : string) : string :=
  String.rev (TrimLeft (map String.rev spaces) (String.rev (TrimLeft spaces s))).

End strings.

(** ** [sort.Slice]

    [sort.Slice] is not stable and promises only a sorted permutation. What
    it computes is a parameter of the fingerprinter ([SortSlice]); the
    contract is [sort_contract]. For slices of at most twelve elements the
    library runs [insertionSort], which is the instance used to evaluate the
    fingerprinter on concrete inputs. *)
Module sort.

Class SortSlice := Slice : forall {A : Type}, (A -> A -> bool) -> list A -> list A.

(** [less] never puts a later element strictly before an earlier one. *)
Inductive sorted {A : Type} (less : A -> A -> bool) : list A -> Prop :=
| sorted_nil : sorted less []
| sorted_cons x l :
    Forall (fun y => less y x = false) l -> sorted less l -> sorted less (x :: l).

(** [less] compares a key under a strict total order on keys. *)
Record keyed {A K : Type} (less : A -> A -> bool) (key : A -> K) : Prop := {
  keyed_key : forall x x' y y', key x = key x' -> key y = key y' -> less x y = less x' y';
  keyed_irrefl : forall x y, key x = key y -> less x y = false;
  keyed_total : forall x y, less x y = false -> less y x = false -> key x = key y;
  keyed_asym : forall x y, less x y = true -> less y x = false;
  keyed_trans : forall x y z, less x y = true -> less y z = true -> less x z = true
}.

Definition sort_contract (S : SortSlice) : Prop :=
  forall (A K : Type) (less : A -> A -> bool) (key : A -> K) (l : list A),
    keyed less key ->
    Permutation (Slice less l) l /\ sorted less (Slice less l).

(** The inner loop of [insertionSort]: the new element moves left while it
    is less than its left neighbour. [rp] is the sorted prefix, last
    element first. *)
Fixpoint shift_left {A : Type} (less : A -> A -> bool) (x : A) (rp : list A) : list A :=
  match rp with
  | [] => [x]
  | y :: rp' => if less x y then y :: shift_left less x rp' else x :: rp
  end.

Definition insertionSort {A : Type} (less : A -> A -> bool) (l : list A) : list A :=
  rev (fold_left (fun rp x => shift_left less x rp) l []).

(** The invariant of the sorted prefix, last element first: no element is
    less than one that stands before it in the slice. *)
Inductive rsorted {A : Type} (less : A -> A -> bool) : list A -> Prop :=
| rsorted_nil : rsorted less []
| rsorted_cons y rp :
    Forall (fun z => less y z = false) rp -> rsorted less rp -> rsorted less (y :: rp).

#[global] Instance insertion : SortSlice := @insertionSort.

End sort.

(** [error]: nil or an error value. *)
Inductive error_value : Type :=
| ErrNotFound
| ErrOther (msg : string).

Abbreviation error := (option error_value).

(** ** [unicode/utf8]

    [utf8.DecodeRuneInString]: the first rune of a string and its width in
    bytes; [(RuneError, 1)] when the first byte starts no well-formed
    sequence. *)
Module utf8.

Definition RuneError : Z := 0xFFFD.
Definition RuneSelf : Z := 0x80.

Definition byte (a : ascii) : Z := Z.of_N (N_of_ascii a).

(** The table [first] with [acceptRanges]: the width announced by a
    leading byte and the range its second byte must lie in. *)
Definition first (b : Z) : option (nat * (Z * Z)) :=
  if b <? 0xC2 then None
  else if b <=? 0xDF then Some (2%nat, (0x80, 0xBF))
  else if b =? 0xE0 then Some (3%nat, (0xA0, 0xBF))
  else if b <=? 0xEC then Some (3%nat, (0x80, 0xBF))
  else if b =? 0xED then Some (3%nat, (0x80, 0x9F))
  else if b <=? 0xEF then Some (3%nat, (0x80, 0xBF))
  else if b =? 0xF0 then Some (4%nat, (0x90, 0xBF))
  else if b <=? 0xF3 then Some (4%nat, (0x80, 0xBF))
  else if b =? 0xF4 then Some (4%nat, (0x80, 0x8F))
  else None.

(** A continuation byte. *)
Definition continues (b : Z) : bool := (0x80 <=? b) && (b <=? 0xBF).

Definition DecodeRuneInString (s : string) : Z * nat :=
  match s with
  | EmptyString => (RuneError, O)
  | String a0 rest0 =>
      let s0 := byte a0 in
      if s0 <? RuneSelf then (s0, 1%nat)
      else
        match first s0 with
        | None => (RuneError, 1%nat)
        | Some (sz, (lo, hi)) =>
            match rest0 with
            | EmptyString => (RuneError, 1%nat)
            | String a1 rest1 =>
                let s1 := byte a1 in
                if (s1 <? lo) || (hi <? s1) then (RuneError, 1%nat)
                else if (sz <=? 2)%nat then
                  (Z.lor (Z.shiftl (Z.land s0 0x1F) 6) (Z.land s1 0x3F), 2%nat)
                else
                  match rest1 with
                  | EmptyString => (RuneError, 1%nat)
                  | String a2 rest2 =>
                      let s2 := byte a2 in
                      if negb (continues s2) then (RuneError, 1%nat)
                      else if (sz <=? 3)%nat then
                        (Z.lor (Z.shiftl (Z.land s0 0x0F) 12)
                           (Z.lor (Z.shiftl (Z.land s1 0x3F) 6) (Z.land s2 0x3F)), 3%nat)
                      else
                        match rest2 with
                        | EmptyString => (RuneError, 1%nat)
                        | String a3 _ =>
                            let s3 := byte a3 in
                            if negb (continues s3) then (RuneError, 1%nat)
                            else
                              (Z.lor (Z.shiftl (Z.land s0 0x07) 18)
                                 (Z.lor (Z.shiftl (Z.land s1 0x3F) 12)
                                    (Z.lor (Z.shiftl (Z.land s2 0x3F) 6) (Z.land s3 0x3F))),
                               4%nat)
                        end
                  end
            end
        end
  end.

(** [s[:n]] and [s[n:]]. *)
Fixpoint to (n : nat) (s : string) : string :=
  match n, s with
  | S n', String a s' => String a (to n' s')
  | _, _ => EmptyString
  end.

Fixpoint from (n : nat) (s : string) : string :=
  match n, s with
  | S n', String _ s' => from n' s'
  | _, _ => s
  end.

(** [utf8.ValidString]: the string consists of well-formed sequences
    only, that is, no round of decoding yields the error rune of width
    one. Each round consumes at least one byte. *)
Fixpoint valid_loop (fuel : nat) (s : string) : bool :=
  match fuel, s with
  | _, EmptyString => true
  | S fuel', String b rest =>
      if byte b <? RuneSelf then valid_loop fuel' rest
      else
        let (c, size) := DecodeRuneInString s in
        if (c =? RuneError) && (size =? 1)%nat then false
        else valid_loop fuel' (from size s)
  | O, String _ _ => false
  end.

Definition ValidString (s : string) : bool := valid_loop (String.length s) s.

End utf8.

(** ** [encoding/json]

    [json.Marshal] in two steps: a value is turned into a JSON document
    ([Marshaler], following the struct tags), and the document is written
    out compactly ([encode]). A [MarshalJSON] method that returns an error
    leaves a [Failed] node in the document; [json.Marshal] then returns no
    bytes and the error. *)
Module json.

Inductive value : Type :=
| Null
| Number (z : Z)
| Str (s : string)
| Array (elems : list value)
| Object (members : list (string * value))
| Failed (type_ err : string).

Definition dquote : ascii := "034"%char.
Definition backslash : ascii := "092"%char.

Definition char (a : ascii) : string := String a EmptyString.

(** One byte below 0x80, as [appendString] with HTML escaping writes it. *)
Definition escape_ascii (a : ascii) : string :=
  let n := Z.of_N (N_of_ascii a) in
  if Ascii.eqb a dquote || Ascii.eqb a backslash then String backslash (char a)
  else if n =? 8 then String backslash "b"
  else if n =? 12 then String backslash "f"
  else if n =? 10 then String backslash "n"
  else if n =? 13 then String backslash "r"
  else if n =? 9 then String backslash "t"
  else if (n <? 32) || (n =? 60) || (n =? 62) || (n =? 38) then
    String backslash
      ("u00" +:+ String (hex.digit (Z.shiftr n 4)) (char (hex.digit (Z.land n 15))))
  else char a.

(** U+FFFD, the replacement rune, as it is written. *)
Definition replacement : string := String "239" (String "191" (String "189" EmptyString)).

(** The loop of [appendString]. A byte below 0x80 is written by
    [escape_ascii]. Otherwise the rune at the position is decoded: a byte
    that starts no well-formed sequence is replaced by the replacement
    rune ("coerced to valid UTF-8, replacing invalid bytes with the
    Unicode replacement rune"), U+2028 and U+2029 are escaped, and every
    other rune is copied. Each round consumes at least one byte, so the
    length of the string is fuel enough. *)
Fixpoint escape_loop (fuel : nat) (s : string) : string :=
  match fuel, s with
  | S fuel', String b rest =>
      if utf8.byte b <? utf8.RuneSelf then escape_ascii b +:+ escape_loop fuel' rest
      else
        let (c, size) := utf8.DecodeRuneInString s in
        if (c =? utf8.RuneError) && (size =? 1)%nat then
          replacement +:+ escape_loop fuel' (utf8.from size s)
        else if (c =? 0x2028) || (c =? 0x2029) then
          String backslash ("u202" +:+ char (hex.digit (Z.land c 15)))
          +:+ escape_loop fuel' (utf8.from size s)
        else utf8.to size s +:+ escape_loop fuel' (utf8.from size s)
  | _, _ => EmptyString
  end.

Definition escape (s : string) : string := escape_loop (String.length s) s.

Definition quote (s : string) : string :=
  String dquote (escape s +:+ char dquote).

Fixpoint join (sep : string) (l : list string) : string :=
  match l with
  | [] => EmptyString
  | [x] => x
  | x :: rest => x +:+ sep +:+ join sep rest
  end.

Fixpoint encode (v : value) : string :=
  match v with
  | Null => "null"
  | Number z => pretty z
  | Str s => quote s
  | Array elems => "[" +:+ join "," (map encode elems) +:+ "]"
  | Object members =>
      "{" +:+ join "," (map (fun m => match m with
                                        | (k, x) => quote k +:+ ":" +:+ encode x
                                        end) members) +:+ "}"
  | Failed _ _ => EmptyString
  end.

(** The first error met while the document is written. *)
Fixpoint failure (v : value) : error :=
  match v with
  | Failed type_ err =>
      Some (ErrOther ("json: error calling MarshalJSON for type " +:+ type_ +:+ ": " +:+ err))
  | Array elems =>
      (fix first_of (l : list value) : error :=
         match l with
         | [] => None
         | x :: l' => match failure x with Some e => Some e | None => first_of l' end
         end) elems
  | Object members =>
      (fix first_of (l : list (string * value)) : error :=
         match l with
         | [] => None
         | (_, x) :: l' => match failure x with Some e => Some e | None => first_of l' end
         end) members
  | _ => None
  end.

(** What the reflection of [json.Marshal] does for one type. *)
Class Marshaler (A : Type) := toJSON : A -> value.

Definition Marshal {A : Type} `{Marshaler A} (v : A) : string * error :=
  match failure (toJSON v) with
  | Some e => (EmptyString, Some e)
  | None => (encode (toJSON v), None)
  end.

(** Struct fields: always written, or left out when empty. *)
Definition field {A : Type} `{Marshaler A} (name : string) (v : A)
  : list (string * value) := [(name, toJSON v)].

Definition omitempty {A : Type} `{Marshaler A} (name : string) (empty : bool) (v : A)
  : list (string * value) := if empty then [] else [(name, toJSON v)].

#[global] Instance marshal_string : Marshaler string := Str.
#[global] Instance marshal_int32 : Marshaler Z := Number.

#[global] Instance marshal_slice {A : Type} `{Marshaler A} : Marshaler (list A) :=
  fun l => Array (map toJSON l).

(** A map is written with its keys in increasing order. *)
Definition key_less {A : Type} (x y : string * A) : bool := String.ltb (fst x) (fst y).

#[global] Instance marshal_map {A : Type} `{Marshaler A} : Marshaler (gmap string A) :=
  fun m => Object (map (fun kv => (fst kv, toJSON (snd kv)))
                       (sort.insertionSort key_less (map_to_list m))).

(** A pointer: [null] when nil (a nil pointer tagged omitempty is never
    written). *)
#[global] Instance marshal_ptr {A : Type} `{Marshaler A} : Marshaler (option A) :=
  fun o => match o with
           | Some v =>
               match toJSON v with
               | Failed type_ err => Failed ("*" +:+ type_) err
               | doc => doc
               end
           | None => Null
           end.

End json.

(* ===================================================================== *)
(** * Kubernetes API types: the fields the program reads or writes *)
(* ===================================================================== *)

(** A Go map is [nil] or a map: [option (gmap string string)]. *)
Abbreviation gomap := (option (gmap string string)).

(** [m[k]] on a map that may be nil: the zero value when the key is absent. *)
Definition index (m : gomap) (k : string) : string :=
  match m with
  | Some m' => default EmptyString (m' !! k)
  | None => EmptyString
  end.

Definition len_map (m : gomap) : nat :=
  match m with
  | Some m' => size m'
  | None => O
  end.

Definition is_zero (n : nat) : bool := match n with O => true | S _ => false end.

Module intstr.
(** [Type] is [Int] (0) or [String] (1); a value built by hand or decoded
    from protobuf may hold any number. *)
Record IntOrString : Type := mk {
  Type_ : Z;
  IntVal : Z;
  StrVal : string
}.

Definition Int : Z := 0.
Definition String_ : Z := 1.

Definition FromInt (v : Z) : IntOrString := mk Int v EmptyString.
Definition FromString (s : string) : IntOrString := mk String_ 0 s.

Definition String (x : IntOrString) : string :=
  if Type_ x =? String_ then StrVal x else pretty (IntVal x).

(** [MarshalJSON]: the number, the string, or the error
    "impossible IntOrString.Type". *)
#[global] Instance marshal : json.Marshaler IntOrString :=
  fun x =>
    if Type_ x =? Int then json.Number (IntVal x)
    else if Type_ x =? String_ then json.Str (StrVal x)
    else json.Failed "intstr.IntOrString" "impossible IntOrString.Type".
End intstr.

Module RollingUpdateDeployment.
Record t : Type := mk {
  MaxUnavailable : option intstr.IntOrString;
  MaxSurge : option intstr.IntOrString
}.

#[global] Instance marshal : json.Marshaler t := fun r =>
  json.Object
    (json.omitempty "maxUnavailable" (bool_decide (MaxUnavailable r = None)) (MaxUnavailable r)
     ++ json.omitempty "maxSurge" (bool_decide (MaxSurge r = None)) (MaxSurge r)).
End RollingUpdateDeployment.

Module DeploymentStrategy.
Record t : Type := mk {
  Type_ : string;
  RollingUpdate : option RollingUpdateDeployment.t
}.

#[global] Instance marshal : json.Marshaler t := fun s =>
  json.Object
    (json.omitempty "type" (String.eqb (Type_ s) EmptyString) (Type_ s)
     ++ json.omitempty "rollingUpdate"
          (match RollingUpdate s with None => true | Some _ => false end)
          (RollingUpdate s)).
End DeploymentStrategy.

Module ResourceClaim.
Record t : Type := mk { Name : string; Request : string }.

#[global] Instance marshal : json.Marshaler t := fun c =>
  json.Object
    (json.field "name" (Name c)
     ++ json.omitempty "request" (String.eqb (Request c) EmptyString) (Request c)).
End ResourceClaim.

(** A [resource.Quantity] is held as its canonical string, which is what it
    marshals to. *)
Module ResourceRequirements.
Record t : Type := mk {
  Limits : gomap;
  Requests : gomap;
  Claims : list ResourceClaim.t
}.

#[global] Instance marshal : json.Marshaler t := fun r =>
  json.Object
    (json.omitempty "limits" (is_zero (len_map (Limits r))) (Limits r)
     ++ json.omitempty "requests" (is_zero (len_map (Requests r))) (Requests r)
     ++ json.omitempty "claims" (is_zero (length (Claims r))) (Claims r)).
End ResourceRequirements.

Module EnvVarSource.
Inductive t : Type :=
| FieldRef (fieldPath : string)
| ResourceFieldRef (resource : string)
| ConfigMapKeyRef (name key : string)
| SecretKeyRef (name key : string).
End EnvVarSource.

Module EnvVar.
Record t : Type := mk {
  Name : string;
  Value : string;
  ValueFrom : option EnvVarSource.t
}.
End EnvVar.

Module ContainerPort.
Record t : Type := mk {
  Name : string;
  HostPort : Z;
  ContainerPort : Z;
  Protocol : string;
  HostIP : string
}.
End ContainerPort.

Module Container.
Record t : Type := mk {
  Name : string;
  Image : string;
  Env : list EnvVar.t;
  Ports : list ContainerPort.t;
  Resources : ResourceRequirements.t
}.
End Container.

Module PodSpec.
Record t : Type := mk { Containers : list Container.t }.
End PodSpec.

Module PodTemplateSpec.
Record t : Type := mk {
  Labels : gomap;
  Annotations : gomap;
  Spec : PodSpec.t
}.
End PodTemplateSpec.

Module DeploymentSpec.
Record t : Type := mk {
  Replicas : option Z;
  Strategy : DeploymentStrategy.t;
  Template : PodTemplateSpec.t
}.
End DeploymentSpec.

Module ObjectMeta.
Record t : Type := mk {
  Namespace : string;
  Name : string;
  Labels : gomap;
  Annotations : gomap
}.

Definition with_Annotations (a : gomap) (m : t) : t :=
  mk (Namespace m) (Name m) (Labels m) a.
End ObjectMeta.

Module Deployment.
Record t : Type := mk {
  Meta : ObjectMeta.t;
  Spec : DeploymentSpec.t
}.
End Deployment.

Module ServicePort.
Record t : Type := mk {
  Name : string;
  Protocol : string;
  Port : Z;
  TargetPort : intstr.IntOrString;
  NodePort : Z
}.
End ServicePort.

Module ServiceSpec.
Record t : Type := mk {
  Type_ : string;
  Selector : gomap;
  Ports : list ServicePort.t
}.
End ServiceSpec.

Module Service.
Record t : Type := mk {
  Meta : ObjectMeta.t;
  Spec : ServiceSpec.t
}.
End Service.

(* ===================================================================== *)
(** * Package [drift] *)
(* ===================================================================== *)

(** ** constants.go *)

Definition LabelEnabled : string := "tfdrift.jin.dev/enabled".

Definition AnnExpectedHash : string := "tfdrift.jin.dev/spec-hash".
Definition AnnLiveHash : string := "tfdrift.jin.dev/live-hash".
Definition AnnDrifted : string := "tfdrift.jin.dev/drifted".
Definition AnnLastCheckedAt : string := "tfdrift.jin.dev/last-checked-at".
Definition AnnDriftedAt : string := "tfdrift.jin.dev/drifted-at".

(** ** hash.go: the fingerprint structures and their JSON tags

    [omitempty] leaves out a nil pointer, an empty string, a zero number and
    an empty map or slice; it never leaves out a struct value. *)

Module EnvVarFingerprint.
Record t : Type := mk { Name : string; Value : string }.

#[global] Instance marshal : json.Marshaler t := fun e =>
  json.Object
    (json.field "name" (Name e)
     ++ json.omitempty "value" (String.eqb (Value e) EmptyString) (Value e)).
End EnvVarFingerprint.

Module ContainerPortFingerprint.
Record t : Type := mk { Name : string; ContainerPort : Z; Protocol : string }.

#[global] Instance marshal : json.Marshaler t := fun p =>
  json.Object
    (json.omitempty "name" (String.eqb (Name p) EmptyString) (Name p)
     ++ json.field "containerPort" (ContainerPort p)
     ++ json.omitempty "protocol" (String.eqb (Protocol p) EmptyString) (Protocol p)).
End ContainerPortFingerprint.

Module ContainerFingerprint.
Record t : Type := mk {
  Name : string;
  Image : string;
  Env : list EnvVarFingerprint.t;
  Ports : list ContainerPortFingerprint.t;
  Resources : ResourceRequirements.t
}.

Definition with_Env (e : list EnvVarFingerprint.t) (c : t) : t :=
  mk (Name c) (Image c) e (Ports c) (Resources c).
Definition with_Ports (p : list ContainerPortFingerprint.t) (c : t) : t :=
  mk (Name c) (Image c) (Env c) p (Resources c).

#[global] Instance marshal : json.Marshaler t := fun c =>
  json.Object
    (json.field "name" (Name c)
     ++ json.field "image" (Image c)
     ++ json.omitempty "env" (is_zero (length (Env c))) (Env c)
     ++ json.omitempty "ports" (is_zero (length (Ports c))) (Ports c)
     ++ json.field "resources" (Resources c)).
End ContainerFingerprint.

Module PodTemplateFingerprint.
Record t : Type := mk {
  Labels : gomap;
  Annotations : gomap;
  Containers : list ContainerFingerprint.t
}.

#[global] Instance marshal : json.Marshaler t := fun p =>
  json.Object
    (json.omitempty "labels" (is_zero (len_map (Labels p))) (Labels p)
     ++ json.omitempty "annotations" (is_zero (len_map (Annotations p))) (Annotations p)
     ++ json.field "containers" (Containers p)).
End PodTemplateFingerprint.

Module DeploymentFingerprint.
Record t : Type := mk {
  Replicas : option Z;
  Strategy : DeploymentStrategy.t;
  Template : PodTemplateFingerprint.t
}.

#[global] Instance marshal : json.Marshaler t := fun d =>
  json.Object
    (json.omitempty "replicas" (match Replicas d with None => true | Some _ => false end)
                    (Replicas d)
     ++ json.field "strategy" (Strategy d)
     ++ json.field "template" (Template d)).
End DeploymentFingerprint.

Module ServicePortFingerprint.
Record t : Type := mk {
  Name : string;
  Protocol : string;
  Port : Z;
  TargetPort : string;
  NodePort : Z
}.

#[global] Instance marshal : json.Marshaler t := fun p =>
  json.Object
    (json.omitempty "name" (String.eqb (Name p) EmptyString) (Name p)
     ++ json.omitempty "protocol" (String.eqb (Protocol p) EmptyString) (Protocol p)
     ++ json.field "port" (Port p)
     ++ json.field "targetPort" (TargetPort p)
     ++ json.omitempty "nodePort" (NodePort p =? 0) (NodePort p)).
End ServicePortFingerprint.

Module ServiceFingerprint.
Record t : Type := mk {
  Type_ : string;
  Selector : gomap;
  Ports : list ServicePortFingerprint.t
}.

#[global] Instance marshal : json.Marshaler t := fun s =>
  json.Object
    (json.field "type" (Type_ s)
     ++ json.omitempty "selector" (is_zero (len_map (Selector s))) (Selector s)
     ++ json.field "ports" (Ports s)).
End ServiceFingerprint.

(** ** hash.go: helpers *)

(** The text [json.Marshal] writes for a value none of whose marshallers
    fails: the bytes that are digested. (Where a marshaller fails,
    [json.Marshal] returns no text and [hashJSON] digests nothing; this is
    then the text of the document around the values that failed.) *)
Definition canonical_bytes {A : Type} `{json.Marshaler A} (v : A) : string :=
  json.encode (json.toJSON v).

(** [hashJSON]: the error of [json.Marshal] with an empty hash, or the
    digest of the text in lowercase hexadecimal. *)
Definition hashJSON {A : Type} `{json.Marshaler A} (v : A) : string * error :=
  let (b, err) := json.Marshal v in
  match err with
  | Some e => (EmptyString, Some e)
  | None =>
      let sum := sha256.Sum256 b in
      (hex.EncodeToString sum, None)
  end.

Definition copyMap (m : gomap) : gomap :=
  match m with
  | None => None
  | Some m' => Some (map_fold (fun k v out => <[k := v]> out) ∅ m')
  end.

(** Every value of the map is replaced by its trimmed value; a nil map has
    nothing to range over. *)
Definition canonicalizeMap (m : gomap) : gomap :=
  match m with
  | None => None
  | Some m' => Some (strings.TrimSpace <$> m')
  end.

(** ** hash.go: Deployment hashing *)

Definition fingerprintEnv (env : list EnvVar.t) : list EnvVarFingerprint.t :=
  map (fun e => EnvVarFingerprint.mk (EnvVar.Name e) (EnvVar.Value e)) env.

Definition fingerprintPorts (ports : list ContainerPort.t) : list ContainerPortFingerprint.t :=
  map (fun p => ContainerPortFingerprint.mk (ContainerPort.Name p)
                  (ContainerPort.ContainerPort p) (ContainerPort.Protocol p)) ports.

Definition fingerprintContainer (c : Container.t) : ContainerFingerprint.t :=
  ContainerFingerprint.mk (Container.Name c) (Container.Image c)
    (fingerprintEnv (Container.Env c)) (fingerprintPorts (Container.Ports c))
    (Container.Resources c).

Definition fingerprintPodTemplate (t : PodTemplateSpec.t) : PodTemplateFingerprint.t :=
  let containers := map fingerprintContainer (PodSpec.Containers (PodTemplateSpec.Spec t)) in
  PodTemplateFingerprint.mk
    (copyMap (PodTemplateSpec.Labels t))
    (copyMap (PodTemplateSpec.Annotations t))
    containers.

(** The three comparison functions handed to [sort.Slice]. *)
Definition container_less (a b : ContainerFingerprint.t) : bool :=
  String.ltb (ContainerFingerprint.Name a) (ContainerFingerprint.Name b).

Definition env_less (a b : EnvVarFingerprint.t) : bool :=
  String.ltb (EnvVarFingerprint.Name a) (EnvVarFingerprint.Name b).

Definition port_less (a b : ContainerPortFingerprint.t) : bool :=
  let pa := ContainerPortFingerprint.ContainerPort a in
  let pb := ContainerPortFingerprint.ContainerPort b in
  if pa =? pb
  then String.ltb (ContainerPortFingerprint.Name a) (ContainerPortFingerprint.Name b)
  else pa <? pb.

Section Fingerprinter.
Context `{S : sort.SortSlice}.

Definition sortContainer (c : ContainerFingerprint.t) : ContainerFingerprint.t :=
  let c := ContainerFingerprint.with_Env (sort.Slice env_less (ContainerFingerprint.Env c)) c in
  ContainerFingerprint.with_Ports (sort.Slice port_less (ContainerFingerprint.Ports c)) c.

(** The fingerprint of [HashDeployment] after its canonicalisation steps,
    as it is handed to [hashJSON]. *)
Definition DeploymentCanonical (dep : Deployment.t) : DeploymentFingerprint.t :=
  let spec := Deployment.Spec dep in
  let tpl := fingerprintPodTemplate (DeploymentSpec.Template spec) in
  let labels := canonicalizeMap (PodTemplateFingerprint.Labels tpl) in
  let annotations := canonicalizeMap (PodTemplateFingerprint.Annotations tpl) in
  let containers := sort.Slice container_less (PodTemplateFingerprint.Containers tpl) in
  let containers := map sortContainer containers in
  DeploymentFingerprint.mk
    (DeploymentSpec.Replicas spec)
    (DeploymentSpec.Strategy spec)
    (PodTemplateFingerprint.mk labels annotations containers).

Definition HashDeployment (dep : Deployment.t) : string * error :=
  hashJSON (DeploymentCanonical dep).

(** ** hash.go: Service hashing *)

Definition fingerprintServicePort (p : ServicePort.t) : ServicePortFingerprint.t :=
  ServicePortFingerprint.mk (ServicePort.Name p) (ServicePort.Protocol p)
    (ServicePort.Port p) (intstr.String (ServicePort.TargetPort p)) (ServicePort.NodePort p).

Definition service_port_less (a b : ServicePortFingerprint.t) : bool :=
  if ServicePortFingerprint.Port a =? ServicePortFingerprint.Port b
  then String.ltb (ServicePortFingerprint.Name a) (ServicePortFingerprint.Name b)
  else ServicePortFingerprint.Port a <? ServicePortFingerprint.Port b.

Definition ServiceCanonical (svc : Service.t) : ServiceFingerprint.t :=
  let spec := Service.Spec svc in
  let ports := map fingerprintServicePort (ServiceSpec.Ports spec) in
  let selector := canonicalizeMap (copyMap (ServiceSpec.Selector spec)) in
  ServiceFingerprint.mk (ServiceSpec.Type_ spec) selector
    (sort.Slice service_port_less ports).

Definition HashService (svc : Service.t) : string * error :=
  hashJSON (ServiceCanonical svc).

End Fingerprinter.

(* ===================================================================== *)
(** * Package [controller] *)
(* ===================================================================== *)

(** ** What the reconcilers talk to

    The resource store behind [client.Client], the clock behind
    [time.Now], the event recorder and the logger are one explicit world
    that every call threads through. The journal records every call made,
    in order. *)

Abbreviation NamespacedName := (string * string)%type.

Record Request : Type := mkRequest { Request_NamespacedName : NamespacedName }.

(** [ctrl.Result]; [ctrl.Result{}] is [Result_zero]. *)
Record Result : Type := mkResult { Requeue : bool; RequeueAfter : Z }.
Definition Result_zero : Result := mkResult false 0.

Record Event : Type := mkEvent {
  Event_object : NamespacedName;
  Event_type : string;
  Event_reason : string;
  Event_message : string
}.

Definition EventTypeWarning : string := "Warning".

(** A JSON merge patch restricted to the annotation map: a key is set to a
    value or deleted. *)
Abbreviation AnnotationPatch := (gmap string (option string)).

Inductive Call : Type :=
| CallGet (key : NamespacedName)
| CallHash (key : NamespacedName)
| CallNow
| CallEventf (e : Event)
| CallLogInfo (msg : string) (keysAndValues : list (string * string))
| CallPatch (key : NamespacedName) (p : AnnotationPatch).

(** [client.Object], as far as the reconcilers use it. *)
Class Object (O : Type) := {
  GetObjectMeta : O -> ObjectMeta.t;
  SetAnnotations : gomap -> O -> O;
  GetObjectMeta_SetAnnotations :
    forall a o, GetObjectMeta (SetAnnotations a o)
                = ObjectMeta.with_Annotations a (GetObjectMeta o);
  SetAnnotations_twice :
    forall a b o, SetAnnotations a (SetAnnotations b o) = SetAnnotations a o
}.

#[global] Instance Deployment_Object : Object Deployment.t := {|
  GetObjectMeta := Deployment.Meta;
  SetAnnotations := fun a d =>
    Deployment.mk (ObjectMeta.with_Annotations a (Deployment.Meta d)) (Deployment.Spec d);
  GetObjectMeta_SetAnnotations := fun _ _ => eq_refl;
  SetAnnotations_twice := fun _ _ _ => eq_refl
|}.

#[global] Instance Service_Object : Object Service.t := {|
  GetObjectMeta := Service.Meta;
  SetAnnotations := fun a s =>
    Service.mk (ObjectMeta.with_Annotations a (Service.Meta s)) (Service.Spec s);
  GetObjectMeta_SetAnnotations := fun _ _ => eq_refl;
  SetAnnotations_twice := fun _ _ _ => eq_refl
|}.

Definition GetLabels {O : Type} `{Object O} (o : O) : gomap :=
  ObjectMeta.Labels (GetObjectMeta o).
Definition GetAnnotations {O : Type} `{Object O} (o : O) : gomap :=
  ObjectMeta.Annotations (GetObjectMeta o).
Definition key_of {O : Type} `{Object O} (o : O) : NamespacedName :=
  (ObjectMeta.Namespace (GetObjectMeta o), ObjectMeta.Name (GetObjectMeta o)).

Record World (O : Type) : Type := mkWorld {
  objects : gmap NamespacedName O;
  get_fault : error;
  patch_fault : error;
  clock : nat -> string;
  ticks : nat;
  journal : list Call
}.
Arguments mkWorld {O}.
Arguments objects {O}.
Arguments get_fault {O}.
Arguments patch_fault {O}.
Arguments clock {O}.
Arguments ticks {O}.
Arguments journal {O}.

(** The state monad of a reconciliation. *)
Definition M (O A : Type) : Type := World O -> A * World O.

Definition ret {O A : Type} (a : A) : M O A := fun w => (a, w).
Definition bind {O A B : Type} (m : M O A) (k : A -> M O B) : M O B :=
  fun w => let (a, w') := m w in k a w'.

Notation "'let*' x ':=' m 'in' k" := (bind m (fun x => k))
  (at level 10, x name, m at level 100, k at level 200).
Notation "'do' m 'then' k" := (bind m (fun _ => k))
  (at level 10, m at level 100, k at level 200).

Definition record {O : Type} (c : Call) : M O unit := fun w =>
  (tt, mkWorld (objects w) (get_fault w) (patch_fault w) (clock w) (ticks w)
         (journal w ++ [c])).

(** [apierrors.IsNotFound]. *)
Definition IsNotFound (e : error_value) : bool :=
  match e with
  | ErrNotFound => true
  | ErrOther _ => false
  end.

(** The patch [client.MergeFrom(orig)] yields for the modified annotations. *)
Definition merge_diff (orig modified : gomap) : AnnotationPatch :=
  merge (fun ov mv =>
           match ov, mv with
           | _, Some v => if decide (ov = Some v) then None else Some (Some v)
           | Some _, None => Some None
           | None, None => None
           end)
        (default ∅ orig) (default ∅ modified).

(** A merge patch applied by the store. *)
Definition apply_merge (p : AnnotationPatch) (stored : gomap) : gomap :=
  if decide (p = ∅) then stored
  else Some (merge (fun pv sv =>
                      match pv with
                      | Some (Some v) => Some v
                      | Some None => None
                      | None => sv
                      end)
                   p (default ∅ stored)).

Section Client.
Context {O : Type} `{Object O}.

(** [r.Get]: the object under the key, not-found, or a transport error. *)
Definition Get (key : NamespacedName) : M O (O + error_value) :=
  do record (CallGet key) then
  fun w =>
    match get_fault w with
    | Some e => (inr e, w)
    | None =>
        match objects w !! key with
        | Some o => (inl o, w)
        | None => (inr ErrNotFound, w)
        end
    end.

(** [r.Patch(ctx, obj, client.MergeFrom(orig))]. *)
Definition Patch (obj orig : O) : M O error :=
  let p := merge_diff (GetAnnotations orig) (GetAnnotations obj) in
  do record (CallPatch (key_of obj) p) then
  fun w =>
    match patch_fault w with
    | Some e => (Some e, w)
    | None =>
        match objects w !! key_of obj with
        | None => (Some ErrNotFound, w)
        | Some stored =>
            let stored' := SetAnnotations (apply_merge p (GetAnnotations stored)) stored in
            (None, mkWorld (<[key_of obj := stored']> (objects w)) (get_fault w)
                     (patch_fault w) (clock w) (ticks w) (journal w))
        end
    end.

(** [time.Now().UTC().Format(time.RFC3339)]. *)
Definition time_Now : M O string :=
  do record CallNow then
  fun w => (clock w (ticks w),
            mkWorld (objects w) (get_fault w) (patch_fault w) (clock w) (S (ticks w))
              (journal w)).

Definition Eventf (obj : O) (eventtype reason message : string) : M O unit :=
  record (CallEventf (mkEvent (key_of obj) eventtype reason message)).

Definition log_Info (msg : string) (keysAndValues : list (string * string)) : M O unit :=
  record (CallLogInfo msg keysAndValues).

End Client.

(** ** deployment_controller.go and the Service reconciler

    [DeploymentReconciler.Reconcile] and [ServiceReconciler.Reconcile] are
    the same text up to the object type, the hash function and the kind word
    of the event message; so are the two [patchAnnotations]. *)
Section Reconciler.
Context {O : Type} `{Object O}.
Variable Hash : O -> string * error.
Variable kind : string.

Definition call_Hash (obj : O) : M O (string * error) :=
  do record (CallHash (key_of obj)) then ret (Hash obj).

Definition is_nil (m : gomap) : bool :=
  match m with None => true | Some _ => false end.

Definition patchAnnotations (obj : O) (kv : gmap string string) : M O (Result * error) :=
  let orig := obj in
  let annotations := match GetAnnotations obj with
                     | None => ∅
                     | Some a => a
                     end in
  let obj := SetAnnotations (Some (kv ∪ annotations)) obj in
  let* err := Patch obj orig in
  match err with
  | Some e => ret (Result_zero, Some e)
  | None => ret (Result_zero, None)
  end.

Definition Reconcile (req : Request) : M O (Result * error) :=
  let* got := Get (Request_NamespacedName req) in
  match got with
  | inr err =>
      if IsNotFound err then ret (Result_zero, None)
      else ret (Result_zero, Some err)
  | inl obj =>
      if is_nil (GetLabels obj)
         || negb (String.eqb (index (GetLabels obj) LabelEnabled) "true")
      then ret (Result_zero, None)
      else
        let expected :=
          if negb (is_nil (GetAnnotations obj))
          then index (GetAnnotations obj) AnnExpectedHash
          else EmptyString in
        if String.eqb expected EmptyString then
          let* now := time_Now in
          patchAnnotations obj {[ AnnLastCheckedAt := now ]}
        else
          let* hashed := call_Hash obj in
          match hashed with
          | (_, Some err) => ret (Result_zero, Some err)
          | (liveHash, None) =>
              let* now := time_Now in
              let patch : gmap string string :=
                <[ AnnLastCheckedAt := now ]> {[ AnnLiveHash := liveHash ]} in
              let drifted := negb (String.eqb liveHash expected) in
              if drifted then
                let patch := <[ AnnDrifted := "true" ]> patch in
                let patch :=
                  if is_nil (GetAnnotations obj)
                     || String.eqb (index (GetAnnotations obj) AnnDriftedAt) EmptyString
                  then <[ AnnDriftedAt := now ]> patch
                  else patch in
                do Eventf obj EventTypeWarning "TerraformDriftDetected"
                     (kind +:+ " drift detected: expectedHash=" +:+ expected
                           +:+ " liveHash=" +:+ liveHash) then
                do log_Info "drift detected" [("expected", expected); ("live", liveHash)] then
                patchAnnotations obj patch
              else
                let patch := <[ AnnDrifted := "false" ]> patch in
                patchAnnotations obj patch
          end
  end.

End Reconciler.

Definition DeploymentReconciler_Reconcile `{sort.SortSlice}
  : Request -> M Deployment.t (Result * error) :=
  Reconcile HashDeployment "Deployment".

Definition ServiceReconciler_Reconcile `{sort.SortSlice}
  : Request -> M Service.t (Result * error) :=
  Reconcile HashService "Service".

(* ===================================================================== *)
(** * Vocabulary of the properties *)
(* ===================================================================== *)

(** What [r.Get] answers in a world. *)
Definition fetch {O : Type} (w : World O) (key : NamespacedName) : O + error_value :=
  match get_fault w with
  | Some e => inr e
  | None =>
      match objects w !! key with
      | Some o => inl o
      | None => inr ErrNotFound
      end
  end.

(** The world after some calls that changed nothing but the journal. *)
Definition logged {O : Type} (cs : list Call) (w : World O) : World O :=
  mkWorld (objects w) (get_fault w) (patch_fault w) (clock w) (ticks w) (journal w ++ cs).

(** The persisted value of one annotation of one resource. *)
Definition annotation {O : Type} `{Object O} (w : World O) (key : NamespacedName)
    (k : string) : option string :=
  match objects w !! key with
  | Some o =>
      match GetAnnotations o with
      | Some a => a !! k
      | None => None
      end
  | None => None
  end.

(** The calls made between two worlds, and the warnings among calls. *)
Definition calls_since {O : Type} (w w' : World O) : list Call :=
  drop (length (journal w)) (journal w').

Definition warnings (cs : list Call) : list Event :=
  omap (fun c => match c with CallEventf e => Some e | _ => None end) cs.

Definition hash_calls (cs : list Call) : list NamespacedName :=
  omap (fun c => match c with CallHash k => Some k | _ => None end) cs.

Definition writes (cs : list Call) : list (NamespacedName * AnnotationPatch) :=
  omap (fun c => match c with CallPatch k p => Some (k, p) | _ => None end) cs.

(** Every object is stored under its own namespace and name. *)
Definition store_wf {O : Type} `{Object O} (w : World O) : Prop :=
  forall k o, objects w !! k = Some o -> key_of o = k.

(** The opt-in test of the reconcilers. *)
Definition opted_in {O : Type} `{Object O} (o : O) : bool :=
  negb (is_nil (GetLabels o)
        || negb (String.eqb (index (GetLabels o) LabelEnabled) "true")).

(** The baseline the reconcilers read. *)
Definition expected_of {O : Type} `{Object O} (o : O) : string :=
  if negb (is_nil (GetAnnotations o))
  then index (GetAnnotations o) AnnExpectedHash
  else EmptyString.

(** The annotations a reconciliation stages once the live hash is known. *)
Definition staged {O : Type} `{Object O} (o : O) (liveHash now : string)
    : gmap string string :=
  let patch : gmap string string :=
    <[ AnnLastCheckedAt := now ]> {[ AnnLiveHash := liveHash ]} in
  if negb (String.eqb liveHash (expected_of o)) then
    let patch := <[ AnnDrifted := "true" ]> patch in
    if is_nil (GetAnnotations o)
       || String.eqb (index (GetAnnotations o) AnnDriftedAt) EmptyString
    then <[ AnnDriftedAt := now ]> patch
    else patch
  else <[ AnnDrifted := "false" ]> patch.

(** The world after a patch of [kv] onto the annotations of [o] went
    through, [cs] being the calls made. *)
Definition committed {O : Type} `{Object O} (w : World O) (o : O)
    (kv : gmap string string) (cs : list Call) : World O :=
  mkWorld
    (<[ key_of o := SetAnnotations (Some (kv ∪ default ∅ (GetAnnotations o))) o ]> (objects w))
    (get_fault w) (patch_fault w) (clock w) (S (ticks w)) (journal w ++ cs).

Definition attempted {O : Type} (w : World O) (cs : list Call) : World O :=
  mkWorld (objects w) (get_fault w) (patch_fault w) (clock w) (S (ticks w))
    (journal w ++ cs).

Definition drift_event (kind : string) (key : NamespacedName) (expected liveHash : string)
    : Event :=
  mkEvent key EventTypeWarning "TerraformDriftDetected"
    (kind +:+ " drift detected: expectedHash=" +:+ expected +:+ " liveHash=" +:+ liveHash).

(** How a reconciliation ends once [kv] is staged, [cs] being the calls
    made before the patch. *)
Definition finish {O : Type} `{Object O} (w : World O) (o : O)
    (kv : gmap string string) (cs : list Call) : (Result * error) * World O :=
  let p := merge_diff (GetAnnotations o) (Some (kv ∪ default ∅ (GetAnnotations o))) in
  let cs' := cs ++ [CallPatch (key_of o) p] in
  match patch_fault w with
  | Some e => ((Result_zero, Some e), attempted w cs')
  | None => ((Result_zero, None), committed w o kv cs')
  end.

(** The decision procedure of [Reconcile] in closed form: what it returns
    and the world it leaves, by cases on what it observes. *)
Definition outcome {O : Type} `{Object O} (Hash : O -> string * error) (kind : string)
    (req : Request) (w : World O) : (Result * error) * World O :=
  let key := Request_NamespacedName req in
  match fetch w key with
  | inr e =>
      ((Result_zero, if IsNotFound e then None else Some e), logged [CallGet key] w)
  | inl o =>
      if negb (opted_in o) then ((Result_zero, None), logged [CallGet key] w)
      else if String.eqb (expected_of o) EmptyString then
        finish w o {[ AnnLastCheckedAt := clock w (ticks w) ]} [CallGet key; CallNow]
      else
        match Hash o with
        | (_, Some e) =>
            ((Result_zero, Some e), logged [CallGet key; CallHash (key_of o)] w)
        | (liveHash, None) =>
            let notify :=
              if negb (String.eqb liveHash (expected_of o))
              then [CallEventf (drift_event kind (key_of o) (expected_of o) liveHash);
                    CallLogInfo "drift detected"
                      [("expected", expected_of o); ("live", liveHash)]]
              else [] in
            finish w o (staged o liveHash (clock w (ticks w)))
              ([CallGet key; CallHash (key_of o); CallNow] ++ notify)
        end
  end.

(** What the no-baseline path does, as a relation between the world before
    and the result of a reconciliation: the calls are one read, one clock
    reading and one patch that names no key but [last-checked-at]; every
    other annotation of the resource and every other resource is as before;
    and when the patch goes through the reconciliation succeeds with
    [last-checked-at] holding the clock reading. *)
Definition only_last_checked_written {O : Type} `{Object O} (req : Request)
    (w : World O) (r : (Result * error) * World O) : Prop :=
  let key := Request_NamespacedName req in
  (exists p, calls_since w (snd r) = [CallGet key; CallNow; CallPatch key p]
             /\ forall k, k <> AnnLastCheckedAt -> p !! k = None)
  /\ hash_calls (calls_since w (snd r)) = []
  /\ warnings (calls_since w (snd r)) = []
  /\ (forall k, k <> AnnLastCheckedAt -> annotation (snd r) key k = annotation w key k)
  /\ (forall key', key' <> key -> objects (snd r) !! key' = objects w !! key')
  /\ (patch_fault w = None ->
      fst r = (Result_zero, None)
      /\ annotation (snd r) key AnnLastCheckedAt = Some (clock w (ticks w))).

(** What a reconciliation stages, if it gets as far as a patch: the object
    fetched and the annotations to write. *)
Definition staging {O : Type} `{Object O} (Hash : O -> string * error)
    (req : Request) (w : World O) : option (O * gmap string string) :=
  match fetch w (Request_NamespacedName req) with
  | inr _ => None
  | inl o =>
      if negb (opted_in o) then None
      else if String.eqb (expected_of o) EmptyString
           then Some (o, {[ AnnLastCheckedAt := clock w (ticks w) ]})
           else match Hash o with
                | (_, Some _) => None
                | (liveHash, None) => Some (o, staged o liveHash (clock w (ticks w)))
                end
  end.

(** The warnings a reconciliation emits, as a function of what it observes. *)
Definition notifications {O : Type} `{Object O} (Hash : O -> string * error)
    (kind : string) (req : Request) (w : World O) : list Event :=
  match fetch w (Request_NamespacedName req) with
  | inr _ => []
  | inl o =>
      if negb (opted_in o) then []
      else if String.eqb (expected_of o) EmptyString then []
           else match Hash o with
                | (_, Some _) => []
                | (liveHash, None) =>
                    if negb (String.eqb liveHash (expected_of o))
                    then [drift_event kind (key_of o) (expected_of o) liveHash]
                    else []
                end
  end.

(** An external actor rewrites one stored object. *)
Definition edit {O : Type} (key : NamespacedName) (f : O -> O) (w : World O) : World O :=
  mkWorld (alter f key (objects w)) (get_fault w) (patch_fault w) (clock w) (ticks w)
    (journal w).

(** One step of the life of the store: a reconciliation of some resource, or
    an external edit that keeps the identity of the object and does not touch
    its drifted-at annotation (the spec, the labels and every other
    annotation may change). *)
Inductive step {O : Type} `{Object O} (Hash : O -> string * error) (kind : string)
  : World O -> World O -> Prop :=
| step_reconcile req w :
    step Hash kind w (snd (Reconcile Hash kind req w))
| step_external key f w :
    (forall o, key_of (f o) = key_of o) ->
    (forall o, default ∅ (GetAnnotations (f o)) !! AnnDriftedAt
               = default ∅ (GetAnnotations o) !! AnnDriftedAt) ->
    step Hash kind w (edit key f w).

(** The text of one member of a JSON object. *)
Definition member_text (m : string * json.value) : string :=
  json.quote (fst m) +:+ ":" +:+ json.encode (snd m).







(** Builders of a Deployment and of a Service from their parts. *)
Definition deployment_of (meta : ObjectMeta.t) (replicas : option Z)
    (strategy : DeploymentStrategy.t) (labels annotations : gomap)
    (containers : list Container.t) : Deployment.t :=
  Deployment.mk meta
    (DeploymentSpec.mk replicas strategy
       (PodTemplateSpec.mk labels annotations (PodSpec.mk containers))).

Definition service_of (meta : ObjectMeta.t) (type : string) (selector : gomap)
    (ports : list ServicePort.t) : Service.t :=
  Service.mk meta (ServiceSpec.mk type selector ports).

(** The containers of a Deployment. *)
Definition containers_of (dep : Deployment.t) : list Container.t :=
  PodSpec.Containers (PodTemplateSpec.Spec (DeploymentSpec.Template (Deployment.Spec dep))).

(** Two containers, and two Deployments, that differ at most in the order
    of their lists. *)
Definition container_reordered (c1 c2 : Container.t) : Prop :=
  Container.Name c1 = Container.Name c2
  /\ Container.Image c1 = Container.Image c2
  /\ Container.Resources c1 = Container.Resources c2
  /\ Permutation (Container.Env c1) (Container.Env c2)
  /\ Permutation (Container.Ports c1) (Container.Ports c2).

Definition deployment_reordered (d1 d2 : Deployment.t) : Prop :=
  let s1 := Deployment.Spec d1 in
  let s2 := Deployment.Spec d2 in
  DeploymentSpec.Replicas s1 = DeploymentSpec.Replicas s2
  /\ DeploymentSpec.Strategy s1 = DeploymentSpec.Strategy s2
  /\ PodTemplateSpec.Labels (DeploymentSpec.Template s1)
     = PodTemplateSpec.Labels (DeploymentSpec.Template s2)
  /\ PodTemplateSpec.Annotations (DeploymentSpec.Template s1)
     = PodTemplateSpec.Annotations (DeploymentSpec.Template s2)
  /\ exists cs, Permutation (containers_of d1) cs
                /\ Forall2 container_reordered cs (containers_of d2).

(** The sort keys of every list of a Deployment are pairwise distinct. *)
Definition container_distinct_keys (c : Container.t) : Prop :=
  NoDup (map EnvVar.Name (Container.Env c))
  /\ NoDup (map (fun p => (ContainerPort.ContainerPort p, ContainerPort.Name p))
              (Container.Ports c)).

Definition deployment_distinct_keys (dep : Deployment.t) : Prop :=
  NoDup (map Container.Name (containers_of dep))
  /\ Forall container_distinct_keys (containers_of dep).

(* ===================================================================== *)
(** * Sample resources and worlds *)
(* ===================================================================== *)

Module sample.

Definition no_resources : ResourceRequirements.t := ResourceRequirements.mk None None [].
Definition no_strategy : DeploymentStrategy.t := DeploymentStrategy.mk EmptyString None.

Definition key : NamespacedName := ("prod", "web").
Definition req : Request := mkRequest key.

Definition enabled : gomap := Some {[ LabelEnabled := "true" ]}.

Definition meta (labels annotations : gomap) : ObjectMeta.t :=
  ObjectMeta.mk "prod" "web" labels annotations.

(** A Deployment of one container running [image]. *)
Definition web (image : string) (labels annotations : gomap) : Deployment.t :=
  deployment_of (meta labels annotations) (Some 2) no_strategy None None
    [Container.mk "web" image [] [] no_resources].

(** An external change of the image; the metadata is kept. *)
Definition set_image (image : string) (d : Deployment.t) : Deployment.t :=
  deployment_of (Deployment.Meta d) (Some 2) no_strategy None None
    [Container.mk "web" image [] [] no_resources].

Definition t0 : string := "2026-01-01T00:00:00Z".
Definition t1 : string := "2026-01-01T00:05:00Z".
Definition t2 : string := "2026-01-01T00:10:00Z".

Definition clock (n : nat) : string :=
  match n with
  | O => t0
  | S O => t1
  | _ => t2
  end.

Definition world (d : Deployment.t) : World Deployment.t :=
  mkWorld {[ key := d ]} None None clock 0 [].

Definition empty_world : World Deployment.t := mkWorld ∅ None None clock 0 [].

Definition reconcile : Request -> M Deployment.t (Result * error) :=
  DeploymentReconciler_Reconcile (H := sort.insertion).

(** The baseline: the hash of the Deployment running nginx:1. *)
Definition baseline : string :=
  fst (HashDeployment (S := sort.insertion) (web "nginx:1" None None)).

(** Opted in, baseline recorded, but running nginx:2. *)
Definition drifted_world : World Deployment.t :=
  world (web "nginx:2" enabled (Some {[ AnnExpectedHash := baseline ]})).

(** As above, with drifted-at already recorded at [t0]. *)
Definition known_drift_world : World Deployment.t :=
  world (web "nginx:2" enabled
           (Some {[ AnnExpectedHash := baseline; AnnDriftedAt := t0 ]})).

(** Not opted in (the label says "false"), although a baseline is there. *)
Definition opted_out_world : World Deployment.t :=
  world (web "nginx:2" (Some {[ LabelEnabled := "false" ]})
           (Some {[ AnnExpectedHash := baseline ]})).

(** Opted in, without a baseline; and with an empty baseline. *)
Definition no_baseline_world : World Deployment.t :=
  world (web "nginx:2" enabled (Some {[ "team" := "payments" ]})).

Definition empty_baseline_world : World Deployment.t :=
  world (web "nginx:2" enabled (Some {[ AnnExpectedHash := EmptyString ]})).

(** One container with the DNS port declared for both protocols. *)
Definition dns (ports : list ContainerPort.t) : Deployment.t :=
  deployment_of (meta None None) (Some 1) no_strategy None None
    [Container.mk "dns" "coredns:1.11" [] ports no_resources].

Definition udp53 : ContainerPort.t := ContainerPort.mk EmptyString 0 53 "UDP" EmptyString.
Definition tcp53 : ContainerPort.t := ContainerPort.mk EmptyString 0 53 "TCP" EmptyString.

(** One container with the given environment. *)
Definition app (env : list EnvVar.t) : Deployment.t :=
  deployment_of (meta None None) (Some 1) no_strategy None None
    [Container.mk "app" "app:1" env [] no_resources].


End sample.

(* ===================================================================== *)
(** * Proof automation *)
(* ===================================================================== *)

(** Lookups in staged annotations at the five owned keys. *)
Ltac owned_keys :=
  repeat first
    [ rewrite lookup_insert_eq
    | rewrite lookup_insert_ne by discriminate
    | rewrite lookup_singleton_eq
    | rewrite lookup_singleton_ne by discriminate ].

(** Conjunctions of closed facts, each settled by evaluation. *)
Ltac evaluated :=
  cbv zeta;
  repeat lazymatch goal with |- _ /\ _ => split end;
  vm_compute; first [reflexivity | discriminate].


(* ===================================================================== *)
(** * Vocabulary of the further properties *)
(* ===================================================================== *)

(** The reads of the store and of the clock among calls. *)
Definition reads (cs : list Call) : list NamespacedName :=
  omap (fun c => match c with CallGet k => Some k | _ => None end) cs.

Definition clock_reads (cs : list Call) : nat :=
  length (omap (fun c => match c with CallNow => Some tt | _ => None end) cs).

(** The four annotations a reconciliation may write. *)
Definition owned (k : string) : Prop :=
  k = AnnLiveHash \/ k = AnnDrifted \/ k = AnnDriftedAt \/ k = AnnLastCheckedAt.

(** What drifted-at holds after a drift detection at [now]. *)
Definition first_detection (before : option string) (now : string) : string :=
  match before with
  | Some v => if String.eqb v EmptyString then now else v
  | None => now
  end.

(** A character of a lowercase hexadecimal digest. *)
Definition is_lower_hex (a : ascii) : bool :=
  let n := N_of_ascii a in
  ((48 <=? n) && (n <=? 57) || (97 <=? n) && (n <=? 102))%N.

(** Worlds and resources at which the further properties are evaluated. *)
Module fixtures.

Definition pinned : Deployment.t :=
  sample.web "nginx:2" sample.enabled (Some {[ AnnExpectedHash := sample.baseline ]}).

Definition faithful : Deployment.t :=
  sample.web "nginx:1" sample.enabled (Some {[ AnnExpectedHash := sample.baseline ]}).

(** Opted in and running what the baseline was taken from. *)
Definition clean_world : World Deployment.t := sample.world faithful.

(** Opted in, with a baseline that is no digest. *)
Definition mislabelled : Deployment.t :=
  sample.web "nginx:1" sample.enabled (Some {[ AnnExpectedHash := "sha256:9f2c" ]}).

(** The API server answers reads, and patches, with an error. *)
Definition unreadable_world : World Deployment.t :=
  mkWorld {[ sample.key := pinned ]} (Some (ErrOther "timeout")) None sample.clock 0 [].

Definition unwritable_world : World Deployment.t :=
  mkWorld {[ sample.key := pinned ]} None (Some (ErrOther "conflict")) sample.clock 0 [].


(** A hash function that fails, as [hashJSON] does when marshalling does. *)
Definition failing_hash (d : Deployment.t) : string * error :=
  (EmptyString, Some (ErrOther "unsupported value")).

(** Two containers with two variables and two ports each, in two orders. *)
Definition http : ContainerPort.t := ContainerPort.mk "http" 0 80 "TCP" EmptyString.
Definition https : ContainerPort.t := ContainerPort.mk "https" 0 443 "TCP" EmptyString.
Definition region : EnvVar.t := EnvVar.mk "REGION" "eu-west-1" None.
Definition tier : EnvVar.t := EnvVar.mk "TIER" "gold" None.

Definition api (env : list EnvVar.t) (ports : list ContainerPort.t) : Container.t :=
  Container.mk "api" "api:3" env ports sample.no_resources.
Definition proxy : Container.t :=
  Container.mk "proxy" "envoy:1.30" [] [] sample.no_resources.

Definition shop (containers : list Container.t) : Deployment.t :=
  deployment_of (sample.meta None None) (Some 3) sample.no_strategy None None containers.

Definition shop_listed : Deployment.t := shop [api [region; tier] [http; https]; proxy].
Definition shop_shuffled : Deployment.t := shop [proxy; api [tier; region] [https; http]].

Definition web_port : ServicePort.t :=
  ServicePort.mk "web" "TCP" 80 (intstr.FromInt 8080) 0.
Definition metrics_port : ServicePort.t :=
  ServicePort.mk "metrics" "TCP" 9090 (intstr.FromString "metrics") 0.

End fixtures.

(** A SHA-256 digest in the form [hex.EncodeToString] gives it. *)
Definition is_digest (h : string) : Prop :=
  String.length h = 64%nat /\ forallb is_lower_hex (list_ascii_of_string h) = true.




(** The place of each call in the text of [Reconcile]: the read, the hash,
    the clock, the event, the log line, the patch. *)
Definition call_rank (c : Call) : nat :=
  match c with
  | CallGet _ => 0
  | CallHash _ => 1
  | CallNow => 2
  | CallEventf _ => 3
  | CallLogInfo _ _ => 4
  | CallPatch _ _ => 5
  end.

(** Strictly increasing: every call of a journal comes later in the text
    of [Reconcile] than the calls before it, so none is made twice. *)
Fixpoint increasing (l : list nat) : bool :=
  match l with
  | [] => true
  | x :: l' => forallb (Nat.ltb x) l' && increasing l'
  end.

Definition program_order (cs : list Call) : bool := increasing (map call_rank cs).

(** The calls made before the first event. *)
Fixpoint before_event (cs : list Call) : list Call :=
  match cs with
  | [] => []
  | CallEventf _ :: _ => []
  | c :: cs' => c :: before_event cs'
  end.

(** The calls made after the first event. *)
Fixpoint after_event (cs : list Call) : list Call :=
  match cs with
  | [] => []
  | CallEventf _ :: cs' => cs'
  | _ :: cs' => after_event cs'
  end.

(** The values [intstr.IntOrString.MarshalJSON] accepts, and the strategies
    whose rolling update holds no other value. *)
Definition possible (x : intstr.IntOrString) : bool :=
  (intstr.Type_ x =? intstr.Int) || (intstr.Type_ x =? intstr.String_).

Definition possible_ptr (o : option intstr.IntOrString) : bool :=
  match o with
  | Some x => possible x
  | None => true
  end.

Definition strategy_marshals (s : DeploymentStrategy.t) : bool :=
  match DeploymentStrategy.RollingUpdate s with
  | Some r =>
      possible_ptr (RollingUpdateDeployment.MaxUnavailable r)
      && possible_ptr (RollingUpdateDeployment.MaxSurge r)
  | None => true
  end.

(** ** Vocabulary of trimming *)

(** One of two texts is a prefix of the other. *)
Fixpoint compatible (s t : string) : bool :=
  match s, t with
  | String a s', String b t' => Ascii.eqb a b && compatible s' t'
  | _, _ => true
  end.

(** A text made of the given patterns only. For [strings.spaces]: a run of
    white space. *)
Inductive blank (ps : list string) : string -> Prop :=
| blank_nil : blank ps EmptyString
| blank_cons p s : p ∈ ps -> blank ps s -> blank ps (p +:+ s).

(** A text with no white space at either end. *)
Definition trimmed (v : string) : Prop :=
  strings.strip_any strings.spaces v = None
  /\ strings.strip_any (map String.rev strings.spaces) (String.rev v) = None.

(** No pattern is a prefix of another. *)
Definition prefix_code (ps : list string) : bool :=
  forallb (fun a => forallb (fun b => implb (compatible a b) (String.eqb a b)) ps) ps.

(** The proper, non-empty ends of a text. *)
Fixpoint proper_tails (s : string) : list string :=
  match s with
  | String _ (String b s' as t) => t :: proper_tails t
  | _ => []
  end.

(** No pattern starts inside another. *)
Definition self_delimiting (ps : list string) : bool :=
  forallb (fun a => forallb (fun b => forallb (fun a' => negb (compatible b a')) ps)
                      (proper_tails a)) ps.

(* ===================================================================== *)
(** * Vocabulary of the canonical text *)
(* ===================================================================== *)

(** The characters that follow a value inside a document, and the
    characters of a number. *)
Definition is_delimiter (a : ascii) : bool :=
  let n := N_of_ascii a in ((n =? 44) || (n =? 93) || (n =? 125))%N.

Definition delimited (r : string) : Prop :=
  match r with
  | EmptyString => True
  | String a _ => is_delimiter a = true
  end.

Definition is_numeric (a : ascii) : bool :=
  let n := N_of_ascii a in ((n =? 45) || (48 <=? n) && (n <=? 57))%N.

Fixpoint all_chars (P : ascii -> bool) (s : string) : bool :=
  match s with
  | EmptyString => true
  | String a s' => P a && all_chars P s'
  end.

(** The first character of a text satisfies [P]. *)
Definition starts_with (P : ascii -> bool) (s : string) : Prop :=
  match s with
  | EmptyString => False
  | String a _ => P a = true
  end.

Definition every_ascii : list ascii := map ascii_of_nat (seq 0 256).

(** U+2028 and U+2029 are the byte sequences 226 128 168 and 226 128 169;
    they are written as the escapes of their code points. *)
Definition separator (k : ascii) : string :=
  String "226" (String "128" (String k EmptyString)).

Definition escaped_separator (k : ascii) : string :=
  String json.backslash (String "u" (String "2" (String "0" (String "2" (String k EmptyString))))).

(** One round of the loop of [json.escape]: what is written, and the input
    left. *)
Definition escape_step (s : string) : option (string * string) :=
  match s with
  | EmptyString => None
  | String b rest =>
      if utf8.byte b <? utf8.RuneSelf then Some (json.escape_ascii b, rest)
      else
        let (c, size) := utf8.DecodeRuneInString s in
        if (c =? utf8.RuneError) && (size =? 1)%nat then
          Some (json.replacement, utf8.from size s)
        else if (c =? 0x2028) || (c =? 0x2029) then
          Some (String json.backslash ("u202" +:+ json.char (hex.digit (Z.land c 15))),
                utf8.from size s)
        else Some (utf8.to size s, utf8.from size s)
  end.

(** What [utf8.ValidString] checks in one round: the input left, unless the
    round meets a byte that starts no well-formed sequence. *)
Definition valid_step (s : string) : option string :=
  match s with
  | EmptyString => None
  | String b rest =>
      if utf8.byte b <? utf8.RuneSelf then Some rest
      else
        let (c, size) := utf8.DecodeRuneInString s in
        if (c =? utf8.RuneError) && (size =? 1)%nat then None
        else Some (utf8.from size s)
  end.

(** The width a leading byte announces. *)
Definition width (b : Z) : nat :=
  match utf8.first b with
  | Some (sz, _) => sz
  | None => 1%nat
  end.

(** What one round over a valid string consumes ([c]) and writes ([t]): one
    byte below 0x80 and its escape, a line or paragraph separator and its
    escape, or one well-formed sequence of two to four bytes, copied. *)
Inductive round : string -> string -> Prop :=
| round_ascii a :
    utf8.byte a < utf8.RuneSelf -> round (String a EmptyString) (json.escape_ascii a)
| round_line : round (separator "168") (escaped_separator "8")
| round_paragraph : round (separator "169") (escaped_separator "9")
| round_copy a c :
    utf8.RuneSelf <= utf8.byte a -> String.length (String a c) = width (utf8.byte a) ->
    round (String a c) (String a c).

Definition not_dquote (a : ascii) : bool := negb (Ascii.eqb a json.dquote).

(** A document that was marshalled without an error and whose strings and
    keys are valid UTF-8. *)
Fixpoint wellformed (v : json.value) : bool :=
  match v with
  | json.Null => true
  | json.Number _ => true
  | json.Str s => utf8.ValidString s
  | json.Array es => forallb wellformed es
  | json.Object ms => forallb (fun m => utf8.ValidString (fst m) && wellformed (snd m)) ms
  | json.Failed _ _ => false
  end.

(** The first character of the text of a value tells its kind. *)
Definition opens (v : json.value) (a : ascii) : bool :=
  match v with
  | json.Null => Ascii.eqb a "n"
  | json.Number _ => is_numeric a
  | json.Str _ => Ascii.eqb a json.dquote
  | json.Array _ => Ascii.eqb a "["
  | json.Object _ => Ascii.eqb a "{"
  | json.Failed _ _ => false
  end.

Definition not_delimiter (a : ascii) : bool := negb (is_delimiter a).

(** A text is never continued by another value of the same encoder: the
    text and what follows it can be told apart, among the values that
    satisfy [ok]. *)
Definition prefix_free {A : Type} (ok : A -> Prop) (enc : A -> string) (x : A) : Prop :=
  forall (y : A) (r1 r2 : string),
    ok y -> delimited r1 -> delimited r2 -> enc x +:+ r1 = enc y +:+ r2 -> x = y /\ r1 = r2.

(** ** What the canonical text can tell apart

    A nil map and an empty map are both left out by [omitempty]; of an
    [intstr.IntOrString] the field its type selects is written; everything
    else of a fingerprint is written. *)
Definition same_entries (m1 m2 : gomap) : Prop := default ∅ m1 = default ∅ m2.

Definition same_resources (r1 r2 : ResourceRequirements.t) : Prop :=
  same_entries (ResourceRequirements.Limits r1) (ResourceRequirements.Limits r2)
  /\ same_entries (ResourceRequirements.Requests r1) (ResourceRequirements.Requests r2)
  /\ ResourceRequirements.Claims r1 = ResourceRequirements.Claims r2.

Definition same_container (c1 c2 : ContainerFingerprint.t) : Prop :=
  ContainerFingerprint.Name c1 = ContainerFingerprint.Name c2
  /\ ContainerFingerprint.Image c1 = ContainerFingerprint.Image c2
  /\ ContainerFingerprint.Env c1 = ContainerFingerprint.Env c2
  /\ ContainerFingerprint.Ports c1 = ContainerFingerprint.Ports c2
  /\ same_resources (ContainerFingerprint.Resources c1) (ContainerFingerprint.Resources c2).

Definition same_template (t1 t2 : PodTemplateFingerprint.t) : Prop :=
  same_entries (PodTemplateFingerprint.Labels t1) (PodTemplateFingerprint.Labels t2)
  /\ same_entries (PodTemplateFingerprint.Annotations t1) (PodTemplateFingerprint.Annotations t2)
  /\ Forall2 same_container (PodTemplateFingerprint.Containers t1)
       (PodTemplateFingerprint.Containers t2).

Definition same_number_or_text (x y : intstr.IntOrString) : Prop :=
  intstr.Type_ x = intstr.Type_ y
  /\ if intstr.Type_ x =? intstr.Int then intstr.IntVal x = intstr.IntVal y
     else intstr.StrVal x = intstr.StrVal y.

Definition same_rolling_update (r1 r2 : RollingUpdateDeployment.t) : Prop :=
  option_Forall2 same_number_or_text
    (RollingUpdateDeployment.MaxUnavailable r1) (RollingUpdateDeployment.MaxUnavailable r2)
  /\ option_Forall2 same_number_or_text
       (RollingUpdateDeployment.MaxSurge r1) (RollingUpdateDeployment.MaxSurge r2).

Definition same_strategy (s1 s2 : DeploymentStrategy.t) : Prop :=
  DeploymentStrategy.Type_ s1 = DeploymentStrategy.Type_ s2
  /\ option_Forall2 same_rolling_update
       (DeploymentStrategy.RollingUpdate s1) (DeploymentStrategy.RollingUpdate s2).

Definition same_fingerprint (f1 f2 : DeploymentFingerprint.t) : Prop :=
  DeploymentFingerprint.Replicas f1 = DeploymentFingerprint.Replicas f2
  /\ same_strategy (DeploymentFingerprint.Strategy f1) (DeploymentFingerprint.Strategy f2)
  /\ same_template (DeploymentFingerprint.Template f1) (DeploymentFingerprint.Template f2).

Definition same_service_fingerprint (f1 f2 : ServiceFingerprint.t) : Prop :=
  ServiceFingerprint.Type_ f1 = ServiceFingerprint.Type_ f2
  /\ same_entries (ServiceFingerprint.Selector f1) (ServiceFingerprint.Selector f2)
  /\ ServiceFingerprint.Ports f1 = ServiceFingerprint.Ports f2.

(** The members of an object that are not called [name]. *)
Definition other_keys (name : string) (ms : list (string * json.value)) : Prop :=
  Forall (fun m => fst m <> name) ms.

(** Name and image of a container, and of its fingerprint. *)
Definition name_image (c : Container.t) : string * string :=
  (Container.Name c, Container.Image c).

Definition fingerprint_name_image (c : ContainerFingerprint.t) : string * string :=
  (ContainerFingerprint.Name c, ContainerFingerprint.Image c).

Definition with_Image (image : string) (c : Container.t) : Container.t :=
  Container.mk (Container.Name c) image (Container.Env c) (Container.Ports c)
    (Container.Resources c).





(* ===================================================================== *)
(** * Properties of the fingerprinter *)
(* ===================================================================== *)

(* ===================================================================== *)
(** * The canonical text: lengths *)
(* ===================================================================== *)

Lemma length_app_string (a b : string) :
  String.length (a +:+ b) = (String.length a + String.length b)%nat.
Proof. induction a as [|c a IH]; simpl; [reflexivity|]. rewrite IH. reflexivity. Qed.


Lemma encode_Object (ms : list (string * json.value)) :
  json.encode (json.Object ms) = "{" +:+ json.join "," (map member_text ms) +:+ "}".
Proof.
  simpl. do 3 f_equal. apply map_ext. intros [k x]. reflexivity.
Qed.




(* ===================================================================== *)
(** * Insertion sort *)
(* ===================================================================== *)

Section InsertionSort.
Context {A : Type} (less : A -> A -> bool).

Lemma shift_left_perm (x : A) (rp : list A) :
  Permutation (sort.shift_left less x rp) (x :: rp).
Proof.
  induction rp as [|y rp IH]; simpl; [reflexivity|].
  destruct (less x y); [|reflexivity].
  rewrite IH. apply perm_swap.
Qed.

Lemma insertion_fold_perm (l acc : list A) :
  Permutation (fold_left (fun rp x => sort.shift_left less x rp) l acc) (l ++ acc).
Proof.
  revert acc. induction l as [|x l IH]; intros acc; simpl; [reflexivity|].
  rewrite IH, shift_left_perm. symmetry. apply Permutation_middle.
Qed.

Lemma insertionSort_perm (l : list A) : Permutation (sort.insertionSort less l) l.
Proof.
  unfold sort.insertionSort. rewrite <- Permutation_rev, insertion_fold_perm.
  rewrite app_nil_r. reflexivity.
Qed.
End InsertionSort.

(* ===================================================================== *)
(** * The canonical text of string maps *)
(* ===================================================================== *)







(* ===================================================================== *)
(** * Presence and absence in the canonical text *)
(* ===================================================================== *)

Lemma copyMap_Some (m : gmap string string) : copyMap (Some m) = Some m.
Proof.
  unfold copyMap. f_equal.
  apply (map_fold_weak_ind (fun (r m0 : gmap string string) => r = m0)); [reflexivity|].
  intros k v m0 r _ ->. reflexivity.
Qed.

Lemma copyMap_id (m : gomap) : copyMap m = m.
Proof. destruct m as [m|]; [apply copyMap_Some|reflexivity]. Qed.


Section Presence.
Context `{S : sort.SortSlice}.


End Presence.

Lemma toJSON_PodTemplateFingerprint (L A : gomap) (C : list ContainerFingerprint.t) :
  json.toJSON (PodTemplateFingerprint.mk L A C)
  = json.Object (json.omitempty "labels" (is_zero (len_map L)) L
                 ++ json.omitempty "annotations" (is_zero (len_map A)) A
                 ++ json.field "containers" C).
Proof. reflexivity. Qed.

Lemma toJSON_ServiceFingerprint (T : string) (Sel : gomap) (P : list ServicePortFingerprint.t) :
  json.toJSON (ServiceFingerprint.mk T Sel P)
  = json.Object (json.field "type" T
                 ++ json.omitempty "selector" (is_zero (len_map Sel)) Sel
                 ++ json.field "ports" P).
Proof. reflexivity. Qed.

Lemma toJSON_DeploymentFingerprint (R : option Z) (St : DeploymentStrategy.t)
    (T : PodTemplateFingerprint.t) :
  json.toJSON (DeploymentFingerprint.mk R St T)
  = json.Object (json.omitempty "replicas" (match R with Some _ => false | None => true end) R
                 ++ json.field "strategy" St
                 ++ json.field "template" T).
Proof. reflexivity. Qed.

Section PresenceTheorems.
Context `{S : sort.SortSlice}.




End PresenceTheorems.


(* ===================================================================== *)
(** * The digest and the hash *)
(* ===================================================================== *)

Section Digest.

Lemma length_round (st : list Z) (kw : Z * Z) :
  length (sha256.round st kw) = length st.
Proof.
  unfold sha256.round.
  do 9 (destruct st as [|? st]; [reflexivity|]). reflexivity.
Qed.

Lemma length_rounds (kws : list (Z * Z)) (st : list Z) :
  length (fold_left sha256.round kws st) = length st.
Proof.
  revert st. induction kws as [|kw kws IH]; intros st; [reflexivity|].
  cbn [fold_left]. rewrite IH. apply length_round.
Qed.

Lemma length_compress (h block : list Z) :
  length (sha256.compress h block) = length h.
Proof.
  unfold sha256.compress. cbv zeta.
  rewrite length_map, length_combine, length_rounds. lia.
Qed.

Lemma length_blocks (n : nat) (h bs : list Z) :
  length (sha256.blocks n h bs) = length h.
Proof.
  revert h bs. induction n as [|n IH]; intros h bs; [reflexivity|].
  cbn [sha256.blocks]. destruct bs as [|b bs]; [reflexivity|].
  rewrite IH. apply length_compress.
Qed.

Lemma be_bytes_bytes (n : nat) (x : Z) :
  Forall (fun b => 0 <= b < 256) (sha256.be_bytes n x).
Proof.
  induction n as [|n IH]; [constructor|]. cbn [sha256.be_bytes]. constructor; [|exact IH].
  change 255 with (Z.ones 8). rewrite Z.land_ones by lia. apply Z.mod_pos_bound. lia.
Qed.

Lemma length_be_bytes (n : nat) (x : Z) : length (sha256.be_bytes n x) = n.
Proof. induction n as [|n IH]; [reflexivity|]. cbn [sha256.be_bytes length]. congruence. Qed.

Lemma Sum256_bytes (s : string) :
  length (sha256.Sum256 s) = 32%nat /\ Forall (fun b => 0 <= b < 256) (sha256.Sum256 s).
Proof.
  unfold sha256.Sum256. cbv zeta.
  set (p := sha256.pad (sha256.bytes_of_string s)).
  pose proof (length_blocks (length p) sha256.H0 p) as Hl.
  change (length sha256.H0) with 8%nat in Hl.
  destruct (sha256.blocks (length p) sha256.H0 p) as [|a l]; [discriminate|].
  do 7 (destruct l as [|? l]; [discriminate|]).
  destruct l; [|discriminate]. split.
  - cbn [flat_map]. rewrite !length_app, !length_be_bytes. reflexivity.
  - cbn [flat_map]. rewrite !Forall_app. repeat split; try apply be_bytes_bytes. constructor.
Qed.

Lemma digit_lower_hex (d : Z) : 0 <= d < 16 -> is_lower_hex (hex.digit d) = true.
Proof.
  intros Hd.
  assert (Hc : In d [0; 1; 2; 3; 4; 5; 6; 7; 8; 9; 10; 11; 12; 13; 14; 15]).
  { cbn [In]. lia. }
  cbn [In] in Hc.
  repeat (destruct Hc as [<-|Hc]; [reflexivity|]). contradiction.
Qed.

Lemma EncodeToString_digest (bs : list Z) :
  Forall (fun b => 0 <= b < 256) bs ->
  String.length (hex.EncodeToString bs) = (2 * length bs)%nat
  /\ forallb is_lower_hex (list_ascii_of_string (hex.EncodeToString bs)) = true.
Proof.
  induction 1 as [|b bs Hb _ [IHl IHc]]; [split; reflexivity|].
  cbn [hex.EncodeToString String.length list_ascii_of_string forallb length].
  split; [lia|]. rewrite IHc, !digit_lower_hex; [reflexivity| |].
  - change 15 with (Z.ones 4). rewrite Z.land_ones by lia. apply Z.mod_pos_bound. lia.
  - rewrite Z.shiftr_div_pow2 by lia. change (2 ^ 4) with 16.
    split; [apply Z.div_pos; lia|apply Z.div_lt_upper_bound; lia].
Qed.

End Digest.



Section Hash.
Context {A : Type} `{json.Marshaler A}.

Lemma hashJSON_ok (v : A) :
  json.failure (json.toJSON v) = None ->
  hashJSON v = (hex.EncodeToString (sha256.Sum256 (canonical_bytes v)), None).
Proof. intros E. unfold hashJSON, json.Marshal. rewrite E. reflexivity. Qed.

Lemma hashJSON_failed (v : A) (e : error_value) :
  json.failure (json.toJSON v) = Some e -> hashJSON v = (EmptyString, Some e).
Proof. intros E. unfold hashJSON, json.Marshal. rewrite E. reflexivity. Qed.

Lemma hashJSON_error (v : A) : snd (hashJSON v) = json.failure (json.toJSON v).
Proof.
  destruct (json.failure (json.toJSON v)) as [e|] eqn:E.
  - rewrite (hashJSON_failed v e E). reflexivity.
  - rewrite (hashJSON_ok v E). reflexivity.
Qed.

(** A hash that was computed is a digest in the sense of [is_digest]. *)
Lemma hashJSON_digest (v : A) :
  snd (hashJSON v) = None -> is_digest (fst (hashJSON v)).
Proof.
  rewrite hashJSON_error. intros E. rewrite (hashJSON_ok v E). cbn [fst].
  destruct (Sum256_bytes (canonical_bytes v)) as [Hl Hb].
  destruct (EncodeToString_digest _ Hb) as [Hl' Hc].
  split; [rewrite Hl', Hl; reflexivity|exact Hc].
Qed.

End Hash.


Lemma failure_Object_cons (k : string) (x : json.value) (ms : list (string * json.value)) :
  json.failure (json.Object ((k, x) :: ms))
  = match json.failure x with
    | Some e => Some e
    | None => json.failure (json.Object ms)
    end.
Proof. reflexivity. Qed.


(* ===================================================================== *)
(** * The orders handed to [sort.Slice] *)
(* ===================================================================== *)

Lemma ltb_irrefl (s : string) : String.ltb s s = false.
Proof.
  unfold String.ltb. replace (String.compare s s) with Eq; [reflexivity|].
  symmetry. induction s as [|a s IH]; simpl; [reflexivity|].
  unfold Ascii.compare. rewrite N.compare_refl. exact IH.
Qed.

Lemma ltb_total (s t : string) : String.ltb s t = false -> String.ltb t s = false -> s = t.
Proof.
  unfold String.ltb. rewrite (String.compare_antisym t s).
  destruct (String.compare s t) eqn:E; simpl; try discriminate.
  intros _ _. apply String.compare_eq_iff. exact E.
Qed.

Lemma ltb_asym (s t : string) : String.ltb s t = true -> String.ltb t s = false.
Proof.
  unfold String.ltb. rewrite (String.compare_antisym t s).
  destruct (String.compare s t); simpl; congruence.
Qed.

Lemma ltb_leb (s t : string) : String.ltb s t = true -> String.leb s t = true.
Proof. unfold String.ltb, String.leb. destruct (String.compare s t); congruence. Qed.

Lemma ltb_trans (s t u : string) :
  String.ltb s t = true -> String.ltb t u = true -> String.ltb s u = true.
Proof.
  intros Hst Htu.
  assert (Hle : String.le s u).
  { transitivity t; unfold String.le; apply Is_true_true; apply ltb_leb; assumption. }
  destruct (String.ltb s u) eqn:E; [reflexivity|exfalso].
  destruct (String.ltb u s) eqn:E'.
  - (* u < s <= u *)
    unfold String.le in Hle. apply Is_true_true in Hle.
    unfold String.ltb in E'. unfold String.leb in Hle.
    rewrite (String.compare_antisym s u) in Hle.
    destruct (String.compare u s); simpl in *; congruence.
  - pose proof (ltb_total s u E E') as ->.
    apply ltb_asym in Htu. congruence.
Qed.

Section KeyedByName.
Context {A : Type} (name : A -> string).

Lemma keyed_by_name : sort.keyed (fun a b => String.ltb (name a) (name b)) name.
Proof.
  split.
  - intros x x' y y' -> ->. reflexivity.
  - intros x y ->. apply ltb_irrefl.
  - intros x y. apply ltb_total.
  - intros x y. apply ltb_asym.
  - intros x y z. apply ltb_trans.
Qed.
End KeyedByName.

Section KeyedByPortName.
Context {A : Type} (port : A -> Z) (name : A -> string).

Lemma keyed_by_port_name :
  sort.keyed
    (fun a b => if port a =? port b then String.ltb (name a) (name b) else port a <? port b)
    (fun a => (port a, name a)).
Proof.
  split.
  - intros x x' y y' [= -> ->] [= -> ->]. reflexivity.
  - intros x y [= Hp Hn]. rewrite Hp, Z.eqb_refl, Hn. apply ltb_irrefl.
  - intros x y. rewrite (Z.eqb_sym (port y)).
    destruct (Z.eqb_spec (port x) (port y)) as [Hp|Hp].
    + intros H1 H2. rewrite Hp, (ltb_total _ _ H1 H2). reflexivity.
    + intros H1%Z.ltb_ge H2%Z.ltb_ge. lia.
  - intros x y. rewrite (Z.eqb_sym (port y)).
    destruct (Z.eqb_spec (port x) (port y)) as [Hp|Hp].
    + apply ltb_asym.
    + intros H1%Z.ltb_lt. apply Z.ltb_ge. lia.
  - intros x y z.
    destruct (Z.eqb_spec (port x) (port y)) as [Hxy|Hxy];
      destruct (Z.eqb_spec (port y) (port z)) as [Hyz|Hyz];
      destruct (Z.eqb_spec (port x) (port z)) as [Hxz|Hxz];
      try (intros H1 H2; try apply Z.ltb_lt in H1; try apply Z.ltb_lt in H2;
           try apply Z.ltb_lt; lia).
    apply ltb_trans.
Qed.
End KeyedByPortName.

Lemma container_less_keyed : sort.keyed container_less ContainerFingerprint.Name.
Proof. apply (keyed_by_name ContainerFingerprint.Name). Qed.

Lemma env_less_keyed : sort.keyed env_less EnvVarFingerprint.Name.
Proof. apply (keyed_by_name EnvVarFingerprint.Name). Qed.

Lemma port_less_keyed :
  sort.keyed port_less
    (fun p => (ContainerPortFingerprint.ContainerPort p, ContainerPortFingerprint.Name p)).
Proof.
  apply (keyed_by_port_name ContainerPortFingerprint.ContainerPort ContainerPortFingerprint.Name).
Qed.

Lemma service_port_less_keyed :
  sort.keyed service_port_less
    (fun p => (ServicePortFingerprint.Port p, ServicePortFingerprint.Name p)).
Proof.
  apply (keyed_by_port_name ServicePortFingerprint.Port ServicePortFingerprint.Name).
Qed.

(* ===================================================================== *)
(** * Sorted permutations *)
(* ===================================================================== *)

Section SortedUnique.
Context {A K : Type} (less : A -> A -> bool) (key : A -> K).
Hypothesis Hkeyed : sort.keyed less key.

(** With pairwise distinct keys there is one sorted arrangement. *)
Lemma sorted_unique (l1 l2 : list A) :
  Permutation l1 l2 -> sort.sorted less l1 -> sort.sorted less l2 ->
  NoDup (map key l1) -> l1 = l2.
Proof.
  revert l2. induction l1 as [|x l1 IH]; intros l2 Hp Hs1 Hs2 Hnd.
  - apply Permutation_nil in Hp. congruence.
  - destruct l2 as [|y l2]; [apply Permutation_sym, Permutation_nil in Hp; discriminate|].
    inversion Hs1 as [|? ? Hx1 Hs1']; subst.
    inversion Hs2 as [|? ? Hy2 Hs2']; subst.
    simpl in Hnd. apply NoDup_cons in Hnd as [Hxk Hnd].
    assert (Hxy : x = y).
    { assert (Hxin : x ∈ y :: l2) by (rewrite <- Hp; left).
      assert (Hyin : y ∈ x :: l1) by (rewrite Hp; left).
      apply elem_of_cons in Hxin as [Hxin|Hxin]; [exact Hxin|].
      apply elem_of_cons in Hyin as [Hyin|Hyin]; [congruence|].
      exfalso. apply Hxk.
      rewrite Forall_forall in Hx1, Hy2.
      rewrite (sort.keyed_total less key Hkeyed x y (Hy2 x Hxin) (Hx1 y Hyin)).
      apply list_elem_of_fmap. exists y. split; [reflexivity|exact Hyin]. }
    subst y. f_equal. apply IH; try assumption.
    eapply Permutation_cons_inv. exact Hp.
Qed.
End SortedUnique.

(** [insertionSort] keeps the contract of [sort.Slice]. *)
Section InsertionSorted.
Context {A K : Type} (less : A -> A -> bool) (key : A -> K).
Hypothesis Hkeyed : sort.keyed less key.

(** Not less than, through an element not less than. *)
Lemma not_less_trans (x y z : A) :
  less x y = false -> less y z = false -> less x z = false.
Proof.
  intros Hxy Hyz. destruct (less x z) eqn:Hxz; [exfalso|reflexivity].
  destruct (less y x) eqn:Hyx.
  - rewrite (sort.keyed_trans less key Hkeyed y x z Hyx Hxz) in Hyz. discriminate.
  - pose proof (sort.keyed_total less key Hkeyed x y Hxy Hyx) as Hk.
    rewrite (sort.keyed_key less key Hkeyed x y z z Hk eq_refl) in Hxz. congruence.
Qed.

Lemma shift_left_rsorted (x : A) (rp : list A) :
  sort.rsorted less rp -> sort.rsorted less (sort.shift_left less x rp).
Proof.
  induction 1 as [|y rp Hy Hrp IH]; simpl.
  - constructor; constructor.
  - destruct (less x y) eqn:Hxy.
    + constructor; [|exact IH].
      rewrite (shift_left_perm less x rp). constructor; [|exact Hy].
      exact (sort.keyed_asym less key Hkeyed x y Hxy).
    + constructor; [|constructor; assumption].
      constructor; [exact Hxy|].
      eapply Forall_impl; [exact Hy|]. intros z Hyz. simpl in Hyz.
      exact (not_less_trans x y z Hxy Hyz).
Qed.

Lemma rsorted_rev (rp : list A) : sort.rsorted less rp -> sort.sorted less (rev rp).
Proof.
  induction 1 as [|y rp Hy Hrp IH]; simpl; [constructor|].
  clear Hrp. apply Forall_rev in Hy. revert IH Hy.
  generalize (rev rp). intros l. induction 1 as [|x l Hx Hl IH]; intros Hy.
  - constructor; constructor.
  - simpl. apply Forall_cons in Hy as [Hyx Hy]. constructor.
    + apply Forall_app. split; [exact Hx|]. constructor; [exact Hyx|constructor].
    + apply IH. exact Hy.
Qed.

Lemma insertionSort_sorted (l : list A) : sort.sorted less (sort.insertionSort less l).
Proof.
  unfold sort.insertionSort. apply rsorted_rev.
  assert (Hgen : forall acc, sort.rsorted less acc ->
                   sort.rsorted less (fold_left (fun rp x => sort.shift_left less x rp) l acc)).
  { induction l as [|x l IH]; intros acc Hacc; simpl; [exact Hacc|].
    apply IH. apply shift_left_rsorted. exact Hacc. }
  apply Hgen. constructor.
Qed.
End InsertionSorted.

Lemma insertion_contract : sort.sort_contract sort.insertion.
Proof.
  intros A K less key l Hk. split.
  - apply insertionSort_perm.
  - apply (insertionSort_sorted less key Hk).
Qed.

(* ===================================================================== *)
(** * Indirect environment values *)
(* ===================================================================== *)


Section Indirect.
Context `{S : sort.SortSlice}.



(** ** The length of the text grows with every environment entry *)






Hypothesis Hcontract : sort.sort_contract S.





End Indirect.

(* ===================================================================== *)
(** * Determinism of the fingerprint *)
(* ===================================================================== *)

Section Determinism.
Context `{S : sort.SortSlice}.
Hypothesis Hcontract : sort.sort_contract S.

(** Sorting two arrangements of elements with pairwise distinct keys
    gives one list. *)
Lemma Slice_unique {A K : Type} (less : A -> A -> bool) (key : A -> K) (l1 l2 : list A) :
  sort.keyed less key ->
  Permutation l1 l2 -> NoDup (map key l1) ->
  sort.Slice less l1 = sort.Slice less l2.
Proof.
  intros Hk Hp Hnd.
  destruct (Hcontract A K less key l1 Hk) as [Hp1 Hs1].
  destruct (Hcontract A K less key l2 Hk) as [Hp2 Hs2].
  apply (sorted_unique less key Hk); try assumption.
  - rewrite Hp1, Hp2. exact Hp.
  - rewrite Hp1. exact Hnd.
Qed.

Lemma sortContainer_reordered (c1 c2 : Container.t) :
  container_reordered c1 c2 -> container_distinct_keys c1 ->
  sortContainer (fingerprintContainer c1) = sortContainer (fingerprintContainer c2).
Proof.
  intros (Hn & Hi & Hr & He & Hp) [Hde Hdp].
  unfold sortContainer, fingerprintContainer, ContainerFingerprint.with_Ports,
    ContainerFingerprint.with_Env. simpl.
  rewrite Hn, Hi, Hr. f_equal.
  - apply (Slice_unique env_less EnvVarFingerprint.Name); [apply env_less_keyed| |].
    + unfold fingerprintEnv. apply Permutation_map. exact He.
    + unfold fingerprintEnv. rewrite map_map. exact Hde.
  - apply (Slice_unique port_less
             (fun p => (ContainerPortFingerprint.ContainerPort p,
                        ContainerPortFingerprint.Name p)));
      [apply port_less_keyed| |].
    + unfold fingerprintPorts. apply Permutation_map. exact Hp.
    + unfold fingerprintPorts. rewrite map_map. exact Hdp.
Qed.

Lemma sorted_map_sortContainer (l : list ContainerFingerprint.t) :
  sort.sorted container_less l -> sort.sorted container_less (map sortContainer l).
Proof.
  induction 1 as [|x l Hx Hl IH]; simpl; constructor; [|exact IH].
  apply Forall_map. eapply Forall_impl; [exact Hx|]. intros y Hy. exact Hy.
Qed.

Lemma canonical_containers_reordered (cs1 cs2 : list Container.t) :
  (exists cs, Permutation cs1 cs /\ Forall2 container_reordered cs cs2) ->
  NoDup (map Container.Name cs1) ->
  Forall container_distinct_keys cs1 ->
  map sortContainer (sort.Slice container_less (map fingerprintContainer cs1))
  = map sortContainer (sort.Slice container_less (map fingerprintContainer cs2)).
Proof.
  intros (cs & Hp & Hall) Hnd Hdist.
  set (F := fun c => sortContainer (fingerprintContainer c)).
  assert (HX : forall l, Permutation
                           (map sortContainer
                              (sort.Slice container_less (map fingerprintContainer l)))
                           (map F l)).
  { intros l.
    destruct (Hcontract _ _ container_less ContainerFingerprint.Name
                (map fingerprintContainer l) container_less_keyed) as [Hpl _].
    rewrite Hpl, map_map. reflexivity. }
  assert (HS : forall l, sort.sorted container_less
                           (map sortContainer
                              (sort.Slice container_less (map fingerprintContainer l)))).
  { intros l. apply sorted_map_sortContainer.
    apply (Hcontract _ _ container_less ContainerFingerprint.Name
             (map fingerprintContainer l) container_less_keyed). }
  assert (HF : map F cs = map F cs2).
  { assert (Hd : Forall container_distinct_keys cs) by (rewrite <- Hp; exact Hdist).
    clear Hp. induction Hall as [|c c' cs cs' Hc Hrest IH]; [reflexivity|].
    apply Forall_cons in Hd as [Hdc Hd]. simpl. f_equal.
    - apply sortContainer_reordered; assumption.
    - apply IH. exact Hd. }
  apply (sorted_unique container_less ContainerFingerprint.Name container_less_keyed).
  - rewrite !HX, <- HF. apply Permutation_map. exact Hp.
  - apply HS.
  - apply HS.
  - rewrite (HX cs1). unfold F. rewrite map_map. exact Hnd.
Qed.

(** Two Deployments that differ only in the order of their containers,
    environment variables and ports have one hash, provided the sort keys
    are pairwise distinct in each list. *)
Lemma HashDeployment_reordered (d1 d2 : Deployment.t) :
  deployment_reordered d1 d2 -> deployment_distinct_keys d1 ->
  HashDeployment d1 = HashDeployment d2.
Proof.
  intros (Hr & Hs & Hl & Ha & Hcs) [Hnd Hdist].
  unfold HashDeployment. f_equal.
  unfold DeploymentCanonical, fingerprintPodTemplate. simpl.
  rewrite Hr, Hs, Hl, Ha. do 2 f_equal.
  apply canonical_containers_reordered; assumption.
Qed.

(** The same for the ports of a Service. *)
Lemma HashService_reordered (meta1 meta2 : ObjectMeta.t) (type : string)
    (selector : gomap) (ports1 ports2 : list ServicePort.t) :
  Permutation ports1 ports2 ->
  NoDup (map (fun p => (ServicePort.Port p, ServicePort.Name p)) ports1) ->
  HashService (service_of meta1 type selector ports1)
  = HashService (service_of meta2 type selector ports2).
Proof.
  intros Hp Hnd. unfold HashService. f_equal.
  unfold ServiceCanonical, service_of. simpl. f_equal.
  apply (Slice_unique service_port_less
           (fun p => (ServicePortFingerprint.Port p, ServicePortFingerprint.Name p)));
    [apply service_port_less_keyed| |].
  - apply Permutation_map. exact Hp.
  - rewrite map_map. exact Hnd.
Qed.

End Determinism.

(* ===================================================================== *)
(** * Properties of the reconcilers *)
(* ===================================================================== *)

(* ===================================================================== *)
(** * The reconcilers, run *)
(* ===================================================================== *)

Lemma ann_keys_distinct :
  AnnLastCheckedAt <> AnnLiveHash /\ AnnLastCheckedAt <> AnnDrifted
  /\ AnnLastCheckedAt <> AnnDriftedAt /\ AnnLastCheckedAt <> AnnExpectedHash
  /\ AnnLiveHash <> AnnDrifted /\ AnnLiveHash <> AnnDriftedAt
  /\ AnnLiveHash <> AnnExpectedHash /\ AnnDrifted <> AnnDriftedAt
  /\ AnnDrifted <> AnnExpectedHash /\ AnnDriftedAt <> AnnExpectedHash.
Proof. repeat split; discriminate. Qed.

Section Run.
Context {O : Type} `{Object O}.
Variable Hash : O -> string * error.
Variable kind : string.

Lemma Get_run (key : NamespacedName) (w : World O) :
  Get key w = (fetch w key, logged [CallGet key] w).
Proof.
  unfold Get, bind, record, fetch, logged. simpl.
  destruct (get_fault w); [reflexivity|].
  destruct (objects w !! key); reflexivity.
Qed.

Lemma key_of_SetAnnotations (a : gomap) (o : O) :
  key_of (SetAnnotations a o) = key_of o.
Proof. unfold key_of. rewrite GetObjectMeta_SetAnnotations. reflexivity. Qed.

Lemma GetAnnotations_SetAnnotations (a : gomap) (o : O) :
  GetAnnotations (SetAnnotations a o) = a.
Proof. unfold GetAnnotations. rewrite GetObjectMeta_SetAnnotations. reflexivity. Qed.

Lemma GetLabels_SetAnnotations (a : gomap) (o : O) :
  GetLabels (SetAnnotations a o) = GetLabels o.
Proof. unfold GetLabels. rewrite GetObjectMeta_SetAnnotations. reflexivity. Qed.

(** A merge patch computed against the stored annotations and applied to
    them yields the modified annotations. *)
Lemma apply_merge_diff (a : gomap) (m : gmap string string) :
  m <> ∅ ->
  apply_merge (merge_diff a (Some m)) a = Some m.
Proof.
  intros Hm. unfold apply_merge.
  destruct (decide (merge_diff a (Some m) = ∅)) as [He|Hne].
  - (* an empty diff: the two maps agree *)
    assert (Hall : forall k, default ∅ a !! k = m !! k).
    { intros k. pose proof (f_equal (fun p => p !! k) He) as Hk. simpl in Hk.
      unfold merge_diff in Hk. rewrite lookup_merge, lookup_empty in Hk. simpl in Hk.
      destruct (default ∅ a !! k) eqn:Ea, (m !! k) eqn:Em; simpl in Hk;
        try discriminate; try reflexivity.
      destruct (decide (Some s = Some s0)); congruence. }
    destruct a as [a|]; simpl in Hall.
    + f_equal. apply map_eq. exact Hall.
    + exfalso. apply Hm. apply map_eq. intros k. rewrite <- Hall.
      rewrite !lookup_empty. reflexivity.
  - f_equal. apply map_eq. intros k. rewrite lookup_merge.
    unfold merge_diff. rewrite lookup_merge. simpl.
    destruct (default ∅ a !! k) eqn:Ea, (m !! k) eqn:Em; simpl; try reflexivity.
    destruct (decide (Some s = Some s0)); simpl; congruence.
Qed.

(** A merge patch names only keys whose value changes. *)
Lemma merge_diff_untouched (a : gomap) (m : gmap string string) (k : string) :
  m !! k = default ∅ a !! k -> merge_diff a (Some m) !! k = None.
Proof.
  intros Hk. unfold merge_diff. rewrite lookup_merge. simpl. rewrite Hk.
  destruct (default ∅ a !! k) eqn:Ea; simpl; [|reflexivity].
  destruct (decide (Some s = Some s)); congruence.
Qed.

Lemma patchAnnotations_run (w : World O) (o : O) (kv : gmap string string) :
  patchAnnotations o kv w
  = let p := merge_diff (GetAnnotations o) (Some (kv ∪ default ∅ (GetAnnotations o))) in
    let w1 := logged [CallPatch (key_of o) p] w in
    match patch_fault w with
    | Some e => ((Result_zero, Some e), w1)
    | None =>
        match objects w !! key_of o with
        | None => ((Result_zero, Some ErrNotFound), w1)
        | Some stored =>
            ((Result_zero, None),
             mkWorld (<[ key_of o :=
                          SetAnnotations (apply_merge p (GetAnnotations stored)) stored ]>
                        (objects w))
                     (get_fault w) (patch_fault w) (clock w) (ticks w)
                     (journal w ++ [CallPatch (key_of o) p]))
        end
    end.
Proof.
  unfold patchAnnotations, Patch, bind, record, ret, logged. simpl.
  rewrite key_of_SetAnnotations, GetAnnotations_SetAnnotations.
  replace (match GetAnnotations o with Some a => a | None => ∅ end)
    with (default ∅ (GetAnnotations o)) by (destruct (GetAnnotations o); reflexivity).
  destruct (patch_fault w); [reflexivity|].
  destruct (objects w !! key_of o); reflexivity.
Qed.


Lemma staged_nonempty (o : O) (h now : string) : staged o h now <> ∅.
Proof.
  unfold staged.
  destruct (negb (String.eqb h (expected_of o))).
  - destruct (is_nil (GetAnnotations o)
              || String.eqb (index (GetAnnotations o) AnnDriftedAt) EmptyString);
      apply insert_non_empty.
  - apply insert_non_empty.
Qed.

Lemma fetch_found (w : World O) (key : NamespacedName) (o : O) :
  fetch w key = inl o -> get_fault w = None /\ objects w !! key = Some o.
Proof.
  unfold fetch. destruct (get_fault w); [discriminate|].
  destruct (objects w !! key); [|discriminate].
  intros [= ->]. split; reflexivity.
Qed.

(** The patch of a reconciliation, run in the world [w'] reached after the
    calls [cs] and one clock reading. *)
Lemma patchAnnotations_finish (w : World O) (o : O) (kv : gmap string string)
    (cs : list Call) :
  objects w !! key_of o = Some o ->
  kv <> ∅ ->
  patchAnnotations o kv (attempted w cs) = finish w o kv cs.
Proof.
  intros Hst Hkv. rewrite patchAnnotations_run. unfold finish, attempted, committed, logged.
  simpl. rewrite <- !app_assoc. destruct (patch_fault w); [reflexivity|].
  rewrite Hst, apply_merge_diff.
  - reflexivity.
  - intros Hu. apply Hkv. apply map_eq. intros k. rewrite lookup_empty.
    pose proof (f_equal (fun m => m !! k) Hu) as Hk. simpl in Hk.
    rewrite lookup_empty in Hk. apply lookup_union_None in Hk. tauto.
Qed.

(** [Reconcile] computes [outcome]. *)
Lemma Reconcile_outcome (req : Request) (w : World O) :
  store_wf w ->
  Reconcile Hash kind req w = outcome Hash kind req w.
Proof.
  intros Hwf. unfold Reconcile, outcome.
  unfold bind at 1. rewrite Get_run.
  destruct (fetch w (Request_NamespacedName req)) as [o|e] eqn:Hf.
  2:{ destruct (IsNotFound e); reflexivity. }
  destruct (fetch_found _ _ _ Hf) as [_ Hst].
  pose proof (Hwf _ _ Hst) as Hkey.
  assert (Hst' : objects w !! key_of o = Some o) by (rewrite Hkey; exact Hst).
  unfold opted_in. rewrite negb_involutive.
  destruct (is_nil (GetLabels o)
            || negb (String.eqb (index (GetLabels o) LabelEnabled) "true")); [reflexivity|].
  fold (expected_of o).
  destruct (String.eqb (expected_of o) EmptyString) eqn:Hexp.
  - unfold bind, time_Now, record. simpl. rewrite <- !app_assoc. simpl.
    apply (patchAnnotations_finish w o _ [CallGet (Request_NamespacedName req); CallNow]).
    + exact Hst'.
    + apply insert_non_empty.
  - unfold bind at 1. unfold call_Hash, bind, record, ret. simpl.
    destruct (Hash o) as [h [e|]];
      [unfold logged; rewrite <- app_assoc; reflexivity|].
    unfold time_Now, Eventf, log_Info, record. simpl.
    unfold staged.
    destruct (negb (String.eqb h (expected_of o))) eqn:Hd; simpl.
    + rewrite <- !app_assoc. simpl.
      pose proof (patchAnnotations_finish w o (staged o h (clock w (ticks w)))
               [CallGet (Request_NamespacedName req); CallHash (key_of o); CallNow;
                CallEventf (drift_event kind (key_of o) (expected_of o) h);
                CallLogInfo "drift detected" [("expected", expected_of o); ("live", h)]]
               Hst' (staged_nonempty _ _ _)) as Hp.
      unfold staged in Hp. rewrite Hd in Hp. exact Hp.
    + rewrite <- !app_assoc. simpl.
      pose proof (patchAnnotations_finish w o (staged o h (clock w (ticks w)))
               [CallGet (Request_NamespacedName req); CallHash (key_of o); CallNow]
               Hst' (staged_nonempty _ _ _)) as Hp.
      unfold staged in Hp. rewrite Hd in Hp. exact Hp.
Qed.

End Run.

(* ===================================================================== *)
(** * Error handling and short circuits *)
(* ===================================================================== *)

Lemma calls_since_logged {O : Type} (cs : list Call) (w : World O) :
  calls_since w (logged cs w) = cs.
Proof. unfold calls_since, logged. simpl. apply drop_app_length. Qed.

Lemma annotation_logged {O : Type} `{Object O} (cs : list Call) (w : World O) key k :
  annotation (logged cs w) key k = annotation w key k.
Proof. reflexivity. Qed.

Section ShortCircuits.
Context {O : Type} `{Object O}.
Variable Hash : O -> string * error.
Variable kind : string.

(** A fetch that fails ends the reconciliation after the one read. *)
Lemma Reconcile_fetch_failed (req : Request) (w : World O) (e : error_value) :
  fetch w (Request_NamespacedName req) = inr e ->
  Reconcile Hash kind req w
  = ((Result_zero, if IsNotFound e then None else Some e),
     logged [CallGet (Request_NamespacedName req)] w).
Proof.
  intros Hf. unfold Reconcile. unfold bind at 1. rewrite Get_run, Hf.
  destruct (IsNotFound e); reflexivity.
Qed.

Lemma not_opted_in (o : O) :
  (forall m, GetLabels o = Some m -> m !! LabelEnabled <> Some "true") ->
  opted_in o = false.
Proof.
  intros Hl. unfold opted_in. destruct (GetLabels o) as [m|] eqn:El; [|reflexivity].
  simpl. rewrite negb_involutive. specialize (Hl m eq_refl).
  destruct (m !! LabelEnabled) as [v|] eqn:Ev; simpl.
  - destruct (String.eqb_spec v "true"); [congruence|reflexivity].
  - reflexivity.
Qed.

Lemma opted_in_true (o : O) (m : gmap string string) :
  GetLabels o = Some m -> m !! LabelEnabled = Some "true" -> opted_in o = true.
Proof. intros El Ev. unfold opted_in. rewrite El. simpl. rewrite Ev. reflexivity. Qed.

Lemma Reconcile_not_opted_in (req : Request) (w : World O) (o : O) :
  fetch w (Request_NamespacedName req) = inl o ->
  opted_in o = false ->
  Reconcile Hash kind req w
  = ((Result_zero, None), logged [CallGet (Request_NamespacedName req)] w).
Proof.
  intros Hf Ho. unfold Reconcile. unfold bind at 1. rewrite Get_run, Hf.
  unfold opted_in in Ho. apply negb_false_iff in Ho. rewrite Ho. reflexivity.
Qed.

End ShortCircuits.

(** C9. A fetch that reports not-found makes the reconciler (Deployment or
    Service: both are [Reconcile]) return the zero result with a nil error;
    the store and the clock are as before and the only call made is the
    read: no hash, no patch, no event. *)
Theorem not_found_is_success_and_noop {O : Type} `{Object O}
    (Hash : O -> string * error) (kind : string) (req : Request) (w : World O)
    (e : error_value) :
  fetch w (Request_NamespacedName req) = inr e ->
  IsNotFound e = true ->
  let r := Reconcile Hash kind req w in
  fst r = (Result_zero, None)
  /\ objects (snd r) = objects w
  /\ ticks (snd r) = ticks w
  /\ calls_since w (snd r) = [CallGet (Request_NamespacedName req)]
  /\ hash_calls (calls_since w (snd r)) = []
  /\ writes (calls_since w (snd r)) = []
  /\ warnings (calls_since w (snd r)) = [].
Proof.
  intros Hf He r. subst r. rewrite (Reconcile_fetch_failed Hash kind req w e Hf), He.
  simpl. rewrite calls_since_logged. repeat split; reflexivity.
Qed.

(** C6. A fetched resource whose labels are nil, lack the opt-in label or
    carry any value other than "true" is left alone, whatever its
    annotations: zero result, nil error, same store, and the read is the
    only call made, so nothing is hashed, patched or notified. *)
Theorem opt_out_short_circuit {O : Type} `{Object O}
    (Hash : O -> string * error) (kind : string) (req : Request) (w : World O) (o : O) :
  fetch w (Request_NamespacedName req) = inl o ->
  (forall m, GetLabels o = Some m -> m !! LabelEnabled <> Some "true") ->
  let r := Reconcile Hash kind req w in
  fst r = (Result_zero, None)
  /\ objects (snd r) = objects w
  /\ calls_since w (snd r) = [CallGet (Request_NamespacedName req)]
  /\ hash_calls (calls_since w (snd r)) = []
  /\ writes (calls_since w (snd r)) = []
  /\ warnings (calls_since w (snd r)) = [].
Proof.
  intros Hf Hl r. subst r.
  rewrite (Reconcile_not_opted_in Hash kind req w o Hf (not_opted_in o Hl)).
  simpl. rewrite calls_since_logged. repeat split; reflexivity.
Qed.

(* ===================================================================== *)
(** * The no-baseline path *)
(* ===================================================================== *)

Section Stored.
Context {O : Type} `{Object O}.

Lemma annotation_stored (w : World O) (key : NamespacedName) (o : O) (k : string) :
  objects w !! key = Some o ->
  annotation w key k = default ∅ (GetAnnotations o) !! k.
Proof.
  intros Hst. unfold annotation. rewrite Hst.
  destruct (GetAnnotations o); [reflexivity|]. simpl. rewrite lookup_empty. reflexivity.
Qed.

Lemma annotation_committed (w : World O) (o : O) (kv : gmap string string)
    (cs : list Call) (k : string) :
  annotation (committed w o kv cs) (key_of o) k
  = (kv ∪ default ∅ (GetAnnotations o)) !! k.
Proof.
  unfold annotation, committed. simpl. rewrite lookup_insert_eq.
  rewrite GetAnnotations_SetAnnotations. reflexivity.
Qed.

Lemma annotation_attempted (w : World O) (cs : list Call) key (k : string) :
  annotation (attempted w cs) key k = annotation w key k.
Proof. reflexivity. Qed.

Lemma calls_since_committed (w : World O) (o : O) kv (cs : list Call) :
  calls_since w (committed w o kv cs) = cs.
Proof. unfold calls_since, committed. simpl. apply drop_app_length. Qed.

Lemma calls_since_attempted (w : World O) (cs : list Call) :
  calls_since w (attempted w cs) = cs.
Proof. unfold calls_since, attempted. simpl. apply drop_app_length. Qed.

(** The calls of a reconciliation that reaches its patch. *)
Lemma calls_since_finish (w : World O) (o : O) kv (cs : list Call) :
  calls_since w (snd (finish w o kv cs))
  = cs ++ [CallPatch (key_of o)
             (merge_diff (GetAnnotations o) (Some (kv ∪ default ∅ (GetAnnotations o))))].
Proof.
  unfold finish. destruct (patch_fault w); simpl.
  - apply calls_since_attempted.
  - apply calls_since_committed.
Qed.

(** A reconciliation that reaches its patch changes no annotation outside
    the staged keys, and no other resource. *)
Lemma finish_frame (w : World O) (o : O) kv (cs : list Call) (k : string) :
  objects w !! key_of o = Some o ->
  kv !! k = None ->
  annotation (snd (finish w o kv cs)) (key_of o) k = annotation w (key_of o) k.
Proof.
  intros Hst Hk. unfold finish. destruct (patch_fault w); simpl.
  - reflexivity.
  - rewrite annotation_committed, (annotation_stored w _ o k Hst).
    rewrite lookup_union_r by exact Hk. reflexivity.
Qed.

Lemma finish_others (w : World O) (o : O) kv (cs : list Call) (key' : NamespacedName) :
  key' <> key_of o ->
  objects (snd (finish w o kv cs)) !! key' = objects w !! key'.
Proof.
  intros Hne. unfold finish. destruct (patch_fault w); simpl; [reflexivity|].
  rewrite lookup_insert_ne by congruence. reflexivity.
Qed.

Lemma finish_written (w : World O) (o : O) kv (cs : list Call) (k v : string) :
  patch_fault w = None ->
  kv !! k = Some v ->
  fst (finish w o kv cs) = (Result_zero, None)
  /\ annotation (snd (finish w o kv cs)) (key_of o) k = Some v.
Proof.
  intros Hpf Hk. unfold finish. rewrite Hpf. simpl. split; [reflexivity|].
  rewrite annotation_committed. apply lookup_union_Some_l. exact Hk.
Qed.

End Stored.

Section NoBaseline.
Context {O : Type} `{Object O}.
Variable Hash : O -> string * error.
Variable kind : string.

Lemma no_baseline_path (req : Request) (w : World O) (o : O) :
  store_wf w ->
  fetch w (Request_NamespacedName req) = inl o ->
  opted_in o = true ->
  expected_of o = EmptyString ->
  only_last_checked_written req w (Reconcile Hash kind req w).
Proof.
  intros Hwf Hf Hopt Hexp.
  rewrite (Reconcile_outcome Hash kind req w Hwf). unfold outcome.
  rewrite Hf, Hopt, Hexp. simpl.
  destruct (fetch_found _ _ _ Hf) as [_ Hst].
  pose proof (Hwf _ _ Hst) as Hkey.
  destruct req as [key]. simpl in *. subst key.
  set (now := clock w (ticks w)).
  unfold only_last_checked_written. simpl.
  rewrite calls_since_finish. simpl.
  repeat split.
  - eexists. split; [reflexivity|]. intros k Hk.
    apply merge_diff_untouched. rewrite lookup_union_r; [reflexivity|].
    apply lookup_singleton_ne. congruence.
  - intros k Hk. apply finish_frame.
    + exact Hst.
    + apply lookup_singleton_ne. congruence.
  - intros key' Hne. apply finish_others. congruence.
  - apply (finish_written w o _ _ AnnLastCheckedAt now); [assumption|].
    apply lookup_singleton_eq.
  - apply (finish_written w o _ _ AnnLastCheckedAt now); [assumption|].
    apply lookup_singleton_eq.
Qed.

Lemma expected_absent (o : O) :
  (forall a, GetAnnotations o = Some a -> a !! AnnExpectedHash = None) ->
  expected_of o = EmptyString.
Proof.
  intros Ha. unfold expected_of. destruct (GetAnnotations o) as [a|]; [|reflexivity].
  simpl. rewrite (Ha a eq_refl). reflexivity.
Qed.

Lemma expected_empty (o : O) (a : gmap string string) :
  GetAnnotations o = Some a -> a !! AnnExpectedHash = Some EmptyString ->
  expected_of o = EmptyString.
Proof. intros Ea Hv. unfold expected_of. rewrite Ea. simpl. rewrite Hv. reflexivity. Qed.

End NoBaseline.

(** C7. An opted-in resource without an expected-hash annotation (nil
    annotations, or no such key): the reconciler reads the clock and patches;
    the patch names no key but last-checked-at, so drifted, live-hash,
    drifted-at and every other annotation are as before; no hash is computed
    and no event is emitted. When the patch goes through, the result is
    success and last-checked-at holds the clock reading. *)
Theorem no_baseline_writes_only_last_checked {O : Type} `{Object O}
    (Hash : O -> string * error) (kind : string) (req : Request) (w : World O)
    (o : O) (labels : gmap string string) :
  store_wf w ->
  fetch w (Request_NamespacedName req) = inl o ->
  GetLabels o = Some labels -> labels !! LabelEnabled = Some "true" ->
  (forall a, GetAnnotations o = Some a -> a !! AnnExpectedHash = None) ->
  only_last_checked_written req w (Reconcile Hash kind req w).
Proof.
  intros Hwf Hf El Ev Ha.
  apply (no_baseline_path Hash kind req w o Hwf Hf).
  - exact (opted_in_true o labels El Ev).
  - exact (expected_absent o Ha).
Qed.

(** C10. An expected-hash annotation that is present and empty takes the
    same path as an absent one: the very relation of the no-baseline path
    holds (only last-checked-at written, no hash computed, no event, hence no
    drift verdict). *)
Theorem empty_baseline_is_no_baseline {O : Type} `{Object O}
    (Hash : O -> string * error) (kind : string) (req : Request) (w : World O)
    (o : O) (labels annotations : gmap string string) :
  store_wf w ->
  fetch w (Request_NamespacedName req) = inl o ->
  GetLabels o = Some labels -> labels !! LabelEnabled = Some "true" ->
  GetAnnotations o = Some annotations ->
  annotations !! AnnExpectedHash = Some EmptyString ->
  only_last_checked_written req w (Reconcile Hash kind req w).
Proof.
  intros Hwf Hf El Ev Ea Hv.
  apply (no_baseline_path Hash kind req w o Hwf Hf).
  - exact (opted_in_true o labels El Ev).
  - exact (expected_empty o annotations Ea Hv).
Qed.

(* ===================================================================== *)
(** * What a reconciliation leaves behind *)
(* ===================================================================== *)

Section After.
Context {O : Type} `{Object O}.
Variable Hash : O -> string * error.
Variable kind : string.

Lemma warnings_app (a b : list Call) : warnings (a ++ b) = warnings a ++ warnings b.
Proof. unfold warnings. apply omap_app. Qed.

(** The warnings of a reconciliation are [notifications]. *)
Lemma outcome_warnings (req : Request) (w : World O) :
  warnings (calls_since w (snd (outcome Hash kind req w))) = notifications Hash kind req w.
Proof.
  unfold outcome, notifications.
  destruct (fetch w (Request_NamespacedName req)) as [o|e].
  2:{ simpl. rewrite calls_since_logged. reflexivity. }
  destruct (negb (opted_in o)).
  { simpl. rewrite calls_since_logged. reflexivity. }
  destruct (String.eqb (expected_of o) EmptyString).
  { rewrite calls_since_finish. reflexivity. }
  destruct (Hash o) as [h [e|]].
  { simpl. rewrite calls_since_logged. reflexivity. }
  rewrite calls_since_finish.
  destruct (negb (String.eqb h (expected_of o))); reflexivity.
Qed.

(** The store a reconciliation leaves is the one it found, or has the
    staged annotations merged into the fetched object. *)
Lemma outcome_objects (req : Request) (w : World O) :
  objects (snd (outcome Hash kind req w))
  = match staging Hash req w, patch_fault w with
    | Some (o, kv), None =>
        <[ key_of o := SetAnnotations (Some (kv ∪ default ∅ (GetAnnotations o))) o ]>
          (objects w)
    | _, _ => objects w
    end.
Proof.
  unfold outcome, staging.
  destruct (fetch w (Request_NamespacedName req)) as [o|e]; [|reflexivity].
  destruct (negb (opted_in o)); [reflexivity|].
  destruct (String.eqb (expected_of o) EmptyString).
  { unfold finish. destruct (patch_fault w); reflexivity. }
  destruct (Hash o) as [h [e|]]; [reflexivity|].
  unfold finish. destruct (patch_fault w); reflexivity.
Qed.

Lemma outcome_rest (req : Request) (w : World O) :
  let w' := snd (outcome Hash kind req w) in
  get_fault w' = get_fault w /\ patch_fault w' = patch_fault w /\ clock w' = clock w
  /\ ticks w' = match staging Hash req w with
                | Some _ => S (ticks w)
                | None => ticks w
                end.
Proof.
  unfold outcome, staging.
  destruct (fetch w (Request_NamespacedName req)) as [o|e]; [|repeat split].
  destruct (negb (opted_in o)); [repeat split|].
  destruct (String.eqb (expected_of o) EmptyString).
  { unfold finish. destruct (patch_fault w) eqn:E; simpl; rewrite ?E; repeat split. }
  destruct (Hash o) as [h [e|]]; [repeat split|].
  unfold finish. destruct (patch_fault w) eqn:E; simpl; rewrite ?E; repeat split.
Qed.

Lemma outcome_result (req : Request) (w : World O) :
  fst (outcome Hash kind req w)
  = (Result_zero,
     match fetch w (Request_NamespacedName req) with
     | inr e => if IsNotFound e then None else Some e
     | inl o =>
         if negb (opted_in o) then None
         else if String.eqb (expected_of o) EmptyString then patch_fault w
              else match Hash o with
                   | (_, Some e) => Some e
                   | (_, None) => patch_fault w
                   end
     end).
Proof.
  unfold outcome.
  destruct (fetch w (Request_NamespacedName req)) as [o|e]; [|reflexivity].
  destruct (negb (opted_in o)); [reflexivity|].
  destruct (String.eqb (expected_of o) EmptyString).
  { unfold finish. destruct (patch_fault w); reflexivity. }
  destruct (Hash o) as [h [e|]]; [reflexivity|].
  unfold finish. destruct (patch_fault w); reflexivity.
Qed.

Lemma staging_fetched (req : Request) (w : World O) (o : O) kv :
  staging Hash req w = Some (o, kv) ->
  fetch w (Request_NamespacedName req) = inl o.
Proof.
  unfold staging. destruct (fetch w (Request_NamespacedName req)) as [o'|e]; [|discriminate].
  destruct (negb (opted_in o')); [discriminate|].
  destruct (String.eqb (expected_of o') EmptyString); [congruence|].
  destruct (Hash o') as [h [e|]]; congruence.
Qed.

(** Reconciling keeps every object under its own name. *)
Lemma outcome_wf (req : Request) (w : World O) :
  store_wf w -> store_wf (snd (outcome Hash kind req w)).
Proof.
  intros Hwf k o'. rewrite outcome_objects.
  destruct (staging Hash req w) as [[o kv]|]; [|apply Hwf].
  destruct (patch_fault w); [apply Hwf|].
  destruct (decide (k = key_of o)) as [->|Hne].
  - rewrite lookup_insert_eq. intros [= <-]. apply key_of_SetAnnotations.
  - rewrite lookup_insert_ne by congruence. apply Hwf.
Qed.

End After.

(* ===================================================================== *)
(** * The first-detection timestamp *)
(* ===================================================================== *)

Section DriftedAt.
Context {O : Type} `{Object O}.
Variable Hash : O -> string * error.
Variable kind : string.

Lemma index_Some (a : gmap string string) (k v : string) :
  a !! k = Some v -> index (Some a) k = v.
Proof. intros Hk. simpl. rewrite Hk. reflexivity. Qed.

(** Nothing is staged for drifted-at when a non-empty value is recorded. *)
Lemma staged_keeps_drifted_at (o : O) (h now v : string) :
  default ∅ (GetAnnotations o) !! AnnDriftedAt = Some v -> v <> EmptyString ->
  staged o h now !! AnnDriftedAt = None.
Proof.
  intros Hv Hne. unfold staged.
  destruct (GetAnnotations o) as [a|] eqn:Ea; simpl in Hv.
  2:{ rewrite lookup_empty in Hv. discriminate. }
  simpl. rewrite Hv. simpl.
  destruct (String.eqb_spec v EmptyString) as [->|_]; [congruence|].
  destruct (negb (String.eqb h (expected_of o))); owned_keys; reflexivity.
Qed.

Lemma staging_keeps_drifted_at (req : Request) (w : World O) (o : O) kv (v : string) :
  staging Hash req w = Some (o, kv) ->
  default ∅ (GetAnnotations o) !! AnnDriftedAt = Some v -> v <> EmptyString ->
  kv !! AnnDriftedAt = None.
Proof.
  unfold staging. destruct (fetch w (Request_NamespacedName req)) as [o'|e]; [|discriminate].
  destruct (negb (opted_in o')); [discriminate|].
  destruct (String.eqb (expected_of o') EmptyString).
  - intros [= <- <-] _ _. owned_keys. reflexivity.
  - destruct (Hash o') as [h [e|]]; [discriminate|].
    intros [= <- <-]. apply staged_keeps_drifted_at.
Qed.

(** One reconciliation, of any resource, keeps a recorded drifted-at. *)
Lemma reconcile_keeps_drifted_at (req : Request) (w : World O)
    (key : NamespacedName) (v : string) :
  store_wf w ->
  annotation w key AnnDriftedAt = Some v -> v <> EmptyString ->
  annotation (snd (Reconcile Hash kind req w)) key AnnDriftedAt = Some v.
Proof.
  intros Hwf Hv Hne. rewrite (Reconcile_outcome Hash kind req w Hwf).
  unfold annotation at 1. rewrite outcome_objects.
  destruct (staging Hash req w) as [[o kv]|] eqn:Est; [|exact Hv].
  destruct (patch_fault w); [exact Hv|].
  destruct (decide (key = key_of o)) as [->|Hk].
  - rewrite lookup_insert_eq, GetAnnotations_SetAnnotations.
    pose proof (staging_fetched Hash req w o kv Est) as Hf.
    destruct (fetch_found _ _ _ Hf) as [_ Hst].
    rewrite <- (Hwf _ _ Hst) in Hst.
    rewrite (annotation_stored w _ o _ Hst) in Hv.
    rewrite lookup_union_r; [exact Hv|].
    exact (staging_keeps_drifted_at req w o kv v Est Hv Hne).
  - rewrite lookup_insert_ne by congruence. exact Hv.
Qed.

Lemma edit_wf (key : NamespacedName) (f : O -> O) (w : World O) :
  (forall o, key_of (f o) = key_of o) -> store_wf w -> store_wf (edit key f w).
Proof.
  intros Hf Hwf k o. unfold edit. simpl. rewrite lookup_alter.
  destruct (decide (key = k)) as [->|Hne]; [|apply Hwf].
  destruct (objects w !! k) as [o'|] eqn:Eo; simpl; [|discriminate].
  intros [= <-]. rewrite Hf. apply Hwf. exact Eo.
Qed.

Lemma step_wf (w w' : World O) :
  step Hash kind w w' -> store_wf w -> store_wf w'.
Proof.
  intros [req w0|key f w0 Hkey Hann] Hwf.
  - rewrite (Reconcile_outcome Hash kind req w0 Hwf). apply outcome_wf. exact Hwf.
  - apply edit_wf; assumption.
Qed.

Lemma step_keeps_drifted_at (w w' : World O) (key : NamespacedName) (v : string) :
  step Hash kind w w' -> store_wf w ->
  annotation w key AnnDriftedAt = Some v -> v <> EmptyString ->
  annotation w' key AnnDriftedAt = Some v.
Proof.
  intros [req w0|key' f w0 Hkey Hann] Hwf Hv Hne.
  - apply reconcile_keeps_drifted_at; assumption.
  - unfold annotation, edit in *. simpl. rewrite lookup_alter.
    destruct (decide (key' = key)) as [->|Hk]; [|exact Hv].
    destruct (objects w0 !! key) as [o|]; simpl in *; [|discriminate].
    specialize (Hann o).
    destruct (GetAnnotations o) as [a|]; [|discriminate]. simpl in Hann.
    rewrite Hv in Hann.
    destruct (GetAnnotations (f o)) as [a'|]; simpl in Hann; [exact Hann|].
    rewrite lookup_empty in Hann. discriminate.
Qed.

End DriftedAt.

(** C2, as the code has it. Once drifted-at holds a non-empty value it is
    never changed by the reconcilers: along every sequence of
    reconciliations (of this or of any other resource) and of external edits
    that leave the annotation alone, drifted-at keeps that value. This covers
    reconciliations while drift persists, the reconciliation that observes
    the drift resolved (drifted=false is written, drifted-at stays), and the
    detection of a later drift, which does not stamp a new time. *)
Theorem drifted_at_never_overwritten {O : Type} `{Object O}
    (Hash : O -> string * error) (kind : string) (w w' : World O)
    (key : NamespacedName) (v : string) :
  store_wf w ->
  annotation w key AnnDriftedAt = Some v ->
  v <> EmptyString ->
  rtc (step Hash kind) w w' ->
  annotation w' key AnnDriftedAt = Some v.
Proof.
  intros Hwf Hv Hne Hsteps. induction Hsteps as [w|w w1 w2 Hs _ IH]; [exact Hv|].
  apply IH.
  - exact (step_wf Hash kind w w1 Hs Hwf).
  - exact (step_keeps_drifted_at Hash kind w w1 key v Hs Hwf Hv Hne).
Qed.

(* ===================================================================== *)
(** * Reconciling twice *)
(* ===================================================================== *)

Section Twice.
Context {O : Type} `{Object O}.
Variable Hash : O -> string * error.
Variable kind : string.
Hypothesis Hash_reads_spec : forall a o, Hash (SetAnnotations a o) = Hash o.

Lemma opted_in_SetAnnotations (a : gomap) (o : O) :
  opted_in (SetAnnotations a o) = opted_in o.
Proof. unfold opted_in. rewrite GetLabels_SetAnnotations. reflexivity. Qed.

(** Merging keys other than the baseline key leaves the baseline as read. *)
Lemma expected_of_merged (o : O) (kv : gmap string string) :
  kv !! AnnExpectedHash = None ->
  expected_of (SetAnnotations (Some (kv ∪ default ∅ (GetAnnotations o))) o)
  = expected_of o.
Proof.
  intros Hk. unfold expected_of. rewrite GetAnnotations_SetAnnotations. simpl.
  rewrite lookup_union_r by exact Hk.
  destruct (GetAnnotations o) as [a|]; simpl; [reflexivity|].
  rewrite lookup_empty. reflexivity.
Qed.

Lemma staged_no_baseline_key (o : O) (h now : string) :
  staged o h now !! AnnExpectedHash = None.
Proof.
  unfold staged. destruct (negb (String.eqb h (expected_of o))).
  - destruct (is_nil (GetAnnotations o)
              || String.eqb (index (GetAnnotations o) AnnDriftedAt) EmptyString);
      owned_keys; reflexivity.
  - owned_keys. reflexivity.
Qed.

Lemma staged_last_checked (o : O) (h now : string) :
  staged o h now !! AnnLastCheckedAt = Some now.
Proof.
  unfold staged. destruct (negb (String.eqb h (expected_of o))).
  - destruct (is_nil (GetAnnotations o)
              || String.eqb (index (GetAnnotations o) AnnDriftedAt) EmptyString);
      owned_keys; reflexivity.
  - owned_keys. reflexivity.
Qed.

(** Staging onto what the previous reconciliation staged only moves
    last-checked-at. *)
Lemma staged_again (o : O) (h now1 now2 : string) :
  now1 <> EmptyString ->
  let merged := staged o h now1 ∪ default ∅ (GetAnnotations o) in
  let o1 := SetAnnotations (Some merged) o in
  staged o1 h now2 ∪ merged = <[ AnnLastCheckedAt := now2 ]> merged.
Proof.
  intros Hnow merged o1.
  assert (Hexp : expected_of o1 = expected_of o).
  { apply expected_of_merged. apply staged_no_baseline_key. }
  assert (Hann : GetAnnotations o1 = Some merged).
  { apply GetAnnotations_SetAnnotations. }
  unfold staged at 1. rewrite Hexp, Hann. simpl.
  subst merged. unfold staged.
  destruct (negb (String.eqb h (expected_of o))) eqn:Hd.
  - (* drifted: drifted-at is recorded after the first reconciliation *)
    destruct (is_nil (GetAnnotations o)
              || String.eqb (index (GetAnnotations o) AnnDriftedAt) EmptyString) eqn:Hs.
    + rewrite (lookup_union_Some_l _ _ AnnDriftedAt now1) by (owned_keys; reflexivity).
      simpl. destruct (String.eqb_spec now1 EmptyString) as [|_]; [congruence|].
      apply map_eq. intros k.
      destruct (decide (k = AnnLastCheckedAt)) as [->|?];
        [rewrite lookup_insert_eq; apply lookup_union_Some_l; owned_keys; reflexivity|].
      rewrite lookup_insert_ne by congruence.
      destruct (decide (k = AnnDrifted)) as [->|?];
        [rewrite !(lookup_union_Some_l _ _ AnnDrifted "true") by (owned_keys; reflexivity);
         reflexivity|].
      destruct (decide (k = AnnLiveHash)) as [->|?];
        [rewrite !(lookup_union_Some_l _ _ AnnLiveHash h) by (owned_keys; reflexivity);
         reflexivity|].
      rewrite lookup_union_r; [reflexivity|].
      rewrite !lookup_insert_ne by congruence. apply lookup_singleton_ne. congruence.
    + apply orb_false_iff in Hs as [Hnil Hidx].
      destruct (GetAnnotations o) as [a|]; [|discriminate]. simpl in *.
      rewrite lookup_union_r by (owned_keys; reflexivity).
      rewrite Hidx.
      apply map_eq. intros k.
      destruct (decide (k = AnnLastCheckedAt)) as [->|?];
        [rewrite lookup_insert_eq; apply lookup_union_Some_l; owned_keys; reflexivity|].
      rewrite lookup_insert_ne by congruence.
      destruct (decide (k = AnnDrifted)) as [->|?];
        [rewrite !(lookup_union_Some_l _ _ AnnDrifted "true") by (owned_keys; reflexivity);
         reflexivity|].
      destruct (decide (k = AnnLiveHash)) as [->|?];
        [rewrite !(lookup_union_Some_l _ _ AnnLiveHash h) by (owned_keys; reflexivity);
         reflexivity|].
      rewrite lookup_union_r; [reflexivity|].
      rewrite !lookup_insert_ne by congruence. apply lookup_singleton_ne. congruence.
  - apply map_eq. intros k.
    destruct (decide (k = AnnLastCheckedAt)) as [->|?];
      [rewrite lookup_insert_eq; apply lookup_union_Some_l; owned_keys; reflexivity|].
    rewrite lookup_insert_ne by congruence.
    destruct (decide (k = AnnDrifted)) as [->|?];
      [rewrite !(lookup_union_Some_l _ _ AnnDrifted "false") by (owned_keys; reflexivity);
       reflexivity|].
    destruct (decide (k = AnnLiveHash)) as [->|?];
      [rewrite !(lookup_union_Some_l _ _ AnnLiveHash h) by (owned_keys; reflexivity);
       reflexivity|].
    rewrite lookup_union_r; [reflexivity|].
    rewrite !lookup_insert_ne by congruence. apply lookup_singleton_ne. congruence.
Qed.


Lemma fetch_same_store (w w1 : World O) (key : NamespacedName) :
  objects w1 = objects w -> get_fault w1 = get_fault w -> fetch w1 key = fetch w key.
Proof. intros Ho Hg. unfold fetch. rewrite Ho, Hg. reflexivity. Qed.

(** The second of two reconciliations in a row, in terms of the first. *)
Lemma second_reconciliation (req : Request) (w : World O) :
  store_wf w ->
  (forall n, clock w n <> EmptyString) ->
  let w1 := snd (outcome Hash kind req w) in
  let w2 := snd (outcome Hash kind req w1) in
  notifications Hash kind req w1 = notifications Hash kind req w
  /\ fst (outcome Hash kind req w1) = fst (outcome Hash kind req w)
  /\ match staging Hash req w, patch_fault w with
     | Some (o, kv), None =>
         let merged := kv ∪ default ∅ (GetAnnotations o) in
         objects w1 = <[ key_of o := SetAnnotations (Some merged) o ]> (objects w)
         /\ objects w2
            = <[ key_of o :=
                   SetAnnotations (Some (<[ AnnLastCheckedAt := clock w (S (ticks w)) ]> merged)) o ]>
                (objects w)
         /\ merged !! AnnLastCheckedAt = Some (clock w (ticks w))
     | _, _ => objects w1 = objects w /\ objects w2 = objects w
     end.
Proof.
  intros Hwf Hclock w1 w2.
  pose proof (outcome_objects Hash kind req w) as Ho1. fold w1 in Ho1.
  pose proof (outcome_rest Hash kind req w) as (Hg1 & Hp1 & Hc1 & Ht1). fold w1 in Hg1, Hp1, Hc1, Ht1.
  pose proof (outcome_objects Hash kind req w1) as Ho2. fold w2 in Ho2.
  rewrite !outcome_result.
  unfold notifications. unfold staging in Ho1, Ho2, Ht1 |- *.
  rewrite Hp1 in *. rewrite Hc1 in *.
  destruct (fetch w (Request_NamespacedName req)) as [o|e] eqn:Hf.
  2:{ assert (Hf1 : fetch w1 (Request_NamespacedName req) = inr e)
        by (rewrite <- Hf; apply fetch_same_store; assumption).
      rewrite Hf1 in *. rewrite Ho1 in Ho2. auto. }
  destruct (fetch_found _ _ _ Hf) as [Hgf Hst].
  pose proof (Hwf _ _ Hst) as Hkey.
  destruct (negb (opted_in o)) eqn:Hopt.
  { assert (Hf1 : fetch w1 (Request_NamespacedName req) = inl o)
      by (rewrite <- Hf; apply fetch_same_store; assumption).
    rewrite Hf1, Hopt in *. rewrite Ho1 in Ho2. auto. }
  destruct (String.eqb (expected_of o) EmptyString) eqn:Hexp.
  - (* no baseline *)
    destruct (patch_fault w) eqn:Hpf.
    + assert (Hf1 : fetch w1 (Request_NamespacedName req) = inl o)
        by (rewrite <- Hf; apply fetch_same_store; assumption).
      rewrite Hf1, Hopt, Hexp in *. rewrite Ho1 in Ho2. auto.
    + remember ({[AnnLastCheckedAt := clock w (ticks w)]} ∪ default ∅ (GetAnnotations o))
        as merged eqn:Em.
      remember (SetAnnotations (Some merged) o) as o1 eqn:Eo1.
      assert (Hf1 : fetch w1 (Request_NamespacedName req) = inl o1).
      { unfold fetch. rewrite Hg1, Hgf, Ho1, <- Hkey, lookup_insert_eq. reflexivity. }
      assert (Hexp1 : expected_of o1 = expected_of o).
      { subst o1 merged. apply expected_of_merged. owned_keys. reflexivity. }
      assert (Hopt1 : opted_in o1 = opted_in o).
      { subst o1. apply opted_in_SetAnnotations. }
      assert (Hk1 : key_of o1 = key_of o) by (subst o1; apply key_of_SetAnnotations).
      assert (Ha1 : GetAnnotations o1 = Some merged)
        by (subst o1; apply GetAnnotations_SetAnnotations).
      rewrite Hf1, Hopt1, Hopt, Hexp1, Hexp in *.
      repeat split; try reflexivity; try exact Ho1.
      * rewrite Ho2, Ho1, Ht1, Hk1, Ha1, insert_insert_eq. simpl.
        subst o1. rewrite SetAnnotations_twice.
        rewrite <- insert_union_singleton_l. reflexivity.
      * subst merged. apply lookup_union_Some_l. owned_keys. reflexivity.
  - destruct (Hash o) as [h [e|]] eqn:Hh.
    { assert (Hf1 : fetch w1 (Request_NamespacedName req) = inl o)
        by (rewrite <- Hf; apply fetch_same_store; assumption).
      rewrite Hf1, Hopt, Hexp, Hh in *. rewrite Ho1 in Ho2. auto. }
    destruct (patch_fault w) eqn:Hpf.
    + assert (Hf1 : fetch w1 (Request_NamespacedName req) = inl o)
        by (rewrite <- Hf; apply fetch_same_store; assumption).
      rewrite Hf1, Hopt, Hexp, Hh in *. rewrite Ho1 in Ho2. auto.
    + remember (staged o h (clock w (ticks w)) ∪ default ∅ (GetAnnotations o))
        as merged eqn:Em.
      remember (SetAnnotations (Some merged) o) as o1 eqn:Eo1.
      assert (Hf1 : fetch w1 (Request_NamespacedName req) = inl o1).
      { unfold fetch. rewrite Hg1, Hgf, Ho1, <- Hkey, lookup_insert_eq. reflexivity. }
      assert (Hexp1 : expected_of o1 = expected_of o).
      { subst o1 merged. apply expected_of_merged. apply staged_no_baseline_key. }
      assert (Hopt1 : opted_in o1 = opted_in o).
      { subst o1. apply opted_in_SetAnnotations. }
      assert (Hh1 : Hash o1 = Hash o) by (subst o1; apply Hash_reads_spec).
      assert (Hk1 : key_of o1 = key_of o) by (subst o1; apply key_of_SetAnnotations).
      assert (Ha1 : GetAnnotations o1 = Some merged)
        by (subst o1; apply GetAnnotations_SetAnnotations).
      rewrite Hf1, Hopt1, Hopt, Hexp1, Hexp, Hh1, Hh, ?Hk1 in *.
      repeat split; try reflexivity; try exact Ho1.
      * rewrite Ho2, Ho1, Ht1, Ha1, insert_insert_eq. simpl.
        subst o1. rewrite SetAnnotations_twice. subst merged.
        rewrite staged_again by apply Hclock. reflexivity.
      * subst merged. apply lookup_union_Some_l. apply staged_last_checked.
Qed.

End Twice.

(** C1, as the code has it. Two reconciliations in a row, nothing else
    touching the store: every persisted annotation of every resource is the
    same after the second as after the first, except last-checked-at, which
    holds the clock reading of the latest one; the stored objects are
    identical when both read the same clock value. The second reconciliation
    returns what the first returned and emits the warnings the first emitted:
    none unless the live hash differs from the baseline, and then the drift
    warning again. *)
Theorem reconcile_twice {O : Type} `{Object O}
    (Hash : O -> string * error) (kind : string) (req : Request) (w : World O) :
  store_wf w ->
  (forall a o, Hash (SetAnnotations a o) = Hash o) ->
  (forall n, clock w n <> EmptyString) ->
  let r1 := Reconcile Hash kind req w in
  let r2 := Reconcile Hash kind req (snd r1) in
  (forall key k, k <> AnnLastCheckedAt ->
     annotation (snd r2) key k = annotation (snd r1) key k)
  /\ (clock w (S (ticks w)) = clock w (ticks w) -> objects (snd r2) = objects (snd r1))
  /\ fst r2 = fst r1
  /\ warnings (calls_since (snd r1) (snd r2)) = warnings (calls_since w (snd r1))
  /\ (forall o h,
        fetch w (Request_NamespacedName req) = inl o ->
        opted_in o = true ->
        expected_of o <> EmptyString ->
        Hash o = (h, None) ->
        h <> expected_of o ->
        warnings (calls_since (snd r1) (snd r2))
        = [drift_event kind (Request_NamespacedName req) (expected_of o) h]).
Proof.
  intros Hwf Hhash Hclock r1 r2. subst r1 r2.
  rewrite (Reconcile_outcome Hash kind req w Hwf).
  pose proof (outcome_wf Hash kind req w Hwf) as Hwf1.
  rewrite (Reconcile_outcome Hash kind req _ Hwf1).
  destruct (second_reconciliation Hash kind Hhash req w Hwf Hclock) as (Hn & Hr & Hobj).
  rewrite !outcome_warnings.
  split; [|split; [|split; [|split]]].
  - intros key k Hk. unfold annotation.
    destruct (staging Hash req w) as [[o kv]|]; [destruct (patch_fault w)|].
    + destruct Hobj as [-> ->]. reflexivity.
    + destruct Hobj as (-> & -> & _).
      destruct (decide (key = key_of o)) as [->|Hne].
      * rewrite !lookup_insert_eq, !GetAnnotations_SetAnnotations.
        rewrite lookup_insert_ne by congruence. reflexivity.
      * rewrite !lookup_insert_ne by congruence. reflexivity.
    + destruct Hobj as [-> ->]. reflexivity.
  - intros Hsame.
    destruct (staging Hash req w) as [[o kv]|]; [destruct (patch_fault w)|].
    + destruct Hobj as [-> ->]. reflexivity.
    + destruct Hobj as (-> & -> & Hlast).
      rewrite Hsame.
      rewrite (insert_id (kv ∪ default ∅ (GetAnnotations o)) AnnLastCheckedAt _ Hlast).
      reflexivity.
    + destruct Hobj as [-> ->]. reflexivity.
  - exact Hr.
  - exact Hn.
  - intros o h Hf Hopt Hexp Hh Hd. rewrite Hn. unfold notifications.
    rewrite Hf, Hopt, Hh. simpl.
    destruct (String.eqb_spec (expected_of o) EmptyString) as [|_]; [congruence|].
    destruct (String.eqb_spec h (expected_of o)) as [|_]; [congruence|]. simpl.
    destruct (fetch_found _ _ _ Hf) as [_ Hst]. rewrite (Hwf _ _ Hst). reflexivity.
Qed.

(* ===================================================================== *)
(** * The properties on concrete resources *)
(* ===================================================================== *)

Lemma world_wf (d : Deployment.t) : key_of d = sample.key -> store_wf (sample.world d).
Proof.
  intros Hk k o. unfold sample.world. simpl.
  intros [<- <-]%lookup_singleton_Some. exact Hk.
Qed.

Lemma clock_nonempty (n : nat) : sample.clock n <> EmptyString.
Proof. destruct n as [|[|n]]; discriminate. Qed.

(** C1, against idempotence as claimed. The Deployment runs nginx:2 against
    the baseline of nginx:1. After the first reconciliation it is recorded as
    drifted; the second one, with nothing changed in between, leaves a
    different last-checked-at and emits the drift warning a second time. *)
Lemma second_reconciliation_writes_and_warns :
  let w1 := snd (sample.reconcile sample.req sample.drifted_world) in
  let w2 := snd (sample.reconcile sample.req w1) in
  annotation w1 sample.key AnnDrifted = Some "true"
  /\ annotation w1 sample.key AnnLastCheckedAt = Some sample.t0
  /\ annotation w2 sample.key AnnLastCheckedAt = Some sample.t1
  /\ sample.t0 <> sample.t1
  /\ length (warnings (calls_since sample.drifted_world w1)) = 1%nat
  /\ length (warnings (calls_since w1 w2)) = 1%nat.
Proof. evaluated. Qed.

(** C2, against the re-stamping as claimed. Drift is detected at t0; the
    image is put back and the reconciliation at t1 records drifted=false; the
    image drifts again and the reconciliation at t2 records drifted=true, yet
    drifted-at still holds t0. *)
Lemma recurring_drift_keeps_first_timestamp :
  let w1 := snd (sample.reconcile sample.req sample.drifted_world) in
  let w2 := snd (sample.reconcile sample.req
                   (edit sample.key (sample.set_image "nginx:1") w1)) in
  let w3 := snd (sample.reconcile sample.req
                   (edit sample.key (sample.set_image "nginx:3") w2)) in
  annotation w1 sample.key AnnDrifted = Some "true"
  /\ annotation w1 sample.key AnnDriftedAt = Some sample.t0
  /\ annotation w2 sample.key AnnDrifted = Some "false"
  /\ annotation w3 sample.key AnnDrifted = Some "true"
  /\ annotation w3 sample.key AnnLastCheckedAt = Some sample.t2
  /\ annotation w3 sample.key AnnDriftedAt = Some sample.t0
  /\ sample.t0 <> sample.t2.
Proof. evaluated. Qed.

(** C3, the failing input. One container declares port 53 for UDP and for
    TCP, both unnamed; the two orders of the port list compare equal under
    (containerPort, name), stay in input order, and hash differently. *)
Lemma permuted_ports_hash_differently :
  let a := sample.dns [sample.udp53; sample.tcp53] in
  let b := sample.dns [sample.tcp53; sample.udp53] in
  deployment_reordered a b
  /\ port_less (ContainerPortFingerprint.mk EmptyString 53 "UDP")
               (ContainerPortFingerprint.mk EmptyString 53 "TCP") = false
  /\ port_less (ContainerPortFingerprint.mk EmptyString 53 "TCP")
               (ContainerPortFingerprint.mk EmptyString 53 "UDP") = false
  /\ fst (HashDeployment (S := sort.insertion) a)
     = "082e6c798808e84c3848f549e4df5ccbbc4d774462c036edf3130f69e6643fcf"
  /\ fst (HashDeployment (S := sort.insertion) b)
     = "363ce156e69598af25809a49563d0260b1a0a7e3d70cfcd55db60fcd342e3539"
  /\ fst (HashDeployment (S := sort.insertion) a)
     <> fst (HashDeployment (S := sort.insertion) b).
Proof.
  cbv zeta. split; [|evaluated].
  unfold deployment_reordered, containers_of, sample.dns, deployment_of. simpl.
  repeat split.
  exists [Container.mk "dns" "coredns:1.11" [] [sample.udp53; sample.tcp53] sample.no_resources].
  split; [reflexivity|]. constructor; [|constructor].
  unfold container_reordered. simpl. repeat split; [reflexivity|apply perm_swap].
Qed.




(** C8 on a concrete pair: the two hashes. *)
Example replicas_unset_and_zero_hashes :
  let d := fun r => deployment_of (sample.meta None None) r sample.no_strategy None None [] in
  fst (HashDeployment (S := sort.insertion) (d None))
  <> fst (HashDeployment (S := sort.insertion) (d (Some 0))).
Proof. evaluated. Qed.

(** The digest on the reference vectors of FIPS 180-4. *)
Example sha256_abc :
  hex.EncodeToString (sha256.Sum256 "abc")
  = "ba7816bf8f01cfea414140de5dae2223b00361a396177a9cb410ff61f20015ad".
Proof. evaluated. Qed.

Example sha256_empty :
  hex.EncodeToString (sha256.Sum256 EmptyString)
  = "e3b0c44298fc1c149afbf4c8996fb92427ae41e4649b934ca495991b7852b855".
Proof. evaluated. Qed.

Example sha256_two_blocks :
  hex.EncodeToString
    (sha256.Sum256 "abcdbcdecdefdefgefghfghighijhijkijkljklmklmnlmnomnopnopq")
  = "248d6a61d20638b8e5c026930c3e6039a33ce45964ff2167f6ecedd419db06c1".
Proof. evaluated. Qed.

(* ===================================================================== *)
(** * The theorems at concrete inputs *)
(* ===================================================================== *)

Lemma not_found_is_success_and_noop_witness :
  fetch sample.empty_world (Request_NamespacedName sample.req) = inr ErrNotFound
  /\ IsNotFound ErrNotFound = true
  /\ fst (sample.reconcile sample.req sample.empty_world) = (Result_zero, None)
  /\ calls_since sample.empty_world (snd (sample.reconcile sample.req sample.empty_world))
     = [CallGet sample.key].
Proof.
  split; [reflexivity|]. split; [reflexivity|].
  destruct (not_found_is_success_and_noop (HashDeployment (S := sort.insertion)) "Deployment"
              sample.req sample.empty_world ErrNotFound eq_refl eq_refl)
    as (Hr & _ & _ & Hc & _).
  split; [exact Hr|exact Hc].
Defined.

Lemma opt_out_short_circuit_witness :
  fst (sample.reconcile sample.req sample.opted_out_world) = (Result_zero, None)
  /\ objects (snd (sample.reconcile sample.req sample.opted_out_world))
     = objects sample.opted_out_world
  /\ hash_calls (calls_since sample.opted_out_world
                   (snd (sample.reconcile sample.req sample.opted_out_world))) = []
  /\ writes (calls_since sample.opted_out_world
               (snd (sample.reconcile sample.req sample.opted_out_world))) = [].
Proof.
  destruct (opt_out_short_circuit (HashDeployment (S := sort.insertion)) "Deployment"
              sample.req sample.opted_out_world
              (sample.web "nginx:2" (Some {[ LabelEnabled := "false" ]})
                 (Some {[ AnnExpectedHash := sample.baseline ]})))
    as (Hr & Ho & _ & Hh & Hw & _).
  - reflexivity.
  - intros m [= <-]. rewrite lookup_singleton_eq. discriminate.
  - repeat split; assumption.
Defined.

Lemma no_baseline_writes_only_last_checked_witness :
  only_last_checked_written sample.req sample.no_baseline_world
    (sample.reconcile sample.req sample.no_baseline_world).
Proof.
  apply (no_baseline_writes_only_last_checked (HashDeployment (S := sort.insertion))
           "Deployment" sample.req sample.no_baseline_world
           (sample.web "nginx:2" sample.enabled (Some {[ "team" := "payments" ]}))
           {[ LabelEnabled := "true" ]}).
  - apply world_wf. reflexivity.
  - reflexivity.
  - reflexivity.
  - apply lookup_singleton_eq.
  - intros a [= <-]. apply lookup_singleton_ne. discriminate.
Defined.

Lemma empty_baseline_is_no_baseline_witness :
  only_last_checked_written sample.req sample.empty_baseline_world
    (sample.reconcile sample.req sample.empty_baseline_world).
Proof.
  apply (empty_baseline_is_no_baseline (HashDeployment (S := sort.insertion))
           "Deployment" sample.req sample.empty_baseline_world
           (sample.web "nginx:2" sample.enabled (Some {[ AnnExpectedHash := EmptyString ]}))
           {[ LabelEnabled := "true" ]} {[ AnnExpectedHash := EmptyString ]}).
  - apply world_wf. reflexivity.
  - reflexivity.
  - reflexivity.
  - apply lookup_singleton_eq.
  - reflexivity.
  - apply lookup_singleton_eq.
Defined.

Lemma reconcile_twice_witness :
  (forall key k, k <> AnnLastCheckedAt ->
     annotation
       (snd (sample.reconcile sample.req
               (snd (sample.reconcile sample.req sample.drifted_world)))) key k
     = annotation (snd (sample.reconcile sample.req sample.drifted_world)) key k)
  /\ warnings
       (calls_since (snd (sample.reconcile sample.req sample.drifted_world))
          (snd (sample.reconcile sample.req
                  (snd (sample.reconcile sample.req sample.drifted_world)))))
     = warnings
         (calls_since sample.drifted_world
            (snd (sample.reconcile sample.req sample.drifted_world))).
Proof.
  destruct (reconcile_twice (HashDeployment (S := sort.insertion)) "Deployment"
              sample.req sample.drifted_world) as (Ha & _ & _ & Hw & _).
  - apply world_wf. reflexivity.
  - intros a o. reflexivity.
  - apply clock_nonempty.
  - split; [exact Ha|exact Hw].
Defined.

Lemma drifted_at_never_overwritten_witness :
  annotation sample.known_drift_world sample.key AnnDriftedAt = Some sample.t0
  /\ annotation
       (snd (sample.reconcile sample.req
               (edit sample.key (sample.set_image "nginx:1")
                  (snd (sample.reconcile sample.req sample.known_drift_world)))))
       sample.key AnnDriftedAt
     = Some sample.t0.
Proof.
  split; [vm_compute; reflexivity|].
  apply (drifted_at_never_overwritten (HashDeployment (S := sort.insertion)) "Deployment"
           sample.known_drift_world _ sample.key sample.t0).
  - apply world_wf. reflexivity.
  - vm_compute. reflexivity.
  - discriminate.
  - eapply rtc_l; [apply step_reconcile|].
    eapply rtc_l; [apply (step_external _ _ sample.key (sample.set_image "nginx:1"))|].
    + intros o. reflexivity.
    + intros o. reflexivity.
    + eapply rtc_l; [apply (step_reconcile _ _ sample.req)|]. apply rtc_refl.
Defined.


(* ===================================================================== *)
(** * Further properties of the reconcilers *)
(* ===================================================================== *)

Section Verdicts.
Context {O : Type} `{Object O}.
Variable Hash : O -> string * error.
Variable kind : string.

Lemma expected_present (o : O) (a : gmap string string) (e : string) :
  GetAnnotations o = Some a -> a !! AnnExpectedHash = Some e -> expected_of o = e.
Proof. intros Ea He. unfold expected_of. rewrite Ea. simpl. rewrite He. reflexivity. Qed.

(** The outcome of a reconciliation that reaches a verdict. *)
Lemma verdict_outcome (req : Request) (w : World O) (o : O)
    (labels a : gmap string string) (e h : string) :
  store_wf w ->
  fetch w (Request_NamespacedName req) = inl o ->
  GetLabels o = Some labels -> labels !! LabelEnabled = Some "true" ->
  GetAnnotations o = Some a -> a !! AnnExpectedHash = Some e -> e <> EmptyString ->
  Hash o = (h, None) ->
  patch_fault w = None ->
  key_of o = Request_NamespacedName req
  /\ Reconcile Hash kind req w
     = ((Result_zero, None),
        committed w o (staged o h (clock w (ticks w)))
          (([CallGet (Request_NamespacedName req); CallHash (key_of o); CallNow]
            ++ (if negb (String.eqb h e)
                then [CallEventf (drift_event kind (key_of o) e h);
                      CallLogInfo "drift detected" [("expected", e); ("live", h)]]
                else []))
           ++ [CallPatch (key_of o)
                 (merge_diff (Some a)
                    (Some (staged o h (clock w (ticks w)) ∪ a)))])).
Proof.
  intros Hwf Hf El Ev Ea He Hne Hh Hpf.
  destruct (fetch_found _ _ _ Hf) as [_ Hst]. split; [exact (Hwf _ _ Hst)|].
  rewrite (Reconcile_outcome Hash kind req w Hwf). unfold outcome.
  rewrite Hf, (opted_in_true o labels El Ev), (expected_present o a e Ea He), Hh. simpl.
  destruct (String.eqb_spec e EmptyString) as [|_]; [congruence|].
  unfold finish. rewrite Hpf, Ea. reflexivity.
Qed.

End Verdicts.

(** X1. A drift verdict. For an opted-in resource with a non-empty baseline
    whose live hash differs from it, and a patch that goes through: the
    result is success; drifted is "true", live-hash the computed hash,
    last-checked-at the clock reading; drifted-at becomes the clock reading
    when it was absent or empty and keeps its value otherwise; the baseline is
    untouched; and exactly one event is emitted, of type Warning and reason
    TerraformDriftDetected, whose message carries both hashes. *)
Theorem drift_is_recorded_and_notified {O : Type} `{Object O}
    (Hash : O -> string * error) (kind : string) (req : Request) (w : World O) (o : O)
    (labels a : gmap string string) (e h : string) :
  store_wf w ->
  fetch w (Request_NamespacedName req) = inl o ->
  GetLabels o = Some labels -> labels !! LabelEnabled = Some "true" ->
  GetAnnotations o = Some a -> a !! AnnExpectedHash = Some e -> e <> EmptyString ->
  Hash o = (h, None) ->
  h <> e ->
  patch_fault w = None ->
  let r := Reconcile Hash kind req w in
  let key := Request_NamespacedName req in
  let now := clock w (ticks w) in
  fst r = (Result_zero, None)
  /\ annotation (snd r) key AnnDrifted = Some "true"
  /\ annotation (snd r) key AnnLiveHash = Some h
  /\ annotation (snd r) key AnnLastCheckedAt = Some now
  /\ annotation (snd r) key AnnDriftedAt = Some (first_detection (a !! AnnDriftedAt) now)
  /\ annotation (snd r) key AnnExpectedHash = Some e
  /\ warnings (calls_since w (snd r))
     = [mkEvent key "Warning" "TerraformDriftDetected"
          (kind +:+ " drift detected: expectedHash=" +:+ e +:+ " liveHash=" +:+ h)].
Proof.
  intros Hwf Hf El Ev Ea He Hne Hh Hd Hpf r key now. subst r key now.
  destruct (verdict_outcome Hash kind req w o labels a e h Hwf Hf El Ev Ea He Hne Hh Hpf)
    as [Hkey ->].
  cbn [fst snd]. rewrite calls_since_committed. rewrite <- Hkey.
  rewrite !annotation_committed. rewrite Ea. cbn [default].
  assert (Hexp : expected_of o = e) by exact (expected_present o a e Ea He).
  destruct (String.eqb_spec h e) as [|_]; [congruence|]. cbn [negb].
  unfold staged. rewrite Hexp, Ea.
  destruct (String.eqb_spec h e) as [|_]; [congruence|]. cbn [negb is_nil orb].
  split; [reflexivity|].
  unfold first_detection.
  change (index (Some a) AnnDriftedAt) with (default EmptyString (a !! AnnDriftedAt)).
  destruct (a !! AnnDriftedAt) as [v|] eqn:Ev'.
  - change (default EmptyString (Some v)) with v.
    destruct (String.eqb_spec v EmptyString) as [->|Hv].
    + repeat split;
        try (apply lookup_union_Some_l; owned_keys; reflexivity).
      rewrite lookup_union_r by (owned_keys; reflexivity). exact He.
    + repeat split;
        try (apply lookup_union_Some_l; owned_keys; reflexivity).
      * rewrite lookup_union_r by (owned_keys; reflexivity). exact Ev'.
      * rewrite lookup_union_r by (owned_keys; reflexivity). exact He.
  - change (String.eqb (default EmptyString None) EmptyString) with true. cbv iota.
    repeat split;
      try (apply lookup_union_Some_l; owned_keys; reflexivity).
    rewrite lookup_union_r by (owned_keys; reflexivity). exact He.
Qed.

(** X2. A clean verdict. For an opted-in resource whose live hash equals its
    non-empty baseline, and a patch that goes through: the result is success;
    drifted is "false", live-hash the hash, last-checked-at the clock reading;
    drifted-at and the baseline are as before (a recorded drifted-at is not
    cleared); no event is emitted. *)
Theorem clean_is_recorded_silently {O : Type} `{Object O}
    (Hash : O -> string * error) (kind : string) (req : Request) (w : World O) (o : O)
    (labels a : gmap string string) (e : string) :
  store_wf w ->
  fetch w (Request_NamespacedName req) = inl o ->
  GetLabels o = Some labels -> labels !! LabelEnabled = Some "true" ->
  GetAnnotations o = Some a -> a !! AnnExpectedHash = Some e -> e <> EmptyString ->
  Hash o = (e, None) ->
  patch_fault w = None ->
  let r := Reconcile Hash kind req w in
  let key := Request_NamespacedName req in
  fst r = (Result_zero, None)
  /\ annotation (snd r) key AnnDrifted = Some "false"
  /\ annotation (snd r) key AnnLiveHash = Some e
  /\ annotation (snd r) key AnnLastCheckedAt = Some (clock w (ticks w))
  /\ annotation (snd r) key AnnDriftedAt = a !! AnnDriftedAt
  /\ annotation (snd r) key AnnExpectedHash = Some e
  /\ warnings (calls_since w (snd r)) = [].
Proof.
  intros Hwf Hf El Ev Ea He Hne Hh Hpf r key. subst r key.
  destruct (verdict_outcome Hash kind req w o labels a e e Hwf Hf El Ev Ea He Hne Hh Hpf)
    as [Hkey ->].
  cbn [fst snd]. rewrite calls_since_committed. rewrite <- Hkey.
  rewrite !annotation_committed. rewrite Ea. cbn [default].
  assert (Hexp : expected_of o = e) by exact (expected_present o a e Ea He).
  rewrite String.eqb_refl. cbn [negb].
  unfold staged. rewrite Hexp, String.eqb_refl. cbn [negb].
  repeat split; try (apply lookup_union_Some_l; owned_keys; reflexivity).
  - rewrite lookup_union_r by (owned_keys; reflexivity). reflexivity.
  - rewrite lookup_union_r by (owned_keys; reflexivity). exact He.
Qed.

Section Frame.
Context {O : Type} `{Object O}.
Variable Hash : O -> string * error.
Variable kind : string.

Lemma staged_owned (o : O) (h now k : string) :
  ~ owned k -> staged o h now !! k = None.
Proof.
  intros Hk. unfold owned in Hk. unfold staged. cbv zeta.
  destruct (negb (String.eqb h (expected_of o)));
    [destruct (is_nil (GetAnnotations o)
               || String.eqb (index (GetAnnotations o) AnnDriftedAt) EmptyString)|];
    rewrite ?lookup_insert_ne by (intros <-; tauto);
    apply lookup_singleton_ne; intros <-; tauto.
Qed.

Lemma staging_owned (req : Request) (w : World O) (o : O) kv (k : string) :
  staging Hash req w = Some (o, kv) -> ~ owned k -> kv !! k = None.
Proof.
  unfold staging. destruct (fetch w (Request_NamespacedName req)) as [o'|e]; [|discriminate].
  destruct (negb (opted_in o')); [discriminate|].
  destruct (String.eqb (expected_of o') EmptyString).
  - intros [= <- <-] Hk. apply lookup_singleton_ne. unfold owned in Hk.
    intros <-; tauto.
  - destruct (Hash o') as [h [e|]]; [discriminate|].
    intros [= <- <-]. apply staged_owned.
Qed.

Lemma staging_stored (req : Request) (w : World O) (o : O) kv :
  store_wf w -> staging Hash req w = Some (o, kv) ->
  key_of o = Request_NamespacedName req /\ objects w !! key_of o = Some o.
Proof.
  intros Hwf Hst. pose proof (staging_fetched Hash req w o kv Hst) as Hf.
  destruct (fetch_found _ _ _ Hf) as [_ Ho]. pose proof (Hwf _ _ Ho) as Hk.
  split; [exact Hk|]. rewrite Hk. exact Ho.
Qed.

End Frame.

(** X3. What a reconciliation leaves alone. Whatever it observes, it changes
    no annotation other than live-hash, drifted, drifted-at and
    last-checked-at (so never the baseline), changes no resource but the one
    requested, creates and deletes none, and the object it leaves is the one
    it found or that object with only its annotations replaced: labels,
    identity and spec stay. *)
Theorem reconcile_leaves_the_rest {O : Type} `{Object O}
    (Hash : O -> string * error) (kind : string) (req : Request) (w : World O) :
  store_wf w ->
  let w' := snd (Reconcile Hash kind req w) in
  (forall key k, ~ owned k -> annotation w' key k = annotation w key k)
  /\ (forall key, key <> Request_NamespacedName req -> objects w' !! key = objects w !! key)
  /\ (forall key, objects w !! key = None -> objects w' !! key = None)
  /\ (forall key o, objects w !! key = Some o ->
        objects w' !! key = Some o
        \/ exists a, objects w' !! key = Some (SetAnnotations a o)).
Proof.
  intros Hwf w'. subst w'. rewrite (Reconcile_outcome Hash kind req w Hwf).
  unfold annotation. rewrite outcome_objects.
  destruct (staging Hash req w) as [[o kv]|] eqn:Est.
  2:{ repeat split; auto. }
  destruct (patch_fault w).
  { repeat split; auto. }
  destruct (staging_stored Hash req w o kv Hwf Est) as [Hkey Hst].
  repeat split.
  - intros key k Hk. destruct (decide (key = key_of o)) as [->|Hne].
    + rewrite lookup_insert_eq, GetAnnotations_SetAnnotations, Hst.
      rewrite lookup_union_r by exact (staging_owned Hash req w o kv k Est Hk).
      destruct (GetAnnotations o); [reflexivity|apply lookup_empty].
    + rewrite lookup_insert_ne by congruence. reflexivity.
  - intros key Hne. rewrite lookup_insert_ne by congruence. reflexivity.
  - intros key Hnone. rewrite lookup_insert_ne; [exact Hnone|]. congruence.
  - intros key o' Ho'. destruct (decide (key = key_of o)) as [->|Hne].
    + right. rewrite Hst in Ho'. injection Ho' as <-. eexists. apply lookup_insert_eq.
    + left. rewrite lookup_insert_ne by congruence. exact Ho'.
Qed.

Section Errors.
Context {O : Type} `{Object O}.
Variable Hash : O -> string * error.
Variable kind : string.

Lemma Reconcile_hash_failed (req : Request) (w : World O) (o : O) (h : string)
    (e : error_value) :
  fetch w (Request_NamespacedName req) = inl o ->
  opted_in o = true ->
  expected_of o <> EmptyString ->
  Hash o = (h, Some e) ->
  Reconcile Hash kind req w
  = ((Result_zero, Some e),
     logged [CallGet (Request_NamespacedName req); CallHash (key_of o)] w).
Proof.
  intros Hf Ho He Hh. unfold Reconcile. unfold bind at 1. rewrite Get_run, Hf.
  unfold opted_in in Ho. apply negb_true_iff in Ho. rewrite Ho.
  fold (expected_of o).
  destruct (String.eqb_spec (expected_of o) EmptyString) as [|_]; [congruence|].
  unfold bind, call_Hash, record, ret, logged. simpl. rewrite Hh.
  rewrite <- app_assoc. reflexivity.
Qed.

End Errors.

(** X4. Errors that stop a reconciliation before its write. A fetch error
    other than not-found is returned as it is after the one read. A failure
    of the hash function is returned as it is after the read and the hash
    call: the clock is not read, no event is emitted, no patch is sent. In
    both cases the store is as before. *)
Theorem errors_abort_before_the_write {O : Type} `{Object O}
    (Hash : O -> string * error) (kind : string) (req : Request) (w : World O) :
  let r := Reconcile Hash kind req w in
  (forall e, fetch w (Request_NamespacedName req) = inr e -> IsNotFound e = false ->
     fst r = (Result_zero, Some e)
     /\ calls_since w (snd r) = [CallGet (Request_NamespacedName req)]
     /\ objects (snd r) = objects w)
  /\ (forall o h e,
        fetch w (Request_NamespacedName req) = inl o ->
        opted_in o = true ->
        expected_of o <> EmptyString ->
        Hash o = (h, Some e) ->
        fst r = (Result_zero, Some e)
        /\ calls_since w (snd r) = [CallGet (Request_NamespacedName req); CallHash (key_of o)]
        /\ objects (snd r) = objects w
        /\ ticks (snd r) = ticks w).
Proof.
  intros r. subst r. split.
  - intros e Hf He. rewrite (Reconcile_fetch_failed Hash kind req w e Hf), He.
    cbn [fst snd]. rewrite calls_since_logged. repeat split.
  - intros o h e Hf Ho He Hh.
    rewrite (Reconcile_hash_failed Hash kind req w o h e Hf Ho He Hh).
    cbn [fst snd]. rewrite calls_since_logged. repeat split.
Qed.

(** X5. A patch that fails. When drift is detected and the patch call
    returns an error, the reconciliation returns that error. The calls made
    are, in this order: the read, the hash, the clock reading, the drift
    Warning event, the log line, and the patch of the requested key. So the
    warning has been emitted before the patch was attempted, and it stands;
    the store is unchanged. *)
Theorem patch_error_is_returned_after_the_warning {O : Type} `{Object O}
    (Hash : O -> string * error) (kind : string) (req : Request) (w : World O) (o : O)
    (h : string) (err : error_value) :
  store_wf w ->
  fetch w (Request_NamespacedName req) = inl o ->
  opted_in o = true ->
  expected_of o <> EmptyString ->
  Hash o = (h, None) ->
  h <> expected_of o ->
  patch_fault w = Some err ->
  let r := Reconcile Hash kind req w in
  let key := Request_NamespacedName req in
  fst r = (Result_zero, Some err)
  /\ (exists p,
        calls_since w (snd r)
        = [CallGet key; CallHash key; CallNow;
           CallEventf (drift_event kind key (expected_of o) h);
           CallLogInfo "drift detected" [("expected", expected_of o); ("live", h)];
           CallPatch key p])
  /\ warnings (calls_since w (snd r)) = [drift_event kind key (expected_of o) h]
  /\ (exists p, writes (calls_since w (snd r)) = [(key, p)])
  /\ writes (before_event (calls_since w (snd r))) = []
  /\ objects (snd r) = objects w.
Proof.
  intros Hwf Hf Ho He Hh Hd Hpf r key. subst r key.
  destruct (fetch_found _ _ _ Hf) as [_ Hst]. pose proof (Hwf _ _ Hst) as Hkey.
  rewrite (Reconcile_outcome Hash kind req w Hwf). unfold outcome.
  rewrite Hf, Ho, Hh. cbn [negb].
  destruct (String.eqb_spec (expected_of o) EmptyString) as [|_]; [congruence|].
  destruct (String.eqb_spec h (expected_of o)) as [|_]; [congruence|]. cbn [negb].
  unfold finish. rewrite Hpf. cbn [fst snd]. rewrite calls_since_attempted, Hkey.
  split; [reflexivity|]. split; [eexists; reflexivity|].
  split; [reflexivity|]. split; [eexists; reflexivity|]. split; reflexivity.
Qed.

Section Calls.
Context {O : Type} `{Object O}.
Variable Hash : O -> string * error.
Variable kind : string.

Lemma merge_diff_lookup (a : gomap) (m : gmap string string) (k : string) :
  merge_diff a (Some m) !! k
  = match m !! k with
    | Some v => if decide (default ∅ a !! k = Some v) then None else Some (Some v)
    | None => match default ∅ a !! k with Some _ => Some None | None => None end
    end.
Proof.
  unfold merge_diff. change (default ∅ (Some m)) with m. rewrite lookup_merge.
  destruct (default ∅ a !! k), (m !! k); reflexivity.
Qed.

(** The patch computed for staged annotations names a key exactly when the
    staged value differs from the one seen, and deletes nothing. *)
Lemma staged_patch_lookup (a : gomap) (kv : gmap string string) (k : string) :
  merge_diff a (Some (kv ∪ default ∅ a)) !! k
  = match kv !! k with
    | Some v => if decide (default ∅ a !! k = Some v) then None else Some (Some v)
    | None => None
    end.
Proof.
  rewrite merge_diff_lookup, lookup_union.
  destruct (kv !! k) as [v|] eqn:Ek.
  - destruct (default ∅ a !! k); reflexivity.
  - destruct (default ∅ a !! k) as [v|] eqn:Ea; cbn; [|reflexivity].
    destruct (decide (Some v = Some v)); congruence.
Qed.

End Calls.

(** X6. What [patchAnnotations] sends. Whatever the world, it makes one call,
    a patch of the object it was given; the patch names a key exactly when
    the staged value differs from the value on the object as fetched, gives
    it that staged value, and deletes no key. *)
Theorem patch_carries_only_differences {O : Type} `{Object O}
    (w : World O) (o : O) (kv : gmap string string) :
  exists p,
    calls_since w (snd (patchAnnotations o kv w)) = [CallPatch (key_of o) p]
    /\ (forall k, p !! k <> Some None)
    /\ (forall k v, p !! k = Some (Some v)
                    <-> kv !! k = Some v /\ default ∅ (GetAnnotations o) !! k <> Some v).
Proof.
  exists (merge_diff (GetAnnotations o) (Some (kv ∪ default ∅ (GetAnnotations o)))).
  split; [|split].
  - rewrite patchAnnotations_run. cbv zeta.
    destruct (patch_fault w); [|destruct (objects w !! key_of o)];
      cbn [snd]; unfold calls_since, logged; cbn [journal];
      rewrite drop_app_length; reflexivity.
  - intros k. rewrite staged_patch_lookup.
    destruct (kv !! k) as [v|]; [|discriminate].
    destruct (decide (default ∅ (GetAnnotations o) !! k = Some v)); discriminate.
  - intros k v. rewrite staged_patch_lookup.
    destruct (kv !! k) as [v'|]; [|split; [discriminate|intros [? _]; discriminate]].
    destruct (decide (default ∅ (GetAnnotations o) !! k = Some v')) as [E|E]; split.
    + discriminate.
    + intros [[= ->] Hne]. contradiction.
    + intros [= ->]. split; [reflexivity|exact E].
    + intros [[= ->] _]. reflexivity.
Qed.

(** X7. What [patchAnnotations] stores. When the patch goes through, every
    staged key whose value differs from the one on the object passed in holds
    the staged value afterwards, and every other key holds what the store
    held before, also when the stored object is not the one passed in. *)
Theorem patch_overlays_the_stored_annotations {O : Type} `{Object O}
    (w : World O) (o stored : O) (kv : gmap string string) :
  objects w !! key_of o = Some stored ->
  patch_fault w = None ->
  let r := patchAnnotations o kv w in
  fst r = (Result_zero, None)
  /\ forall k,
       annotation (snd r) (key_of o) k
       = match kv !! k with
         | Some v =>
             if decide (default ∅ (GetAnnotations o) !! k = Some v)
             then annotation w (key_of o) k
             else Some v
         | None => annotation w (key_of o) k
         end.
Proof.
  intros Hst Hpf r. subst r. rewrite patchAnnotations_run. cbv zeta.
  rewrite Hpf, Hst. cbn [fst snd]. split; [reflexivity|].
  intros k. unfold annotation. cbn [objects].
  rewrite lookup_insert_eq, GetAnnotations_SetAnnotations, Hst.
  pose proof (staged_patch_lookup (GetAnnotations o) kv k) as Hp.
  set (p := merge_diff (GetAnnotations o) (Some (kv ∪ default ∅ (GetAnnotations o)))) in *.
  assert (Hstored : match GetAnnotations stored with Some a => a !! k | None => None end
                    = default ∅ (GetAnnotations stored) !! k).
  { destruct (GetAnnotations stored); [reflexivity|]. symmetry. apply lookup_empty. }
  rewrite Hstored.
  unfold apply_merge. destruct (decide (p = ∅)) as [He|Hne].
  - rewrite He, lookup_empty in Hp. rewrite Hstored.
    destruct (kv !! k) as [v|]; [|reflexivity].
    destruct (decide (default ∅ (GetAnnotations o) !! k = Some v)); [reflexivity|discriminate].
  - rewrite lookup_merge, Hp.
    destruct (kv !! k) as [v|].
    + destruct (decide (default ∅ (GetAnnotations o) !! k = Some v));
        destruct (default ∅ (GetAnnotations stored) !! k); reflexivity.
    + destruct (default ∅ (GetAnnotations stored) !! k); reflexivity.
Qed.

(** X8. The shape of every reconciliation. From a well-formed store, whatever
    is observed: the result value is the zero Result (no requeue is ever
    asked for); the store is read exactly once, first, at the requested key;
    the calls are made in the order read, hash, clock, event, log line,
    patch, each at most once; a patch is the last call and addresses the
    requested key; when a warning is emitted, the hash of the requested
    object and the clock reading come before it and the patch, if any, after
    it; and the clock advances by the number of readings. *)
Theorem reconcile_call_discipline {O : Type} `{Object O}
    (Hash : O -> string * error) (kind : string) (req : Request) (w : World O) :
  store_wf w ->
  let r := Reconcile Hash kind req w in
  let key := Request_NamespacedName req in
  let cs := calls_since w (snd r) in
  fst (fst r) = Result_zero
  /\ head cs = Some (CallGet key)
  /\ reads cs = [key]
  /\ (length (hash_calls cs) <= 1)%nat
  /\ (clock_reads cs <= 1)%nat
  /\ (length (warnings cs) <= 1)%nat
  /\ (length (writes cs) <= 1)%nat
  /\ (forall k p, writes cs = [(k, p)] -> k = key /\ last cs = Some (CallPatch k p))
  /\ (warnings cs <> [] -> hash_calls cs = [key])
  /\ ticks (snd r) = (ticks w + clock_reads cs)%nat
  /\ program_order cs = true
  /\ (warnings cs <> [] ->
      hash_calls (before_event cs) = [key]
      /\ clock_reads (before_event cs) = 1%nat
      /\ writes (before_event cs) = []
      /\ hash_calls (after_event cs) = []
      /\ writes (after_event cs) = writes cs).
Proof.
  intros Hwf r key cs. subst r cs key.
  rewrite (Reconcile_outcome Hash kind req w Hwf). unfold outcome.
  destruct (fetch w (Request_NamespacedName req)) as [o|e] eqn:Hf.
  2:{ cbn [fst snd]. rewrite calls_since_logged. cbn.
      repeat split; try lia; try discriminate; try congruence. }
  destruct (fetch_found _ _ _ Hf) as [_ Hst]. pose proof (Hwf _ _ Hst) as Hkey.
  destruct (negb (opted_in o)).
  { cbn [fst snd]. rewrite calls_since_logged. cbn.
    repeat split; try lia; try discriminate; try congruence. }
  destruct (String.eqb (expected_of o) EmptyString).
  { unfold finish. destruct (patch_fault w); cbn [fst snd];
      rewrite ?calls_since_committed, ?calls_since_attempted, Hkey; cbn;
      (repeat split; try lia; try discriminate; try congruence;
       intros k p [= <- <-]; split; reflexivity). }
  destruct (Hash o) as [h [e|]].
  { cbn [fst snd]. rewrite calls_since_logged, Hkey. cbn.
    repeat split; try lia; try discriminate; try congruence. }
  unfold finish.
  destruct (negb (String.eqb h (expected_of o))); destruct (patch_fault w); cbn [fst snd];
    rewrite ?calls_since_committed, ?calls_since_attempted, Hkey; cbn;
    (repeat split; try lia; try discriminate; try congruence;
     intros k p [= <- <-]; split; reflexivity).
Qed.

(* ===================================================================== *)
(** * Further properties of the fingerprints *)
(* ===================================================================== *)

(** X9. The hash of a Deployment does not depend on the order of its
    containers, of the environment of a container or of the ports of a
    container, for any sort that returns a sorted permutation, provided the
    sort keys are pairwise distinct: container names, variable names within
    a container, and (containerPort, name) within a container. *)
Theorem fingerprint_order_independent (S : sort.SortSlice) (d1 d2 : Deployment.t) :
  sort.sort_contract S ->
  deployment_reordered d1 d2 ->
  deployment_distinct_keys d1 ->
  HashDeployment d1 = HashDeployment d2.
Proof. intros Hc Hr Hd. exact (HashDeployment_reordered Hc d1 d2 Hr Hd). Qed.

(** X10. The hash of a Service does not depend on the order of its ports, for
    any sort that returns a sorted permutation, provided the pairs (port,
    name) are pairwise distinct; nor on its metadata. *)
Theorem service_fingerprint_order_independent (S : sort.SortSlice)
    (meta1 meta2 : ObjectMeta.t) (type : string) (selector : gomap)
    (ports1 ports2 : list ServicePort.t) :
  sort.sort_contract S ->
  Permutation ports1 ports2 ->
  NoDup (map (fun p => (ServicePort.Port p, ServicePort.Name p)) ports1) ->
  HashService (service_of meta1 type selector ports1)
  = HashService (service_of meta2 type selector ports2).
Proof.
  intros Hc Hp Hd.
  exact (HashService_reordered Hc meta1 meta2 type selector ports1 ports2 Hp Hd).
Qed.

(** X11. When the comparison functions given to the sort leave two elements
    unordered. Containers: exactly when their names are equal. Variables:
    exactly when their names are equal. Container ports and Service ports:
    exactly when port number and name are both equal; the protocol plays no
    part. *)
Theorem comparators_tie_on_equal_keys :
  (forall a b, container_less a b = false /\ container_less b a = false
               <-> ContainerFingerprint.Name a = ContainerFingerprint.Name b)
  /\ (forall a b, env_less a b = false /\ env_less b a = false
                  <-> EnvVarFingerprint.Name a = EnvVarFingerprint.Name b)
  /\ (forall a b, port_less a b = false /\ port_less b a = false
                  <-> ContainerPortFingerprint.ContainerPort a
                      = ContainerPortFingerprint.ContainerPort b
                      /\ ContainerPortFingerprint.Name a = ContainerPortFingerprint.Name b)
  /\ (forall a b, service_port_less a b = false /\ service_port_less b a = false
                  <-> ServicePortFingerprint.Port a = ServicePortFingerprint.Port b
                      /\ ServicePortFingerprint.Name a = ServicePortFingerprint.Name b).
Proof.
  split; [|split; [|split]]; intros a b; split.
  - intros [H1 H2]. exact (sort.keyed_total _ _ container_less_keyed a b H1 H2).
  - intros E. split; apply (sort.keyed_irrefl _ _ container_less_keyed); congruence.
  - intros [H1 H2]. exact (sort.keyed_total _ _ env_less_keyed a b H1 H2).
  - intros E. split; apply (sort.keyed_irrefl _ _ env_less_keyed); congruence.
  - intros [H1 H2]. pose proof (sort.keyed_total _ _ port_less_keyed a b H1 H2) as E.
    cbv beta in E. injection E as E1 E2. split; assumption.
  - intros [E1 E2]. split; apply (sort.keyed_irrefl _ _ port_less_keyed); congruence.
  - intros [H1 H2]. pose proof (sort.keyed_total _ _ service_port_less_keyed a b H1 H2) as E.
    cbv beta in E. injection E as E1 E2. split; assumption.
  - intros [E1 E2]. split; apply (sort.keyed_irrefl _ _ service_port_less_keyed); congruence.
Qed.

Section Failures.

Lemma failure_Object_app (l1 l2 : list (string * json.value)) :
  json.failure (json.Object (l1 ++ l2))
  = match json.failure (json.Object l1) with
    | Some e => Some e
    | None => json.failure (json.Object l2)
    end.
Proof.
  induction l1 as [|[k x] l1 IH]; [reflexivity|].
  change ((((k, x) :: l1) ++ l2)) with ((k, x) :: (l1 ++ l2)).
  rewrite !failure_Object_cons, IH. destruct (json.failure x); reflexivity.
Qed.

Lemma failure_Object_nil : json.failure (json.Object []) = None.
Proof. reflexivity. Qed.

Lemma failure_Array (es : list json.value) :
  Forall (fun x => json.failure x = None) es -> json.failure (json.Array es) = None.
Proof.
  induction 1 as [|x es Hx _ IH]; [reflexivity|].
  change (json.failure (json.Array (x :: es)))
    with (match json.failure x with
          | Some e => Some e
          | None => json.failure (json.Array es)
          end).
  rewrite Hx. exact IH.
Qed.

Lemma failure_Object (ms : list (string * json.value)) :
  Forall (fun m => json.failure (snd m) = None) ms -> json.failure (json.Object ms) = None.
Proof.
  induction 1 as [|[k x] ms Hx _ IH]; [reflexivity|].
  rewrite failure_Object_cons. cbn [snd] in Hx. rewrite Hx. exact IH.
Qed.

Lemma failure_slice {A : Type} `{json.Marshaler A} (l : list A) :
  (forall x : A, json.failure (json.toJSON x) = None) ->
  json.failure (json.toJSON l) = None.
Proof.
  intros Hx. apply failure_Array. apply Forall_map. apply Forall_forall. intros x _.
  apply Hx.
Qed.

Lemma failure_map (m : gmap string string) : json.failure (json.toJSON m) = None.
Proof.
  apply failure_Object. apply Forall_map. apply Forall_forall. intros kv _. reflexivity.
Qed.

Lemma failure_gomap (m : gomap) : json.failure (json.toJSON m) = None.
Proof. destruct m as [m|]; [apply failure_map|reflexivity]. Qed.

Lemma failure_field {A : Type} `{json.Marshaler A} (name : string) (v : A) :
  json.failure (json.Object (json.field name v)) = json.failure (json.toJSON v).
Proof.
  unfold json.field. rewrite failure_Object_cons.
  destruct (json.failure (json.toJSON v)); reflexivity.
Qed.

Lemma failure_omitempty {A : Type} `{json.Marshaler A} (name : string) (e : bool) (v : A) :
  json.failure (json.toJSON v) = None ->
  json.failure (json.Object (json.omitempty name e v)) = None.
Proof. intros Hv. destruct e; [reflexivity|]. exact (eq_trans (failure_field name v) Hv). Qed.

Lemma failure_EnvVarFingerprint (e : EnvVarFingerprint.t) :
  json.failure (json.toJSON e) = None.
Proof. destruct e as [n v]. unfold json.toJSON, EnvVarFingerprint.marshal.
       cbn [EnvVarFingerprint.Name EnvVarFingerprint.Value].
       destruct (String.eqb v EmptyString); reflexivity. Qed.

Lemma failure_ContainerPortFingerprint (p : ContainerPortFingerprint.t) :
  json.failure (json.toJSON p) = None.
Proof. destruct p as [n c q]. unfold json.toJSON, ContainerPortFingerprint.marshal.
       cbn [ContainerPortFingerprint.Name ContainerPortFingerprint.ContainerPort
            ContainerPortFingerprint.Protocol].
       destruct (String.eqb n EmptyString), (String.eqb q EmptyString); reflexivity. Qed.

Lemma failure_ResourceClaim (c : ResourceClaim.t) : json.failure (json.toJSON c) = None.
Proof. destruct c as [n r]. unfold json.toJSON, ResourceClaim.marshal.
       cbn [ResourceClaim.Name ResourceClaim.Request].
       destruct (String.eqb r EmptyString); reflexivity. Qed.

Lemma failure_ResourceRequirements (r : ResourceRequirements.t) :
  json.failure (json.toJSON r) = None.
Proof.
  unfold json.toJSON at 1. unfold ResourceRequirements.marshal.
  rewrite !failure_Object_app.
  rewrite (failure_omitempty "limits") by apply failure_gomap.
  rewrite (failure_omitempty "requests") by apply failure_gomap.
  apply failure_omitempty. apply failure_slice. exact failure_ResourceClaim.
Qed.

Lemma failure_ContainerFingerprint (c : ContainerFingerprint.t) :
  json.failure (json.toJSON c) = None.
Proof.
  unfold json.toJSON at 1. unfold ContainerFingerprint.marshal.
  rewrite !failure_Object_app, !failure_field.
  change (json.failure (json.toJSON (ContainerFingerprint.Name c))) with (@None error_value).
  change (json.failure (json.toJSON (ContainerFingerprint.Image c))) with (@None error_value).
  rewrite (failure_omitempty "env")
    by (apply failure_slice; exact failure_EnvVarFingerprint).
  rewrite (failure_omitempty "ports")
    by (apply failure_slice; exact failure_ContainerPortFingerprint).
  apply failure_ResourceRequirements.
Qed.

Lemma failure_PodTemplateFingerprint (t : PodTemplateFingerprint.t) :
  json.failure (json.toJSON t) = None.
Proof.
  destruct t as [l a c]. rewrite toJSON_PodTemplateFingerprint.
  rewrite !failure_Object_app, failure_field.
  rewrite (failure_omitempty "labels") by apply failure_gomap.
  rewrite (failure_omitempty "annotations") by apply failure_gomap.
  apply failure_slice. exact failure_ContainerFingerprint.
Qed.

Lemma failure_ServicePortFingerprint (p : ServicePortFingerprint.t) :
  json.failure (json.toJSON p) = None.
Proof.
  destruct p as [n q p t d]. unfold json.toJSON, ServicePortFingerprint.marshal.
  cbn [ServicePortFingerprint.Name ServicePortFingerprint.Protocol ServicePortFingerprint.Port
       ServicePortFingerprint.TargetPort ServicePortFingerprint.NodePort].
  destruct (String.eqb n EmptyString), (String.eqb q EmptyString), (d =? 0); reflexivity.
Qed.

Lemma failure_ServiceFingerprint (f : ServiceFingerprint.t) :
  json.failure (json.toJSON f) = None.
Proof.
  destruct f as [t s p]. rewrite toJSON_ServiceFingerprint.
  rewrite !failure_Object_app, !failure_field.
  change (json.failure (json.toJSON t)) with (@None error_value).
  rewrite (failure_omitempty "selector") by apply failure_gomap.
  apply failure_slice. exact failure_ServicePortFingerprint.
Qed.

Lemma failure_ptr (o : option intstr.IntOrString) :
  json.failure (json.toJSON o) = None <-> possible_ptr o = true.
Proof.
  destruct o as [[t i s]|]; [|split; reflexivity].
  unfold possible_ptr, possible, json.toJSON, json.marshal_ptr, json.toJSON, intstr.marshal.
  cbn [intstr.Type_ intstr.IntVal intstr.StrVal].
  destruct (t =? intstr.Int); [split; reflexivity|].
  destruct (t =? intstr.String_); split; try reflexivity; discriminate.
Qed.

Lemma failure_DeploymentStrategy (s : DeploymentStrategy.t) :
  json.failure (json.toJSON s) = None <-> strategy_marshals s = true.
Proof.
  destruct s as [t [[u g]|]]; unfold strategy_marshals;
    cbn [DeploymentStrategy.RollingUpdate RollingUpdateDeployment.MaxUnavailable
         RollingUpdateDeployment.MaxSurge].
  2:{ unfold json.toJSON, DeploymentStrategy.marshal. cbn [DeploymentStrategy.Type_
        DeploymentStrategy.RollingUpdate].
      destruct (String.eqb t EmptyString); split; reflexivity. }
  assert (Hr : json.failure (json.toJSON (DeploymentStrategy.mk t (Some (RollingUpdateDeployment.mk u g))))
               = match json.failure (json.toJSON u) with
                 | Some e => Some e
                 | None => json.failure (json.toJSON g)
                 end).
  { unfold json.toJSON at 1. unfold DeploymentStrategy.marshal.
    cbn [DeploymentStrategy.Type_ DeploymentStrategy.RollingUpdate].
    rewrite failure_Object_app.
    rewrite (failure_omitempty "type") by reflexivity.
    change (json.omitempty "rollingUpdate" false (Some (RollingUpdateDeployment.mk u g)))
      with (json.field "rollingUpdate" (RollingUpdateDeployment.mk u g)).
    rewrite failure_field.
    unfold json.toJSON at 1. unfold RollingUpdateDeployment.marshal.
    cbn [RollingUpdateDeployment.MaxUnavailable RollingUpdateDeployment.MaxSurge].
    rewrite failure_Object_app.
    assert (Hp : forall (name : string) (o : option intstr.IntOrString),
               json.failure (json.Object (json.omitempty name (bool_decide (o = None)) o))
               = json.failure (json.toJSON o)).
    { intros name [x|].
      - rewrite bool_decide_eq_false_2 by discriminate. apply failure_field.
      - reflexivity. }
    rewrite !Hp. reflexivity. }
  rewrite Hr, andb_true_iff, <- !failure_ptr.
  destruct (json.failure (json.toJSON u)); split; try tauto; try discriminate.
Qed.

Lemma failure_DeploymentFingerprint (f : DeploymentFingerprint.t) :
  json.failure (json.toJSON f)
  = json.failure (json.toJSON (DeploymentFingerprint.Strategy f)).
Proof.
  destruct f as [r s t]. rewrite toJSON_DeploymentFingerprint.
  cbn [DeploymentFingerprint.Strategy].
  rewrite !failure_Object_app, !failure_field, failure_PodTemplateFingerprint.
  assert (Hr : json.failure
                 (json.Object (json.omitempty "replicas"
                                 (match r with Some _ => false | None => true end) r)) = None)
    by (destruct r; reflexivity).
  rewrite Hr. destruct (json.failure (json.toJSON s)); reflexivity.
Qed.

End Failures.


Section Baselines.
Context {O : Type} `{Object O}.
Variable Hash : O -> string * error.
Variable kind : string.

Lemma undigestible_baseline (req : Request) (w : World O) (o : O)
    (labels a : gmap string string) (e h : string) :
  store_wf w ->
  fetch w (Request_NamespacedName req) = inl o ->
  GetLabels o = Some labels -> labels !! LabelEnabled = Some "true" ->
  GetAnnotations o = Some a -> a !! AnnExpectedHash = Some e -> e <> EmptyString ->
  ~ is_digest e ->
  Hash o = (h, None) -> is_digest h ->
  patch_fault w = None ->
  let r := Reconcile Hash kind req w in
  annotation (snd r) (Request_NamespacedName req) AnnDrifted = Some "true"
  /\ warnings (calls_since w (snd r))
     = [drift_event kind (Request_NamespacedName req) e h].
Proof.
  intros Hwf Hf El Ev Ea He Hne Hnd Hh Hd Hpf r. subst r.
  destruct (verdict_outcome Hash kind req w o labels a e h
              Hwf Hf El Ev Ea He Hne Hh Hpf) as [Hkey ->].
  cbn [fst snd]. rewrite calls_since_committed. rewrite <- Hkey.
  rewrite annotation_committed.
  assert (Hexp : expected_of o = e) by exact (expected_present o a e Ea He).
  destruct (String.eqb_spec h e) as [E|_]; [rewrite E in Hd; contradiction|].
  cbn [negb]. split; [|reflexivity].
  apply lookup_union_Some_l. unfold staged. rewrite Hexp.
  destruct (String.eqb_spec h e) as [E|_]; [rewrite E in Hd; contradiction|].
  cbn [negb].
  destruct (is_nil (GetAnnotations o)
            || String.eqb (index (GetAnnotations o) AnnDriftedAt) EmptyString);
    owned_keys; reflexivity.
Qed.

End Baselines.

(** X13. A baseline no hash can equal. For an opted-in Deployment whose hash
    is computed (and for every opted-in Service) whose recorded baseline is
    not empty and is not 64 lowercase hexadecimal characters, whatever its
    spec: when the patch goes through, the reconciliation records drifted
    as "true" and emits the drift warning. Upper-case digests, prefixed
    digests and digests with surrounding white space are such baselines. *)
Theorem malformed_baseline_always_drifts (S : sort.SortSlice) (req : Request) :
  (forall (w : World Deployment.t) (dep : Deployment.t) (labels a : gmap string string)
          (e : string),
     store_wf w ->
     fetch w (Request_NamespacedName req) = inl dep ->
     GetLabels dep = Some labels -> labels !! LabelEnabled = Some "true" ->
     GetAnnotations dep = Some a -> a !! AnnExpectedHash = Some e -> e <> EmptyString ->
     ~ is_digest e ->
     snd (HashDeployment dep) = None ->
     patch_fault w = None ->
     let r := DeploymentReconciler_Reconcile req w in
     annotation (snd r) (Request_NamespacedName req) AnnDrifted = Some "true"
     /\ warnings (calls_since w (snd r))
        = [drift_event "Deployment" (Request_NamespacedName req) e
             (fst (HashDeployment dep))])
  /\ (forall (w : World Service.t) (svc : Service.t) (labels a : gmap string string)
             (e : string),
        store_wf w ->
        fetch w (Request_NamespacedName req) = inl svc ->
        GetLabels svc = Some labels -> labels !! LabelEnabled = Some "true" ->
        GetAnnotations svc = Some a -> a !! AnnExpectedHash = Some e -> e <> EmptyString ->
        ~ is_digest e ->
        patch_fault w = None ->
        let r := ServiceReconciler_Reconcile req w in
        annotation (snd r) (Request_NamespacedName req) AnnDrifted = Some "true"
        /\ warnings (calls_since w (snd r))
           = [drift_event "Service" (Request_NamespacedName req) e (fst (HashService svc))]).
Proof.
  split.
  - intros w dep labels a e Hwf Hf El Ev Ea He Hne Hnd Hok Hpf.
    unfold DeploymentReconciler_Reconcile.
    apply (undigestible_baseline HashDeployment "Deployment" req w dep labels a e
             (fst (HashDeployment dep))); try assumption.
    + destruct (HashDeployment dep) as [h err]. cbn [fst snd] in *. congruence.
    + unfold HashDeployment in *. apply hashJSON_digest. exact Hok.
  - intros w svc labels a e Hwf Hf El Ev Ea He Hne Hnd Hpf.
    assert (Hok : snd (HashService svc) = None).
    { unfold HashService. rewrite hashJSON_error. apply failure_ServiceFingerprint. }
    unfold ServiceReconciler_Reconcile.
    apply (undigestible_baseline HashService "Service" req w svc labels a e
             (fst (HashService svc))); try assumption.
    + destruct (HashService svc) as [h err]. cbn [fst snd] in *. congruence.
    + unfold HashService in *. apply hashJSON_digest. exact Hok.
Qed.

Section Texts.

Lemma app_string_assoc (a b c : string) : (a +:+ b) +:+ c = a +:+ (b +:+ c).
Proof.
  induction a as [|x a IH]; [reflexivity|].
  change (String x ((a +:+ b) +:+ c) = String x (a +:+ (b +:+ c))).
  rewrite IH. reflexivity.
Qed.

Lemma app_string_nil_r (a : string) : a +:+ EmptyString = a.
Proof.
  induction a as [|x a IH]; [reflexivity|].
  change (String x (a +:+ EmptyString) = String x a). rewrite IH. reflexivity.
Qed.



End Texts.


Section Trimming.

Lemma rev_app_app (s t u : string) :
  String.rev_app s t +:+ u = String.rev_app s (t +:+ u).
Proof.
  revert t. induction s as [|x s IH]; intros t; [reflexivity|].
  cbn [String.rev_app]. rewrite IH. reflexivity.
Qed.

Lemma rev_app_rev_app (s t u : string) :
  String.rev_app (String.rev_app s t) u = String.rev_app t (s +:+ u).
Proof.
  revert t u. induction s as [|x s IH]; intros t u; [reflexivity|].
  cbn [String.rev_app]. rewrite IH. reflexivity.
Qed.

Lemma rev_involutive (s : string) : String.rev (String.rev s) = s.
Proof. unfold String.rev. rewrite rev_app_rev_app. apply app_string_nil_r. Qed.

Lemma rev_app_append (a b t : string) :
  String.rev_app (a +:+ b) t = String.rev_app b (String.rev_app a t).
Proof.
  revert t. induction a as [|x a IH]; intros t; [reflexivity|].
  change (String.rev_app (a +:+ b) (String x t)
          = String.rev_app b (String.rev_app a (String x t))).
  apply IH.
Qed.

Lemma rev_append (a b : string) : String.rev (a +:+ b) = String.rev b +:+ String.rev a.
Proof.
  unfold String.rev. rewrite rev_app_append, rev_app_app. reflexivity.
Qed.

Lemma strip_prefix_Some (p s r : string) :
  strings.strip_prefix p s = Some r -> s = p +:+ r.
Proof.
  revert s. induction p as [|a p IH]; intros s E.
  - cbn in E. injection E as ->. reflexivity.
  - destruct s as [|b s]; [discriminate|]. cbn [strings.strip_prefix] in E.
    destruct (Ascii.eqb_spec a b) as [->|]; [|discriminate].
    change (String b s = String b (p +:+ r)). f_equal. apply IH. exact E.
Qed.

Lemma strip_prefix_extends (p s t : string) :
  strings.strip_prefix p s <> None -> strings.strip_prefix p (s +:+ t) <> None.
Proof.
  revert s. induction p as [|a p IH]; intros s E; [discriminate|].
  destruct s as [|b s]; [contradiction|].
  change (strings.strip_prefix (String a p) (String b (s +:+ t)) <> None).
  cbn [strings.strip_prefix] in E |- *.
  destruct (Ascii.eqb a b); [apply IH; exact E|contradiction].
Qed.

Lemma strip_any_Some (ps : list string) (s r : string) :
  strings.strip_any ps s = Some r -> exists p, p ∈ ps /\ s = p +:+ r.
Proof.
  induction ps as [|p l IH]; [discriminate|]. cbn [strings.strip_any].
  destruct (strings.strip_prefix p s) as [r'|] eqn:E.
  - intros [= ->]. exists p. split; [apply list_elem_of_here|]. apply strip_prefix_Some. exact E.
  - intros E'. destruct (IH E') as (q & Hq & Hs). exists q. split; [apply list_elem_of_further; exact Hq|exact Hs].
Qed.

Lemma strip_any_extends (ps : list string) (s t : string) :
  strings.strip_any ps (s +:+ t) = None -> strings.strip_any ps s = None.
Proof.
  induction ps as [|p l IH]; [reflexivity|].
  cbn [strings.strip_any].
  destruct (strings.strip_prefix p (s +:+ t)) eqn:E; [discriminate|].
  destruct (strings.strip_prefix p s) eqn:E'.
  - exfalso. apply (strip_prefix_extends p s t); [rewrite E'; discriminate|exact E].
  - exact IH.
Qed.

Variable ps : list string.
Hypothesis ps_nonempty : Forall (fun p => p <> EmptyString) ps.

Lemma strip_any_shorter (s r : string) :
  strings.strip_any ps s = Some r -> (String.length r < String.length s)%nat.
Proof.
  intros E. destruct (strip_any_Some ps s r E) as (p & Hp & ->).
  rewrite Forall_forall in ps_nonempty. pose proof (ps_nonempty p Hp) as Hne.
  rewrite length_app_string. destruct p; [contradiction|]. cbn [String.length]. lia.
Qed.

Lemma strip_any_empty : strings.strip_any ps EmptyString = None.
Proof.
  destruct (strings.strip_any ps EmptyString) as [r|] eqn:E; [|reflexivity].
  apply strip_any_shorter in E. cbn in E. lia.
Qed.

Lemma trim_left_clean (fuel : nat) (s : string) :
  (String.length s <= fuel)%nat ->
  strings.strip_any ps (strings.trim_left fuel ps s) = None.
Proof.
  revert s. induction fuel as [|fuel IH]; intros s Hl.
  - destruct s; [|cbn in Hl; lia]. apply strip_any_empty.
  - cbn [strings.trim_left].
    destruct (strings.strip_any ps s) as [r|] eqn:E; [|exact E].
    apply IH. apply strip_any_shorter in E. lia.
Qed.

Lemma trim_left_fixed (fuel : nat) (s : string) :
  strings.strip_any ps s = None -> strings.trim_left fuel ps s = s.
Proof. intros E. destruct fuel; [reflexivity|]. cbn [strings.trim_left]. rewrite E. reflexivity. Qed.

Lemma trim_left_suffix (fuel : nat) (s : string) :
  exists pre, s = pre +:+ strings.trim_left fuel ps s.
Proof.
  revert s. induction fuel as [|fuel IH]; intros s.
  - exists EmptyString. reflexivity.
  - cbn [strings.trim_left]. destruct (strings.strip_any ps s) as [r|] eqn:E.
    + destruct (strip_any_Some ps s r E) as (p & _ & ->). destruct (IH r) as [pre Hr].
      exists (p +:+ pre). rewrite app_string_assoc, <- Hr. reflexivity.
    + exists EmptyString. reflexivity.
Qed.

End Trimming.

Lemma spaces_nonempty :
  Forall (fun p => p <> EmptyString) strings.spaces
  /\ Forall (fun p => p <> EmptyString) (map String.rev strings.spaces).
Proof. split; vm_compute; repeat (constructor; [discriminate|]); constructor. Qed.

Lemma compatible_comm (s t : string) : compatible s t = compatible t s.
Proof.
  revert t. induction s as [|a s IH]; intros [|b t]; try reflexivity.
  cbn [compatible]. rewrite IH, Ascii.eqb_sym. reflexivity.
Qed.

Lemma compatible_prefixes (t1 t2 x y : string) :
  t1 +:+ x = t2 +:+ y -> compatible t1 t2 = true.
Proof.
  revert t2. induction t1 as [|a t1 IH]; intros [|b t2] E; try reflexivity.
  change (String a (t1 +:+ x) = String b (t2 +:+ y)) in E. injection E as -> E.
  cbn [compatible]. rewrite Ascii.eqb_refl. exact (IH t2 E).
Qed.

(** Of two prefixes of one text, one is a prefix of the other. *)
Lemma prefixes_split (a v x y : string) :
  a +:+ x = v +:+ y ->
  (exists b, v = a +:+ b) \/ (exists b, b <> EmptyString /\ a = v +:+ b /\ y = b +:+ x).
Proof.
  revert v. induction a as [|c a IH]; intros v E.
  - left. exists v. reflexivity.
  - destruct v as [|d v].
    + right. exists (String c a). split; [discriminate|]. split; [reflexivity|].
      symmetry. exact E.
    + change (String c (a +:+ x) = String d (v +:+ y)) in E. injection E as -> E.
      destruct (IH v E) as [[b ->]|(b & Hb & -> & ->)].
      * left. exists b. reflexivity.
      * right. exists b. split; [exact Hb|]. split; reflexivity.
Qed.

Lemma proper_tails_split (v b : string) :
  v <> EmptyString -> b <> EmptyString -> b ∈ proper_tails (v +:+ b).
Proof.
  induction v as [|c v IH]; intros Hv Hb; [contradiction|].
  destruct v as [|d v].
  - destruct b as [|e b]; [contradiction|]. apply list_elem_of_here.
  - change (String c (String d v) +:+ b) with (String c (String d (v +:+ b))).
    cbn [proper_tails]. apply list_elem_of_further.
    apply (IH ltac:(discriminate) Hb).
Qed.

Lemma strip_prefix_self (a x : string) : strings.strip_prefix a (a +:+ x) = Some x.
Proof.
  induction a as [|c a IH]; [destruct x; reflexivity|].
  change (strings.strip_prefix (String c a) (String c (a +:+ x)) = Some x).
  cbn [strings.strip_prefix]. rewrite Ascii.eqb_refl. exact IH.
Qed.

Lemma strip_any_None (ps : list string) (s : string) :
  strings.strip_any ps s = None -> forall a, a ∈ ps -> strings.strip_prefix a s = None.
Proof.
  induction ps as [|p ps IH]; intros E a Ha; [inversion Ha|].
  cbn [strings.strip_any] in E.
  destruct (strings.strip_prefix p s) eqn:Ep; [discriminate|].
  apply elem_of_cons in Ha as [->|Ha]; [exact Ep|exact (IH E a Ha)].
Qed.

Section Blanks.
Variable ps : list string.
Hypothesis ps_nonempty : Forall (fun p => p <> EmptyString) ps.
Hypothesis ps_code : prefix_code ps = true.

Lemma code_eq (a b : string) : a ∈ ps -> b ∈ ps -> compatible a b = true -> a = b.
Proof.
  intros Ha Hb Hc. unfold prefix_code in ps_code.
  rewrite forallb_forall in ps_code.
  pose proof (ps_code a (proj1 (list_elem_of_In _ _) Ha)) as H1.
  rewrite forallb_forall in H1.
  pose proof (H1 b (proj1 (list_elem_of_In _ _) Hb)) as H2.
  rewrite Hc in H2. apply String.eqb_eq. exact H2.
Qed.

Lemma strip_any_self (a x : string) : a ∈ ps -> strings.strip_any ps (a +:+ x) = Some x.
Proof.
  intros Ha.
  destruct (strings.strip_any ps (a +:+ x)) as [r|] eqn:E.
  - destruct (strip_any_Some ps _ r E) as (b & Hb & Hs).
    pose proof (code_eq a b Ha Hb (compatible_prefixes _ _ _ _ Hs)) as <-.
    apply String.app_inj in Hs. congruence.
  - pose proof (strip_any_None ps _ E a Ha) as Hn. rewrite strip_prefix_self in Hn.
    discriminate.
Qed.

Lemma trim_left_more (f1 f2 : nat) (s : string) :
  (String.length s <= f1)%nat -> (String.length s <= f2)%nat ->
  strings.trim_left f1 ps s = strings.trim_left f2 ps s.
Proof.
  revert f2 s. induction f1 as [|f1 IH]; intros f2 s H1 H2.
  - destruct s; [|cbn in H1; lia].
    destruct f2; [reflexivity|]. cbn [strings.trim_left].
    rewrite (strip_any_empty ps ps_nonempty). reflexivity.
  - destruct f2 as [|f2].
    + destruct s; [|cbn in H2; lia]. cbn [strings.trim_left].
      rewrite (strip_any_empty ps ps_nonempty). reflexivity.
    + cbn [strings.trim_left].
      destruct (strings.strip_any ps s) as [r|] eqn:E; [|reflexivity].
      pose proof (strip_any_shorter ps ps_nonempty s r E). apply IH; lia.
Qed.

(** A run of patterns in front is trimmed away. *)
Lemma TrimLeft_blank (p x : string) :
  blank ps p -> strings.TrimLeft ps (p +:+ x) = strings.TrimLeft ps x.
Proof.
  induction 1 as [|a s Ha _ IH]; [reflexivity|].
  rewrite app_string_assoc, <- IH. unfold strings.TrimLeft.
  assert (Hl : (String.length (s +:+ x) < String.length (a +:+ s +:+ x))%nat).
  { rewrite (length_app_string a). rewrite Forall_forall in ps_nonempty.
    pose proof (ps_nonempty a Ha). destruct a; [contradiction|]. cbn [String.length]. lia. }
  destruct (String.length (a +:+ s +:+ x)) as [|n] eqn:En; [lia|].
  cbn [strings.trim_left]. rewrite (strip_any_self a (s +:+ x) Ha).
  apply trim_left_more; lia.
Qed.

Lemma blank_app (x y : string) : blank ps x -> blank ps y -> blank ps (x +:+ y).
Proof.
  induction 1 as [|a s Ha _ IH]; intros Hy; [exact Hy|].
  rewrite app_string_assoc. apply blank_cons; [exact Ha|exact (IH Hy)].
Qed.

Hypothesis ps_delimiting : self_delimiting ps = true.

(** A text with no pattern in front has none with a run of patterns
    behind it either. *)
Lemma clean_app (v q : string) :
  strings.strip_any ps v = None -> v <> EmptyString -> blank ps q ->
  strings.strip_any ps (v +:+ q) = None.
Proof.
  intros Hv Hne Hq.
  destruct (strings.strip_any ps (v +:+ q)) as [r|] eqn:E; [exfalso|reflexivity].
  destruct (strip_any_Some ps _ r E) as (a & Ha & Hs). symmetry in Hs.
  destruct (prefixes_split a v r q Hs) as [[b ->]|(b & Hb & -> & ->)].
  - pose proof (strip_any_None ps _ Hv a Ha) as Hn. rewrite strip_prefix_self in Hn.
    discriminate.
  - inversion Hq as [Hq0|a' s Ha' _ Hq0].
    + destruct b; [contradiction|discriminate Hq0].
    + pose proof (compatible_prefixes _ _ _ _ Hq0) as Hc.
      unfold self_delimiting in ps_delimiting. rewrite forallb_forall in ps_delimiting.
      pose proof (ps_delimiting _ (proj1 (list_elem_of_In _ _) Ha)) as H1.
      rewrite forallb_forall in H1.
      pose proof (H1 b (proj1 (list_elem_of_In _ _) (proper_tails_split v b Hne Hb))) as H2.
      rewrite forallb_forall in H2.
      pose proof (H2 a' (proj1 (list_elem_of_In _ _) Ha')) as H3.
      rewrite compatible_comm in Hc. rewrite Hc in H3. discriminate.
Qed.

End Blanks.

Lemma spaces_codes :
  prefix_code strings.spaces = true
  /\ prefix_code (map String.rev strings.spaces) = true
  /\ self_delimiting strings.spaces = true.
Proof. repeat split; vm_compute; reflexivity. Qed.

Lemma blank_rev (q : string) :
  blank strings.spaces q -> blank (map String.rev strings.spaces) (String.rev q).
Proof.
  destruct spaces_nonempty as [_ Hr]. destruct spaces_codes as (_ & Hc & _).
  induction 1 as [|a s Ha _ IH]; [constructor|].
  rewrite rev_append. apply blank_app; [exact IH|].
  rewrite <- (app_string_nil_r (String.rev a)). apply blank_cons; [|constructor].
  apply list_elem_of_fmap. exists a. split; [reflexivity|exact Ha].
Qed.

(** White space around a text is trimmed away, and the text is kept. *)
Lemma TrimSpace_padded (p v q : string) :
  blank strings.spaces p -> blank strings.spaces q -> trimmed v ->
  strings.TrimSpace (p +:+ v +:+ q) = v.
Proof.
  intros Hp Hq [Hv Hv'].
  destruct spaces_nonempty as [Hl Hr]. destruct spaces_codes as (Hc & Hc' & Hd).
  unfold strings.TrimSpace.
  rewrite (TrimLeft_blank strings.spaces Hl Hc p (v +:+ q) Hp).
  assert (Hleft : strings.TrimLeft strings.spaces (v +:+ q) = v +:+ q
                  \/ (v = EmptyString
                      /\ strings.TrimLeft strings.spaces (v +:+ q) = EmptyString)).
  { destruct v as [|c v].
    - right. split; [reflexivity|].
      rewrite <- (app_string_nil_r (EmptyString +:+ q)).
      rewrite (TrimLeft_blank strings.spaces Hl Hc (EmptyString +:+ q) EmptyString Hq).
      reflexivity.
    - left. unfold strings.TrimLeft. apply trim_left_fixed.
      apply (clean_app strings.spaces Hd); [exact Hv|discriminate|exact Hq]. }
  destruct Hleft as [->|[-> ->]].
  - rewrite rev_append.
    rewrite (TrimLeft_blank _ Hr Hc' (String.rev q) (String.rev v) (blank_rev q Hq)).
    unfold strings.TrimLeft. rewrite (trim_left_fixed _ _ _ Hv'). apply rev_involutive.
  - reflexivity.
Qed.

Lemma canonicalizeMap_padded (m : gmap string string) (k p v q : string) :
  blank strings.spaces p -> blank strings.spaces q -> trimmed v ->
  canonicalizeMap (Some (<[k := p +:+ v +:+ q]> m)) = canonicalizeMap (Some (<[k := v]> m)).
Proof.
  intros Hp Hq Hv. unfold canonicalizeMap. rewrite !fmap_insert.
  rewrite (TrimSpace_padded p v q Hp Hq Hv).
  pose proof (TrimSpace_padded EmptyString v EmptyString (blank_nil _) (blank_nil _) Hv) as E.
  rewrite app_string_nil_r in E. change (EmptyString +:+ v) with v in E.
  rewrite E. reflexivity.
Qed.

(** X15. White space around the values of the template maps is not part of
    the fingerprint. Trimming removes a run of white space in front of a
    text and one behind it and keeps the text between them, when that text
    has no white space at either end; so a Deployment one of whose template
    label or annotation values is padded with white space has the hash of
    the Deployment with the bare value, and so has a Service with a padded
    selector value. *)
Theorem surrounding_white_space_is_not_hashed (S : sort.SortSlice)
    (k p v q : string) (m : gmap string string) :
  blank strings.spaces p -> blank strings.spaces q -> trimmed v ->
  strings.TrimSpace (p +:+ v +:+ q) = v
  /\ (forall (meta : ObjectMeta.t) (replicas : option Z) (strategy : DeploymentStrategy.t)
             (other : gomap) (containers : list Container.t),
        HashDeployment (deployment_of meta replicas strategy
                          (Some (<[k := p +:+ v +:+ q]> m)) other containers)
        = HashDeployment (deployment_of meta replicas strategy
                            (Some (<[k := v]> m)) other containers)
        /\ HashDeployment (deployment_of meta replicas strategy other
                             (Some (<[k := p +:+ v +:+ q]> m)) containers)
           = HashDeployment (deployment_of meta replicas strategy other
                               (Some (<[k := v]> m)) containers))
  /\ (forall (meta : ObjectMeta.t) (type : string) (ports : list ServicePort.t),
        HashService (service_of meta type (Some (<[k := p +:+ v +:+ q]> m)) ports)
        = HashService (service_of meta type (Some (<[k := v]> m)) ports)).
Proof.
  intros Hp Hq Hv. split; [exact (TrimSpace_padded p v q Hp Hq Hv)|].
  pose proof (canonicalizeMap_padded m k p v q Hp Hq Hv) as Hm.
  split.
  - intros. split; unfold HashDeployment; f_equal;
      unfold DeploymentCanonical, deployment_of, fingerprintPodTemplate; cbv zeta;
      cbn [Deployment.Spec DeploymentSpec.Replicas DeploymentSpec.Strategy
           DeploymentSpec.Template PodTemplateSpec.Labels PodTemplateSpec.Annotations
           PodTemplateSpec.Spec PodSpec.Containers PodTemplateFingerprint.Labels
           PodTemplateFingerprint.Annotations PodTemplateFingerprint.Containers];
      rewrite !copyMap_id, Hm; reflexivity.
  - intros. unfold HashService. f_equal.
    unfold ServiceCanonical, service_of. cbv zeta.
    cbn [Service.Spec ServiceSpec.Type_ ServiceSpec.Selector ServiceSpec.Ports].
    rewrite !copyMap_id, Hm. reflexivity.
Qed.

Section Stored.
Context {O : Type} `{Object O}.
Variable Hash : O -> string * error.
Variable kind : string.

(** A stored object after a reconciliation: itself, or itself with other
    annotations. *)
Lemma reconcile_stored (req : Request) (w : World O) (key : NamespacedName) (o : O) :
  store_wf w ->
  objects w !! key = Some o ->
  objects (snd (Reconcile Hash kind req w)) !! key = Some o
  \/ exists a, objects (snd (Reconcile Hash kind req w)) !! key = Some (SetAnnotations a o).
Proof.
  intros Hwf Ho. rewrite (Reconcile_outcome Hash kind req w Hwf), outcome_objects.
  destruct (staging Hash req w) as [[o' kv]|] eqn:Est; [|left; exact Ho].
  destruct (patch_fault w); [left; exact Ho|].
  destruct (staging_stored Hash req w o' kv Hwf Est) as [_ Hst].
  destruct (decide (key = key_of o')) as [->|Hne].
  - right. rewrite Hst in Ho. injection Ho as <-. eexists. apply lookup_insert_eq.
  - left. rewrite lookup_insert_ne by congruence. exact Ho.
Qed.

End Stored.

(** X16. The operator does not cause the drift it looks for. The hashes read
    nothing of the metadata, so the annotations a reconciliation writes do
    not change the hash: after any reconciliation from a well-formed store
    every stored Deployment (and every stored Service) is still stored under
    its key with the spec, the labels and the hash it had before. *)
Theorem reconciliation_changes_no_hash (S : sort.SortSlice) (req : Request) :
  (forall (w : World Deployment.t) (key : NamespacedName) (dep : Deployment.t),
     store_wf w ->
     objects w !! key = Some dep ->
     exists dep',
       objects (snd (DeploymentReconciler_Reconcile req w)) !! key = Some dep'
       /\ Deployment.Spec dep' = Deployment.Spec dep
       /\ GetLabels dep' = GetLabels dep
       /\ HashDeployment dep' = HashDeployment dep)
  /\ (forall (w : World Service.t) (key : NamespacedName) (svc : Service.t),
        store_wf w ->
        objects w !! key = Some svc ->
        exists svc',
          objects (snd (ServiceReconciler_Reconcile req w)) !! key = Some svc'
          /\ Service.Spec svc' = Service.Spec svc
          /\ GetLabels svc' = GetLabels svc
          /\ HashService svc' = HashService svc).
Proof.
  split; intros w key o Hwf Ho.
  - destruct (reconcile_stored HashDeployment "Deployment" req w key o Hwf Ho) as [E|[a E]];
      eexists; (split; [exact E|]); repeat split.
  - destruct (reconcile_stored HashService "Service" req w key o Hwf Ho) as [E|[a E]];
      eexists; (split; [exact E|]); repeat split.
Qed.

(* ===================================================================== *)
(** * The canonical text is faithful to the fingerprint *)
(* ===================================================================== *)

Lemma app_string_cons (a : ascii) (s t : string) : String a s +:+ t = String a (s +:+ t).
Proof. reflexivity. Qed.

Lemma app_string_nil_l (t : string) : EmptyString +:+ t = t.
Proof. reflexivity. Qed.

Lemma every_ascii_all (P : ascii -> bool) :
  forallb P every_ascii = true -> forall a, P a = true.
Proof.
  intros H a. rewrite forallb_forall in H. apply H.
  unfold every_ascii. rewrite <- (ascii_nat_embedding a).
  apply in_map. apply in_seq. pose proof (nat_ascii_bounded a). lia.
Qed.

(** ** Runes *)

Lemma byte_range (a : ascii) : 0 <= utf8.byte a < 256.
Proof.
  unfold utf8.byte. pose proof (N_ascii_bounded a). lia.
Qed.

(** Bits that do not overlap add up. *)
Lemma lor_shiftl_add (a b k : Z) :
  0 <= k -> 0 <= b < 2 ^ k -> Z.lor (Z.shiftl a k) b = a * 2 ^ k + b.
Proof.
  intros Hk Hb. rewrite <- Z.shiftl_mul_pow2 by exact Hk.
  rewrite <- Z.lxor_lor; [symmetry; apply Z.add_nocarry_lxor|].
  all: apply Z.bits_inj'; intros n Hn; rewrite Z.land_spec, Z.bits_0.
  all: destruct (Z.lt_ge_cases n k) as [Hlt|Hge];
    [rewrite Z.shiftl_spec_low by exact Hlt; reflexivity|].
  all: destruct (Z.eq_dec b 0) as [->|Hne]; [rewrite Z.bits_0; apply andb_false_r|].
  all: rewrite (Z.bits_above_log2 b n); [apply andb_false_r|lia|].
  all: apply Z.le_lt_trans with (m := Z.log2 b); [lia|].
  all: apply Z.lt_le_trans with (m := k); [apply Z.log2_lt_pow2; lia|exact Hge].
Qed.

(** The leading bytes and the widths they announce. *)
Lemma first_Some (b : Z) (sz : nat) (lo hi : Z) :
  utf8.first b = Some (sz, (lo, hi)) ->
  0x80 <= lo /\ hi <= 0xBF
  /\ ((sz = 2%nat /\ 0xC2 <= b <= 0xDF)
      \/ (sz = 3%nat /\ 0xE0 <= b <= 0xEF)
      \/ (sz = 4%nat /\ 0xF0 <= b <= 0xF4 /\ (b = 0xF0 -> 0x90 <= lo))).
Proof.
  unfold utf8.first.
  repeat match goal with
         | |- context [if ?c then _ else _] => destruct c eqn:?
         end; intros [= <- <- <-]; lia.
Qed.

Lemma continues_range (b : Z) : utf8.continues b = true <-> 0x80 <= b <= 0xBF.
Proof. unfold utf8.continues. lia. Qed.

(** What decoding yields at a byte from 0x80 on: the error rune of width
    one, or the rune of a well-formed sequence of two, three or four
    bytes. *)
Lemma decode_cases (a0 : ascii) (rest0 : string) :
  0x80 <= utf8.byte a0 ->
  let s := String a0 rest0 in
  let s0 := utf8.byte a0 in
  utf8.DecodeRuneInString s = (utf8.RuneError, 1%nat)
  \/ (exists a1 r, rest0 = String a1 r /\ width s0 = 2%nat
        /\ 0xC2 <= s0 <= 0xDF /\ 0x80 <= utf8.byte a1 <= 0xBF
        /\ utf8.DecodeRuneInString s
           = ((s0 mod 32) * 64 + utf8.byte a1 mod 64, 2%nat))
  \/ (exists a1 a2 r, rest0 = String a1 (String a2 r) /\ width s0 = 3%nat
        /\ 0xE0 <= s0 <= 0xEF /\ 0x80 <= utf8.byte a1 <= 0xBF /\ 0x80 <= utf8.byte a2 <= 0xBF
        /\ utf8.DecodeRuneInString s
           = ((s0 mod 16) * 4096 + ((utf8.byte a1 mod 64) * 64 + utf8.byte a2 mod 64), 3%nat))
  \/ (exists a1 a2 a3 r, rest0 = String a1 (String a2 (String a3 r)) /\ width s0 = 4%nat
        /\ 0xF0 <= s0 <= 0xF4 /\ 0x80 <= utf8.byte a1 <= 0xBF
        /\ (s0 = 0xF0 -> 0x90 <= utf8.byte a1)
        /\ 0x80 <= utf8.byte a2 <= 0xBF /\ 0x80 <= utf8.byte a3 <= 0xBF
        /\ utf8.DecodeRuneInString s
           = ((s0 mod 8) * 262144
              + ((utf8.byte a1 mod 64) * 4096
                 + ((utf8.byte a2 mod 64) * 64 + utf8.byte a3 mod 64)), 4%nat)).
Proof.
  intros H0 s s0. subst s. cbn [utf8.DecodeRuneInString]. fold s0.
  assert (Hself : (s0 <? utf8.RuneSelf) = false) by (unfold utf8.RuneSelf; lia).
  rewrite Hself. unfold width.
  destruct (utf8.first s0) as [[sz [lo hi]]|] eqn:F; [|left; reflexivity].
  apply first_Some in F as (Hlo & Hhi & F).
  destruct rest0 as [|a1 rest1]; [left; reflexivity|].
  destruct ((utf8.byte a1 <? lo) || (hi <? utf8.byte a1)) eqn:R1; [left; reflexivity|].
  assert (H1 : lo <= utf8.byte a1 <= hi) by lia.
  assert (M : forall x k, 0 <= k -> Z.land x (Z.ones k) = x mod 2 ^ k)
    by (intros; apply Z.land_ones; assumption).
  assert (B : forall a, 0 <= utf8.byte a mod 64 < 64)
    by (intros; apply Z.mod_pos_bound; lia).
  destruct F as [(-> & F)|[(-> & F)|(-> & F & F0)]].
  - right; left. exists a1, rest1. repeat split; try lia.
    cbn [Nat.leb]. f_equal.
    change 0x1F with (Z.ones 5). change 0x3F with (Z.ones 6).
    rewrite !M by lia. rewrite lor_shiftl_add; [reflexivity|lia|apply B].
  - cbn [Nat.leb].
    destruct rest1 as [|a2 rest2]; [left; reflexivity|].
    destruct (utf8.continues (utf8.byte a2)) eqn:C2; [|left; reflexivity].
    apply continues_range in C2. cbn [negb].
    right; right; left. exists a1, a2, rest2. repeat split; try lia.
    f_equal.
    change 0x0F with (Z.ones 4). change 0x3F with (Z.ones 6).
    rewrite !M by lia.
    rewrite (lor_shiftl_add (utf8.byte a1 mod 2 ^ 6)); [|lia|apply B].
    rewrite lor_shiftl_add; [reflexivity|lia|].
    pose proof (B a1). pose proof (B a2). change (2 ^ 6) with 64. lia.
  - cbn [Nat.leb].
    destruct rest1 as [|a2 rest2]; [left; reflexivity|].
    destruct (utf8.continues (utf8.byte a2)) eqn:C2; [|left; reflexivity].
    apply continues_range in C2. cbn [negb].
    destruct rest2 as [|a3 rest3]; [left; reflexivity|].
    destruct (utf8.continues (utf8.byte a3)) eqn:C3; [|left; reflexivity].
    apply continues_range in C3. cbn [negb].
    right; right; right. exists a1, a2, a3, rest3. repeat split; try lia.
    f_equal.
    change 0x07 with (Z.ones 3). change 0x3F with (Z.ones 6).
    rewrite !M by lia.
    rewrite (lor_shiftl_add (utf8.byte a2 mod 2 ^ 6)); [|lia|apply B].
    rewrite (lor_shiftl_add (utf8.byte a1 mod 2 ^ 6)); [|lia|].
    2:{ pose proof (B a2). pose proof (B a3). change (2 ^ 6) with 64. lia. }
    rewrite lor_shiftl_add; [reflexivity|lia|].
    pose proof (B a1). pose proof (B a2). pose proof (B a3). change (2 ^ 6) with 64. lia.
Qed.

(** ** Numbers *)

Lemma numeric_not_delimiter (a : ascii) : is_numeric a = true -> is_delimiter a = false.
Proof.
  intros H.
  assert (Hall : implb (is_numeric a) (negb (is_delimiter a)) = true).
  { revert a H. intros a _. revert a. apply every_ascii_all. vm_compute. reflexivity. }
  rewrite H in Hall. destruct (is_delimiter a); [discriminate|reflexivity].
Qed.

Lemma class_split (P : ascii -> bool) (x1 x2 r1 r2 : string) :
  (forall a, P a = true -> is_delimiter a = false) ->
  all_chars P x1 = true -> all_chars P x2 = true ->
  delimited r1 -> delimited r2 ->
  x1 +:+ r1 = x2 +:+ r2 -> x1 = x2 /\ r1 = r2.
Proof.
  intros HP. revert x2. induction x1 as [|a x1 IH]; intros [|b x2] H1 H2 D1 D2 E.
  - split; [reflexivity|exact E].
  - exfalso. rewrite app_string_nil_l, app_string_cons in E. subst r1.
    cbn [all_chars] in H2. apply andb_prop in H2 as [Hb _].
    cbn [delimited] in D1. rewrite (HP b Hb) in D1. discriminate.
  - exfalso. rewrite app_string_nil_l, app_string_cons in E. subst r2.
    cbn [all_chars] in H1. apply andb_prop in H1 as [Ha _].
    cbn [delimited] in D2. rewrite (HP a Ha) in D2. discriminate.
  - rewrite !app_string_cons in E. injection E as -> E.
    cbn [all_chars] in H1, H2. apply andb_prop in H1 as [_ H1]. apply andb_prop in H2 as [_ H2].
    destruct (IH x2 H1 H2 D1 D2 E) as [-> ->]. split; reflexivity.
Qed.

Lemma pretty_N_char_numeric (x : N) : is_numeric (pretty_N_char x) = true.
Proof.
  unfold pretty_N_char.
  destruct x as [|p]; [reflexivity|].
  do 4 (destruct p as [p|p|]; try reflexivity).
Qed.

Lemma pretty_N_go_numeric (x : N) (s : string) :
  all_chars is_numeric s = true -> all_chars is_numeric (pretty_N_go x s) = true.
Proof.
  revert s. induction (N.lt_wf_0 x) as [x _ IH]; intros s Hs.
  destruct (decide (x = 0%N)) as [->|Hx]; [rewrite pretty_N_go_0; exact Hs|].
  rewrite pretty_N_go_step by lia. apply IH.
  - apply N.div_lt; lia.
  - cbn [all_chars]. rewrite pretty_N_char_numeric, Hs. reflexivity.
Qed.

Lemma pretty_N_go_starts (x : N) (a : ascii) (s : string) :
  starts_with is_numeric (String a s) -> starts_with is_numeric (pretty_N_go x (String a s)).
Proof.
  revert a s. induction (N.lt_wf_0 x) as [x _ IH]; intros a s Hs.
  destruct (decide (x = 0%N)) as [->|Hx]; [rewrite pretty_N_go_0; exact Hs|].
  rewrite pretty_N_go_step by lia. apply IH.
  - apply N.div_lt; lia.
  - apply pretty_N_char_numeric.
Qed.

Lemma pretty_positive_numeric (p : positive) :
  all_chars is_numeric (pretty p) = true /\ starts_with is_numeric (pretty p).
Proof.
  unfold pretty, pretty_positive, pretty, pretty_N.
  destruct (decide (N.pos p = 0%N)) as [|_]; [discriminate|].
  split; [apply pretty_N_go_numeric; reflexivity|].
  rewrite pretty_N_go_step by lia. apply pretty_N_go_starts. apply pretty_N_char_numeric.
Qed.

Lemma pretty_Z_numeric (z : Z) :
  all_chars is_numeric (pretty z) = true /\ starts_with is_numeric (pretty z).
Proof.
  destruct z as [|p|p].
  - split; reflexivity.
  - apply pretty_positive_numeric.
  - destruct (pretty_positive_numeric p) as [Ha _].
    change (pretty (Z.neg p)) with (String "-" (pretty p)).
    split; [cbn [all_chars]; rewrite Ha; reflexivity|reflexivity].
Qed.

Lemma number_prefix_free (z1 z2 : Z) (r1 r2 : string) :
  delimited r1 -> delimited r2 ->
  pretty z1 +:+ r1 = pretty z2 +:+ r2 -> z1 = z2 /\ r1 = r2.
Proof.
  intros D1 D2 E.
  destruct (class_split is_numeric (pretty z1) (pretty z2) r1 r2 numeric_not_delimiter
              (proj1 (pretty_Z_numeric z1)) (proj1 (pretty_Z_numeric z2)) D1 D2 E) as [Ez Er].
  split; [exact (pretty_Z_inj _ _ Ez)|exact Er].
Qed.


Lemma decode_width (a0 : ascii) (rest0 : string) :
  (1 <= snd (utf8.DecodeRuneInString (String a0 rest0)) <= String.length (String a0 rest0))%nat.
Proof.
  destruct (Z.ltb_spec (utf8.byte a0) utf8.RuneSelf) as [Hlt|Hge].
  - cbn [utf8.DecodeRuneInString].
    destruct (Z.ltb_spec (utf8.byte a0) utf8.RuneSelf); [|lia]. cbn. lia.
  - unfold utf8.RuneSelf in Hge.
    destruct (decode_cases a0 rest0 Hge)
      as [E|[(a1 & r & -> & _ & _ & _ & E)|[(a1 & a2 & r & -> & _ & _ & _ & _ & E)
           |(a1 & a2 & a3 & r & -> & _ & _ & _ & _ & _ & _ & E)]]];
      rewrite E; cbn; lia.
Qed.

Lemma to_from (n : nat) (s : string) : utf8.to n s +:+ utf8.from n s = s.
Proof.
  revert s. induction n as [|n IH]; intros [|a s]; try reflexivity.
  cbn [utf8.to utf8.from]. rewrite app_string_cons, IH. reflexivity.
Qed.

Lemma to_length (n : nat) (s : string) :
  (n <= String.length s)%nat -> String.length (utf8.to n s) = n.
Proof.
  revert s. induction n as [|n IH]; intros [|a s] H; try reflexivity.
  - cbn in H. lia.
  - cbn [utf8.to String.length] in *. rewrite IH; lia.
Qed.

Lemma from_length (n : nat) (s : string) :
  (String.length (utf8.from n s) <= String.length s - n)%nat
  \/ (String.length s < n)%nat.
Proof.
  revert s. induction n as [|n IH]; intros [|a s]; cbn [utf8.from String.length].
  - left. lia.
  - left. lia.
  - right. lia.
  - destruct (IH s); [left|right]; lia.
Qed.

Lemma from_shorter (a0 : ascii) (rest0 : string) :
  (String.length (utf8.from (snd (utf8.DecodeRuneInString (String a0 rest0))) (String a0 rest0))
   <= String.length rest0)%nat.
Proof.
  pose proof (decode_width a0 rest0) as Hw.
  destruct (from_length (snd (utf8.DecodeRuneInString (String a0 rest0))) (String a0 rest0))
    as [H|H]; cbn [String.length] in *; lia.
Qed.

(** ** Strings *)

(** The length of the string is fuel enough for the loop. *)
Lemma escape_loop_enough (f1 f2 : nat) (s : string) :
  (String.length s <= f1)%nat -> (String.length s <= f2)%nat ->
  json.escape_loop f1 s = json.escape_loop f2 s.
Proof.
  revert f2 s. induction f1 as [|f1 IH]; intros f2 s H1 H2.
  - destruct s; [|cbn in H1; lia]. destruct f2; reflexivity.
  - destruct s as [|b rest]; [destruct f2; reflexivity|].
    destruct f2 as [|f2]; [cbn in H2; lia|].
    cbn [json.escape_loop]. cbn [String.length] in H1, H2.
    pose proof (from_shorter b rest) as Hs.
    destruct (utf8.DecodeRuneInString (String b rest)) as [c size]. cbn [snd] in Hs.
    rewrite (IH f2 rest) by lia.
    rewrite (IH f2 (utf8.from size (String b rest))) by lia.
    reflexivity.
Qed.

Lemma escape_unfold (s : string) :
  json.escape s
  = match escape_step s with
    | Some (t, rest) => t +:+ json.escape rest
    | None => EmptyString
    end.
Proof.
  unfold json.escape. destruct s as [|b rest]; [reflexivity|].
  cbn [String.length json.escape_loop escape_step].
  pose proof (from_shorter b rest) as Hs.
  destruct (utf8.DecodeRuneInString (String b rest)) as [c size]. cbn [snd] in Hs.
  rewrite (escape_loop_enough (String.length rest)
             (String.length (utf8.from size (String b rest)))
             (utf8.from size (String b rest))) by lia.
  destruct (utf8.byte b <? utf8.RuneSelf); [reflexivity|].
  destruct ((c =? utf8.RuneError) && (size =? 1)%nat); [reflexivity|].
  destruct ((c =? 8232) || (c =? 8233)); reflexivity.
Qed.

Lemma valid_loop_enough (f1 f2 : nat) (s : string) :
  (String.length s <= f1)%nat -> (String.length s <= f2)%nat ->
  utf8.valid_loop f1 s = utf8.valid_loop f2 s.
Proof.
  revert f2 s. induction f1 as [|f1 IH]; intros f2 s H1 H2.
  - destruct s; [|cbn in H1; lia]. destruct f2; reflexivity.
  - destruct s as [|b rest]; [destruct f2; reflexivity|].
    destruct f2 as [|f2]; [cbn in H2; lia|].
    cbn [utf8.valid_loop]. cbn [String.length] in H1, H2.
    pose proof (from_shorter b rest) as Hs.
    destruct (utf8.DecodeRuneInString (String b rest)) as [c size]. cbn [snd] in Hs.
    rewrite (IH f2 rest) by lia.
    rewrite (IH f2 (utf8.from size (String b rest))) by lia.
    reflexivity.
Qed.

Lemma valid_unfold (b : ascii) (rest : string) :
  utf8.ValidString (String b rest)
  = match valid_step (String b rest) with
    | Some rest' => utf8.ValidString rest'
    | None => false
    end.
Proof.
  unfold utf8.ValidString.
  cbn [String.length utf8.valid_loop valid_step].
  pose proof (from_shorter b rest) as Hs.
  destruct (utf8.DecodeRuneInString (String b rest)) as [c size]. cbn [snd] in Hs.
  rewrite (valid_loop_enough (String.length rest)
             (String.length (utf8.from size (String b rest)))
             (utf8.from size (String b rest))) by lia.
  destruct (utf8.byte b <? utf8.RuneSelf); [reflexivity|].
  destruct ((c =? utf8.RuneError) && (size =? 1)%nat); reflexivity.
Qed.

Lemma byte_inj (a b : ascii) : utf8.byte a = utf8.byte b -> a = b.
Proof.
  unfold utf8.byte. intros H. apply N2Z.inj in H.
  rewrite <- (ascii_N_embedding a), <- (ascii_N_embedding b), H. reflexivity.
Qed.

(** One round over a valid string consumes and writes as [round] says, and
    leaves a valid string. *)
Lemma valid_round (b : ascii) (rest0 : string) :
  utf8.ValidString (String b rest0) = true ->
  exists c t rest,
    escape_step (String b rest0) = Some (t, rest) /\ String b rest0 = c +:+ rest
    /\ round c t /\ utf8.ValidString rest = true.
Proof.
  rewrite valid_unfold. cbn [valid_step escape_step].
  destruct (Z.ltb_spec (utf8.byte b) utf8.RuneSelf) as [Hlt|Hge].
  { intros Hv. exists (String b EmptyString), (json.escape_ascii b), rest0.
    split; [reflexivity|]. split; [reflexivity|].
    split; [constructor; exact Hlt|exact Hv]. }
  assert (Hge' : 0x80 <= utf8.byte b) by exact Hge.
  pose proof (byte_range b) as R0.
  assert (B : forall a, 0 <= utf8.byte a mod 64 < 64)
    by (intros; apply Z.mod_pos_bound; lia).
  destruct (decode_cases b rest0 Hge')
    as [E|[(a1 & r & -> & W & H0 & H1 & E)|[(a1 & a2 & r & -> & W & H0 & H1 & H2 & E)
         |(a1 & a2 & a3 & r & -> & W & H0 & H1 & H10 & H2 & H3 & E)]]];
    rewrite E.
  - rewrite Z.eqb_refl. cbn. discriminate.
  - rewrite andb_false_r.
    assert (Hn : (utf8.byte b mod 32 * 64 + utf8.byte a1 mod 64 =? 8232)
                 || (utf8.byte b mod 32 * 64 + utf8.byte a1 mod 64 =? 8233) = false).
    { pose proof (B a1). pose proof (Z.mod_pos_bound (utf8.byte b) 32 ltac:(lia)). lia. }
    rewrite Hn. cbn [utf8.to utf8.from]. intros Hv.
    exists (String b (String a1 EmptyString)), (String b (String a1 EmptyString)), r.
    split; [reflexivity|]. split; [reflexivity|].
    split; [constructor; [exact Hge|rewrite W; reflexivity]|exact Hv].
  - rewrite andb_false_r. cbn [utf8.to utf8.from]. intros Hv.
    assert (Hb : utf8.byte b mod 16 = utf8.byte b - 224)
      by (symmetry; apply (Z.mod_unique_pos _ _ 14); lia).
    assert (Ha1 : utf8.byte a1 mod 64 = utf8.byte a1 - 128)
      by (symmetry; apply (Z.mod_unique_pos _ _ 2); lia).
    assert (Ha2 : utf8.byte a2 mod 64 = utf8.byte a2 - 128)
      by (symmetry; apply (Z.mod_unique_pos _ _ 2); lia).
    remember (utf8.byte b mod 16 * 4096 + (utf8.byte a1 mod 64 * 64 + utf8.byte a2 mod 64))
      as c eqn:Hc.
    rewrite Hb, Ha1, Ha2 in Hc.
    destruct (Z.eqb_spec c 8232) as [C8|C8].
    { assert (b = "226"%char /\ a1 = "128"%char /\ a2 = "168"%char) as (-> & -> & ->).
      { repeat split; apply byte_inj;
          change (utf8.byte "226") with 226; change (utf8.byte "128") with 128;
          change (utf8.byte "168") with 168; lia. }
      exists (separator "168"), (escaped_separator "8"), r.
      split; [rewrite C8; reflexivity|]. split; [reflexivity|].
      split; [constructor|exact Hv]. }
    destruct (Z.eqb_spec c 8233) as [C9|C9].
    { assert (b = "226"%char /\ a1 = "128"%char /\ a2 = "169"%char) as (-> & -> & ->).
      { repeat split; apply byte_inj;
          change (utf8.byte "226") with 226; change (utf8.byte "128") with 128;
          change (utf8.byte "169") with 169; lia. }
      exists (separator "169"), (escaped_separator "9"), r.
      split; [rewrite C9; reflexivity|]. split; [reflexivity|].
      split; [constructor|exact Hv]. }
    cbn [orb].
    exists (String b (String a1 (String a2 EmptyString))),
      (String b (String a1 (String a2 EmptyString))), r.
    split; [reflexivity|]. split; [reflexivity|].
    split; [constructor; [exact Hge|rewrite W; reflexivity]|exact Hv].
  - rewrite andb_false_r.
    assert (Hn : (utf8.byte b mod 8 * 262144
                  + (utf8.byte a1 mod 64 * 4096
                     + (utf8.byte a2 mod 64 * 64 + utf8.byte a3 mod 64)) =? 8232)
                 || (utf8.byte b mod 8 * 262144
                     + (utf8.byte a1 mod 64 * 4096
                        + (utf8.byte a2 mod 64 * 64 + utf8.byte a3 mod 64)) =? 8233) = false).
    { pose proof (B a2). pose proof (B a3).
      assert (Hb : utf8.byte b mod 8 = utf8.byte b - 240)
        by (symmetry; apply (Z.mod_unique_pos _ _ 30); lia).
      assert (Ha1 : utf8.byte a1 mod 64 = utf8.byte a1 - 128)
        by (symmetry; apply (Z.mod_unique_pos _ _ 2); lia).
      rewrite Hb, Ha1.
      destruct (Z.eq_dec (utf8.byte b) 240) as [Hf|Hf]; [specialize (H10 Hf)|]; lia. }
    rewrite Hn. cbn [utf8.to utf8.from]. intros Hv.
    exists (String b (String a1 (String a2 (String a3 EmptyString)))),
      (String b (String a1 (String a2 (String a3 EmptyString)))), r.
    split; [reflexivity|]. split; [reflexivity|].
    split; [constructor; [exact Hge|rewrite W; reflexivity]|exact Hv].
Qed.

Lemma compatible_extend (p q t : string) :
  compatible p t = false -> compatible (p +:+ q) t = false.
Proof.
  revert t. induction p as [|a p IH]; intros [|b t] H; try discriminate H.
  rewrite app_string_cons. cbn [compatible] in H |- *.
  destruct (Ascii.eqb a b); [exact (IH t H)|reflexivity].
Qed.

Lemma compatible_refl (s : string) : compatible s s = true.
Proof.
  induction s as [|a s IH]; [reflexivity|]. cbn [compatible].
  rewrite Ascii.eqb_refl. exact IH.
Qed.

Lemma compatible_same_length (s t : string) :
  compatible s t = true -> String.length s = String.length t -> s = t.
Proof.
  revert t. induction s as [|a s IH]; intros [|b t] H L; try reflexivity; try discriminate L.
  cbn [compatible] in H. apply andb_prop in H as [Hab H]. apply Ascii.eqb_eq in Hab as ->.
  cbn [String.length] in L. rewrite (IH t H) by lia. reflexivity.
Qed.

(** The escapes of two bytes are a code: neither continues the other. *)
Lemma ascii_code (a b : ascii) :
  compatible (json.escape_ascii a) (json.escape_ascii b) = true -> a = b.
Proof.
  intros H.
  assert (Hall : forallb (fun b => implb (compatible (json.escape_ascii a) (json.escape_ascii b))
                                     (Ascii.eqb a b))
                   every_ascii = true).
  { revert a H. intros a _. revert a. apply every_ascii_all. vm_compute. reflexivity. }
  pose proof (every_ascii_all _ Hall b) as Hb. cbv beta in Hb. rewrite H in Hb.
  apply Ascii.eqb_eq. exact Hb.
Qed.

Lemma ascii_not_separator (a k : ascii) :
  compatible (escaped_separator k) (json.escape_ascii a) = false.
Proof.
  assert (Hall : forall a, negb (compatible (String json.backslash (String "u" "2"))
                                   (json.escape_ascii a)) = true).
  { apply every_ascii_all. vm_compute. reflexivity. }
  specialize (Hall a). apply negb_true_iff in Hall.
  change (escaped_separator k)
    with (String json.backslash (String "u" "2") +:+ String "0" (String "2" (String k EmptyString))).
  apply compatible_extend. exact Hall.
Qed.

Lemma ascii_starts (a : ascii) : starts_with not_dquote (json.escape_ascii a).
Proof.
  assert (Hall : forall a, match json.escape_ascii a with
                           | EmptyString => false
                           | String c _ => not_dquote c
                           end = true).
  { apply every_ascii_all. vm_compute. reflexivity. }
  specialize (Hall a). destruct (json.escape_ascii a); [discriminate|exact Hall].
Qed.

(** The escape of a byte below 0x80 starts with such a byte. *)
Lemma ascii_starts_low (a : ascii) :
  utf8.byte a < utf8.RuneSelf ->
  starts_with (fun c => utf8.byte c <? utf8.RuneSelf) (json.escape_ascii a).
Proof.
  intros Hlt.
  assert (Hall : forall a, implb (utf8.byte a <? utf8.RuneSelf)
                             match json.escape_ascii a with
                             | EmptyString => false
                             | String c _ => utf8.byte c <? utf8.RuneSelf
                             end = true).
  { apply every_ascii_all. vm_compute. reflexivity. }
  specialize (Hall a). apply Z.ltb_lt in Hlt. rewrite Hlt in Hall.
  destruct (json.escape_ascii a); [discriminate|exact Hall].
Qed.

Lemma round_starts (c t : string) : round c t -> starts_with not_dquote t.
Proof.
  intros [a Ha| | |a c' Ha _].
  - apply ascii_starts.
  - reflexivity.
  - reflexivity.
  - cbn [starts_with]. unfold not_dquote. apply negb_true_iff.
    apply Ascii.eqb_neq. intros ->. vm_compute in Ha. apply Ha. reflexivity.
Qed.

Lemma round_nonempty (c t : string) : round c t -> c <> EmptyString.
Proof. intros []; discriminate. Qed.

(** Two rounds that write compatible texts write the same text and consume
    the same input. *)
Lemma round_code (c1 c2 t1 t2 : string) :
  round c1 t1 -> round c2 t2 -> compatible t1 t2 = true -> t1 = t2 /\ c1 = c2.
Proof.
  intros [a Ha| | |a c Ha La] [b Hb| | |b d Hb Lb] H;
    try (split; reflexivity); try discriminate H.
  - apply ascii_code in H as ->. split; reflexivity.
  - rewrite compatible_comm, ascii_not_separator in H. discriminate.
  - rewrite compatible_comm, ascii_not_separator in H. discriminate.
  - exfalso. pose proof (ascii_starts_low a Ha) as Hs.
    destruct (json.escape_ascii a) as [|x t]; [contradiction|].
    cbn [starts_with] in Hs. cbn [compatible] in H.
    apply andb_prop in H as [Hx _]. apply Ascii.eqb_eq in Hx as ->. lia.
  - rewrite ascii_not_separator in H. discriminate.
  - exfalso. cbn [escaped_separator compatible] in H.
    apply andb_prop in H as [Hx _]. apply Ascii.eqb_eq in Hx as <-.
    vm_compute in Hb. apply Hb. reflexivity.
  - rewrite ascii_not_separator in H. discriminate.
  - exfalso. cbn [escaped_separator compatible] in H.
    apply andb_prop in H as [Hx _]. apply Ascii.eqb_eq in Hx as <-.
    vm_compute in Hb. apply Hb. reflexivity.
  - exfalso. pose proof (ascii_starts_low b Hb) as Hs.
    destruct (json.escape_ascii b) as [|x t]; [contradiction|].
    cbn [starts_with] in Hs. cbn [compatible] in H.
    apply andb_prop in H as [Hx _]. apply Ascii.eqb_eq in Hx as ->. lia.
  - exfalso. cbn [escaped_separator compatible] in H.
    apply andb_prop in H as [Hx _]. apply Ascii.eqb_eq in Hx as ->.
    vm_compute in Ha. apply Ha. reflexivity.
  - exfalso. cbn [escaped_separator compatible] in H.
    apply andb_prop in H as [Hx _]. apply Ascii.eqb_eq in Hx as ->.
    vm_compute in Ha. apply Ha. reflexivity.
  - assert (a = b) as ->.
    { cbn [compatible] in H. apply andb_prop in H as [Hx _]. apply Ascii.eqb_eq. exact Hx. }
    assert (String b c = String b d) as E
      by (apply compatible_same_length; [exact H|rewrite La, Lb; reflexivity]).
    split; exact E.
Qed.

(** The escape of a valid string, closed by a double quote, tells the
    string and what follows. *)
Lemma escape_prefix_free (n : nat) (s1 s2 r1 r2 : string) :
  (String.length s1 <= n)%nat ->
  utf8.ValidString s1 = true -> utf8.ValidString s2 = true ->
  json.escape s1 +:+ String json.dquote r1 = json.escape s2 +:+ String json.dquote r2 ->
  s1 = s2 /\ r1 = r2.
Proof.
  revert s1 s2.
  assert (Hend : forall b rest0 r r',
             utf8.ValidString (String b rest0) = true ->
             String json.dquote r <> json.escape (String b rest0) +:+ r').
  { intros b rest0 r r' Hv E.
    destruct (valid_round b rest0 Hv) as (c & t & rest & Hstep & _ & Hr & _).
    rewrite escape_unfold, Hstep in E. apply round_starts in Hr.
    destruct t as [|x t]; [contradiction|].
    rewrite !app_string_cons in E. injection E as <- _. discriminate Hr. }
  induction n as [|n IH]; intros s1 s2 Hl V1 V2 E.
  - destruct s1; [|cbn in Hl; lia].
    destruct s2 as [|b rest0].
    + change (json.escape EmptyString) with EmptyString in E.
      rewrite !app_string_nil_l in E. injection E as ->. split; reflexivity.
    + exfalso. change (json.escape EmptyString) with EmptyString in E.
      rewrite app_string_nil_l in E. exact (Hend _ _ _ _ V2 E).
  - destruct s1 as [|b1 rest1], s2 as [|b2 rest2].
    + change (json.escape EmptyString) with EmptyString in E.
      rewrite !app_string_nil_l in E. injection E as ->. split; reflexivity.
    + exfalso. change (json.escape EmptyString) with EmptyString in E.
      rewrite app_string_nil_l in E. exact (Hend _ _ _ _ V2 E).
    + exfalso. change (json.escape EmptyString) with EmptyString in E.
      rewrite app_string_nil_l in E. symmetry in E. exact (Hend _ _ _ _ V1 E).
    + destruct (valid_round b1 rest1 V1) as (c1 & t1 & left1 & Hs1 & Hc1 & Hr1 & Hv1).
      destruct (valid_round b2 rest2 V2) as (c2 & t2 & left2 & Hs2 & Hc2 & Hr2 & Hv2).
      rewrite (escape_unfold (String b1 rest1)), (escape_unfold (String b2 rest2)), Hs1, Hs2 in E.
      rewrite !app_string_assoc in E.
      destruct (round_code c1 c2 t1 t2 Hr1 Hr2 (compatible_prefixes _ _ _ _ E)) as [<- <-].
      apply String.app_inj in E.
      destruct (IH left1 left2) as [-> ->]; [|exact Hv1|exact Hv2|exact E|].
      * apply round_nonempty in Hr1.
        assert (L : String.length (String b1 rest1) = String.length (c1 +:+ left1))
          by (rewrite Hc1; reflexivity).
        rewrite length_app_string in L. destruct c1; [contradiction|].
        cbn [String.length] in L, Hl. lia.
      * rewrite Hc1, Hc2. split; reflexivity.
Qed.

Lemma quote_prefix_free (s1 s2 r1 r2 : string) :
  utf8.ValidString s1 = true -> utf8.ValidString s2 = true ->
  json.quote s1 +:+ r1 = json.quote s2 +:+ r2 -> s1 = s2 /\ r1 = r2.
Proof.
  intros V1 V2. unfold json.quote, json.char. rewrite !app_string_cons. intros [= E].
  rewrite !app_string_assoc, !app_string_cons, !app_string_nil_l in E.
  exact (escape_prefix_free (String.length s1) s1 s2 r1 r2 (le_n _) V1 V2 E).
Qed.

(** ** Documents *)

Lemma value_ind_nested (P : json.value -> Prop) :
  P json.Null ->
  (forall z, P (json.Number z)) ->
  (forall s, P (json.Str s)) ->
  (forall es, Forall P es -> P (json.Array es)) ->
  (forall ms, Forall (fun m => P (snd m)) ms -> P (json.Object ms)) ->
  (forall type_ err, P (json.Failed type_ err)) ->
  forall v, P v.
Proof.
  intros HN Hn Hs Ha Ho Hf. fix IH 1. intros [|z|s|es|ms|type_ err].
  - exact HN.
  - apply Hn.
  - apply Hs.
  - apply Ha. induction es as [|e es IHes]; constructor; [apply IH|exact IHes].
  - apply Ho. induction ms as [|[k x] ms IHms]; constructor; [apply IH|exact IHms].
  - apply Hf.
Qed.

Lemma join_cons (x : string) (l : list string) :
  json.join "," (x :: l)
  = x +:+ match l with [] => EmptyString | _ :: _ => "," +:+ json.join "," l end.
Proof.
  destruct l as [|y l]; [|reflexivity].
  change (json.join "," [x]) with x. symmetry. apply app_string_nil_r.
Qed.

Lemma encode_Array (es : list json.value) :
  json.encode (json.Array es) = "[" +:+ json.join "," (map json.encode es) +:+ "]".
Proof. reflexivity. Qed.

Lemma encode_opens (v : json.value) :
  wellformed v = true -> starts_with (opens v) (json.encode v).
Proof.
  destruct v as [|z|s|es|ms|type_ err]; intros W; try reflexivity.
  - exact (proj2 (pretty_Z_numeric z)).
  - discriminate W.
Qed.

Lemma opens_not_delimiter (v : json.value) (a : ascii) :
  opens v a = true -> not_delimiter a = true.
Proof.
  unfold not_delimiter.
  destruct v; cbn [opens]; intros H; try discriminate H;
    try (apply Ascii.eqb_eq in H; subst a; reflexivity).
  rewrite (numeric_not_delimiter a H). reflexivity.
Qed.

Lemma encode_starts (v : json.value) :
  wellformed v = true -> starts_with not_delimiter (json.encode v).
Proof.
  intros W. pose proof (encode_opens v W) as H.
  destruct (json.encode v) as [|a s]; [contradiction|].
  exact (opens_not_delimiter v a H).
Qed.

Lemma starts_with_app (P : ascii -> bool) (s r : string) :
  starts_with P s -> exists a t, s +:+ r = String a t /\ P a = true.
Proof.
  destruct s as [|a s]; [contradiction|]. intros H. exists a, (s +:+ r). split; [reflexivity|exact H].
Qed.

(** A sequence of texts separated by commas and closed by a delimiter. *)
Lemma sequence_prefix_free {A : Type} (ok : A -> Prop) (enc : A -> string) (close : ascii)
    (l1 l2 : list A) (r1 r2 : string) :
  is_delimiter close = true ->
  close <> ","%char ->
  (forall b, ok b -> starts_with not_delimiter (enc b)) ->
  Forall ok l1 -> Forall ok l2 ->
  Forall (prefix_free ok enc) l1 ->
  json.join "," (map enc l1) +:+ String close r1
  = json.join "," (map enc l2) +:+ String close r2 ->
  l1 = l2 /\ r1 = r2.
Proof.
  intros Hclose Hcomma Hstart Hok1 Hok2 Hall. revert l2 Hok1 Hok2.
  induction Hall as [|a l1 Ha _ IH]; intros [|b l2] Hok1 Hok2 E.
  - cbn [map json.join] in E. rewrite !app_string_nil_l in E. injection E as ->.
    split; reflexivity.
  - exfalso. cbn [map] in E. rewrite join_cons, app_string_assoc in E.
    change (json.join "," (map enc [])) with EmptyString in E. rewrite app_string_nil_l in E.
    apply Forall_cons in Hok2 as [Hb _].
    destruct (starts_with_app _ (enc b)
                (match map enc l2 with [] => EmptyString | _ :: _ => "," +:+ json.join "," (map enc l2) end
                 +:+ String close r2) (Hstart b Hb)) as (c & t & Ht & Hc).
    rewrite Ht in E. injection E as <- _. unfold not_delimiter in Hc.
    rewrite Hclose in Hc. discriminate.
  - exfalso. cbn [map] in E. rewrite join_cons, app_string_assoc in E.
    change (json.join "," (map enc [])) with EmptyString in E. rewrite app_string_nil_l in E.
    apply Forall_cons in Hok1 as [Hb _].
    destruct (starts_with_app _ (enc a)
                (match map enc l1 with [] => EmptyString | _ :: _ => "," +:+ json.join "," (map enc l1) end
                 +:+ String close r1) (Hstart a Hb)) as (c & t & Ht & Hc).
    rewrite Ht in E. injection E as -> _. unfold not_delimiter in Hc.
    rewrite Hclose in Hc. discriminate.
  - cbn [map] in E. rewrite !join_cons, !app_string_assoc in E.
    apply Forall_cons in Hok1 as [Hoka Hok1]. apply Forall_cons in Hok2 as [Hokb Hok2].
    apply Ha in E as [<- E].
    + destruct l1 as [|a1 l1], l2 as [|b1 l2]; cbn [map] in E.
      * rewrite !app_string_nil_l in E. injection E as ->. split; reflexivity.
      * exfalso. rewrite app_string_nil_l, app_string_assoc in E.
        injection E as E _. contradiction.
      * exfalso. rewrite app_string_nil_l, app_string_assoc in E.
        injection E as E _. symmetry in E. contradiction.
      * rewrite !app_string_assoc in E. apply String.app_inj in E.
        destruct (IH (b1 :: l2) Hok1 Hok2 E) as [-> ->]. split; reflexivity.
    + exact Hokb.
    + destruct (map enc l1); [exact Hclose|reflexivity].
    + destruct (map enc l2); [exact Hclose|reflexivity].
Qed.

Lemma member_prefix_free (m : string * json.value) :
  utf8.ValidString (fst m) = true ->
  prefix_free (fun y => wellformed y = true) json.encode (snd m) ->
  prefix_free (fun m' => utf8.ValidString (fst m') = true /\ wellformed (snd m') = true)
    member_text m.
Proof.
  destruct m as [k x]. intros Hk Hx [k' x'] r1 r2 [Hk' Hx'] D1 D2 E.
  unfold member_text in E. cbn [fst snd] in *. rewrite !app_string_assoc in E.
  apply quote_prefix_free in E as [<- E]; [|exact Hk|exact Hk'].
  apply String.app_inj in E. apply Hx in E as [<- <-]; [split; reflexivity|assumption..].
Qed.

Lemma member_starts (m : string * json.value) : starts_with not_delimiter (member_text m).
Proof. reflexivity. Qed.

Lemma wellformed_Array (es : list json.value) :
  wellformed (json.Array es) = true -> Forall (fun e => wellformed e = true) es.
Proof.
  cbn [wellformed]. intros H. apply Forall_forall. intros e He.
  rewrite forallb_forall in H. apply H. apply list_elem_of_In. exact He.
Qed.

Lemma wellformed_Object (ms : list (string * json.value)) :
  wellformed (json.Object ms) = true ->
  Forall (fun m => utf8.ValidString (fst m) = true /\ wellformed (snd m) = true) ms.
Proof.
  cbn [wellformed]. intros H. apply Forall_forall. intros m Hm.
  rewrite forallb_forall in H. apply andb_prop. apply H. apply list_elem_of_In. exact Hm.
Qed.

Ltac kinds_differ E H1 H2 :=
  exfalso;
  let a := fresh "a" in let t := fresh "t" in let Ht := fresh "Ht" in let Ha := fresh "Ha" in
  let b := fresh "b" in let u := fresh "u" in let Hu := fresh "Hu" in let Hb := fresh "Hb" in
  destruct H1 as (a & t & Ht & Ha); destruct H2 as (b & u & Hu & Hb);
  rewrite Ht, Hu in E; injection E as E _; subst b;
  cbn [opens] in Ha, Hb;
  repeat match goal with
         | H : Ascii.eqb _ _ = true |- _ => apply Ascii.eqb_eq in H; subst
         end;
  discriminate.

(** The text of a well-formed document, followed by a delimiter or by
    nothing, tells the document and what follows. *)
Lemma encode_prefix_free (v : json.value) :
  wellformed v = true -> prefix_free (fun y => wellformed y = true) json.encode v.
Proof.
  induction v as [|z1|s1|es1 IH|ms1 IH|type_ err] using value_ind_nested;
    intros W1 v2 r1 r2 W2 D1 D2 E; [| | | | |discriminate W1].
  - pose proof (starts_with_app _ _ r1 (encode_opens json.Null W1)) as H1.
    pose proof (starts_with_app _ _ r2 (encode_opens v2 W2)) as H2.
    destruct v2 as [|z2|s2|es2|ms2|]; try solve [kinds_differ E H1 H2].
    apply (String.app_inj "null") in E. split; [reflexivity|exact E].
  - pose proof (starts_with_app _ _ r1 (encode_opens (json.Number z1) W1)) as H1.
    pose proof (starts_with_app _ _ r2 (encode_opens v2 W2)) as H2.
    destruct v2 as [|z2|s2|es2|ms2|]; try solve [kinds_differ E H1 H2].
    apply number_prefix_free in E as [-> ->]; [split; reflexivity|assumption..].
  - pose proof (starts_with_app _ _ r1 (encode_opens (json.Str s1) W1)) as H1.
    pose proof (starts_with_app _ _ r2 (encode_opens v2 W2)) as H2.
    destruct v2 as [|z2|s2|es2|ms2|]; try solve [kinds_differ E H1 H2].
    apply quote_prefix_free in E as [-> ->]; [split; reflexivity|exact W1|exact W2].
  - pose proof (starts_with_app _ _ r1 (encode_opens (json.Array es1) W1)) as H1.
    pose proof (starts_with_app _ _ r2 (encode_opens v2 W2)) as H2.
    destruct v2 as [|z2|s2|es2|ms2|]; try solve [kinds_differ E H1 H2].
    rewrite !encode_Array, !app_string_assoc in E. apply String.app_inj in E.
    apply wellformed_Array in W1, W2.
    apply (sequence_prefix_free (fun y => wellformed y = true) json.encode "]") in E as [-> ->];
      [split; reflexivity|reflexivity|discriminate|exact encode_starts|exact W1|exact W2|].
    apply Forall_forall. intros e He.
    rewrite Forall_forall in IH. rewrite Forall_forall in W1. exact (IH e He (W1 e He)).
  - pose proof (starts_with_app _ _ r1 (encode_opens (json.Object ms1) W1)) as H1.
    pose proof (starts_with_app _ _ r2 (encode_opens v2 W2)) as H2.
    destruct v2 as [|z2|s2|es2|ms2|]; try solve [kinds_differ E H1 H2].
    rewrite !encode_Object, !app_string_assoc in E. apply String.app_inj in E.
    apply wellformed_Object in W1, W2.
    apply (sequence_prefix_free
             (fun m => utf8.ValidString (fst m) = true /\ wellformed (snd m) = true)
             member_text "}") in E as [-> ->];
      [split; reflexivity|reflexivity|discriminate|intros; apply member_starts
      |exact W1|exact W2|].
    apply Forall_forall. intros m Hm.
    rewrite Forall_forall in IH. rewrite Forall_forall in W1.
    destruct (W1 m Hm) as [Wk Wx].
    apply member_prefix_free; [exact Wk|exact (IH m Hm Wx)].
Qed.

(** Two well-formed documents with one text are one document. *)
Lemma encode_inj (v1 v2 : json.value) :
  wellformed v1 = true -> wellformed v2 = true ->
  json.encode v1 = json.encode v2 -> v1 = v2.
Proof.
  intros W1 W2 E. apply (encode_prefix_free v1 W1 v2 EmptyString EmptyString W2 I I).
  rewrite !app_string_nil_r. exact E.
Qed.

(* ===================================================================== *)
(** * What the canonical text determines *)
(* ===================================================================== *)

Section Members.
Context {A : Type} `{json.Marshaler A}.

Lemma other_keys_field (name n : string) (v : A) :
  n <> name -> other_keys name (json.field n v).
Proof. intros Hn. constructor; [exact Hn|constructor]. Qed.

Lemma other_keys_omitempty (name n : string) (e : bool) (v : A) :
  n <> name -> other_keys name (json.omitempty n e v).
Proof. intros Hn. destruct e; [constructor|]. constructor; [exact Hn|constructor]. Qed.

Lemma field_cancel (name : string) (v1 v2 : A) (rest1 rest2 : list (string * json.value)) :
  json.field name v1 ++ rest1 = json.field name v2 ++ rest2 ->
  json.toJSON v1 = json.toJSON v2 /\ rest1 = rest2.
Proof. intros [= E1 E2]. split; assumption. Qed.

Lemma omitempty_cancel (name : string) (e1 e2 : bool) (v1 v2 : A)
    (rest1 rest2 : list (string * json.value)) :
  other_keys name rest1 -> other_keys name rest2 ->
  json.omitempty name e1 v1 ++ rest1 = json.omitempty name e2 v2 ++ rest2 ->
  e1 = e2 /\ (e1 = false -> json.toJSON v1 = json.toJSON v2) /\ rest1 = rest2.
Proof.
  intros H1 H2. destruct e1, e2; cbn [json.omitempty app]; intros E.
  - split; [reflexivity|]. split; [discriminate|exact E].
  - exfalso. subst rest1. inversion H1 as [|m l Hm _]. apply Hm. reflexivity.
  - exfalso. subst rest2. inversion H2 as [|m l Hm _]. apply Hm. reflexivity.
  - injection E as E1 E2. split; [reflexivity|]. split; [intros _; exact E1|exact E2].
Qed.

End Members.

Lemma other_keys_app (name : string) (l1 l2 : list (string * json.value)) :
  other_keys name l1 -> other_keys name l2 -> other_keys name (l1 ++ l2).
Proof. intros H1 H2. apply Forall_app. split; assumption. Qed.

Lemma other_keys_nil (name : string) : other_keys name [].
Proof. constructor. Qed.

Create HintDb keys.

#[local] Hint Resolve other_keys_app other_keys_nil : keys.
#[local] Hint Extern 1 (other_keys _ (json.field _ _)) =>
  apply other_keys_field; discriminate : keys.
#[local] Hint Extern 1 (other_keys _ (json.omitempty _ _ _)) =>
  apply other_keys_omitempty; discriminate : keys.

Lemma map_eq_Forall2 {A B : Type} (f : A -> B) (R : A -> A -> Prop) (l1 l2 : list A) :
  (forall x y, f x = f y -> R x y) -> map f l1 = map f l2 -> Forall2 R l1 l2.
Proof.
  intros Hf. revert l2. induction l1 as [|x l1 IH]; intros [|y l2] E; try discriminate E.
  - constructor.
  - injection E as E1 E2. constructor; [exact (Hf _ _ E1)|exact (IH _ E2)].
Qed.

Lemma Forall2_map_eq {A B : Type} (f : A -> B) (R : A -> A -> Prop) (l1 l2 : list A) :
  (forall x y, R x y -> f x = f y) -> Forall2 R l1 l2 -> map f l1 = map f l2.
Proof.
  intros Hf. induction 1 as [|x y l1 l2 Hxy _ IH]; [reflexivity|].
  cbn [map]. rewrite (Hf _ _ Hxy), IH. reflexivity.
Qed.

Lemma map_eq_inj {A B : Type} (f : A -> B) (l1 l2 : list A) :
  (forall x y, f x = f y -> x = y) -> map f l1 = map f l2 -> l1 = l2.
Proof.
  intros Hf E. apply (map_eq_Forall2 f eq l1 l2 Hf) in E.
  induction E as [|x y l1 l2 -> _ ->]; reflexivity.
Qed.

(** ** Strings, numbers, slices and maps under [omitempty] *)

Lemma is_zero_true (n : nat) : is_zero n = true <-> n = O.
Proof. destruct n; split; intros; try reflexivity; discriminate. Qed.

Lemma string_empty (s : string) : String.eqb s EmptyString = true <-> s = EmptyString.
Proof. apply String.eqb_eq. Qed.

Lemma map_text_inj (m1 m2 : gmap string string) :
  json.toJSON m1 = json.toJSON m2 -> m1 = m2.
Proof.
  unfold json.toJSON, json.marshal_map. intros [= E].
  apply map_eq_inj in E.
  - apply map_to_list_inj.
    rewrite <- (insertionSort_perm json.key_less (map_to_list m1)), E.
    apply insertionSort_perm.
  - intros [k1 v1] [k2 v2]. cbn [fst snd]. unfold json.toJSON, json.marshal_string.
    intros [= -> ->]. reflexivity.
Qed.

Lemma gomap_empty (m : gomap) : is_zero (len_map m) = true <-> default ∅ m = ∅.
Proof.
  rewrite is_zero_true. destruct m as [m|]; cbn [len_map default].
  - apply map_size_empty_iff.
  - split; reflexivity.
Qed.

Lemma gomap_same (m1 m2 : gomap) :
  is_zero (len_map m1) = is_zero (len_map m2) ->
  (is_zero (len_map m1) = false -> json.toJSON m1 = json.toJSON m2) ->
  same_entries m1 m2.
Proof.
  unfold same_entries. intros He Hv.
  destruct (is_zero (len_map m1)) eqn:E1.
  - symmetry in He. apply gomap_empty in E1, He. congruence.
  - specialize (Hv eq_refl).
    destruct m1 as [m1|], m2 as [m2|]; try discriminate E1;
      try (symmetry in He; discriminate He).
    change (m1 = m2). apply map_text_inj. exact Hv.
Qed.

Lemma same_entries_omitempty (name : string) (m1 m2 : gomap) :
  same_entries m1 m2 ->
  json.omitempty name (is_zero (len_map m1)) m1 = json.omitempty name (is_zero (len_map m2)) m2.
Proof.
  unfold same_entries. intros E.
  destruct (is_zero (len_map m1)) eqn:E1, (is_zero (len_map m2)) eqn:E2.
  - reflexivity.
  - exfalso. apply gomap_empty in E1. rewrite E, <- gomap_empty in E1. congruence.
  - exfalso. apply gomap_empty in E2. rewrite <- E, <- gomap_empty in E2. congruence.
  - destruct m1 as [m1|], m2 as [m2|]; try discriminate E1; try discriminate E2.
    change (m1 = m2) in E. subst m2. reflexivity.
Qed.

Section Last.
Context {A : Type} `{json.Marshaler A}.

Lemma omitempty_last (name : string) (e1 e2 : bool) (v1 v2 : A) :
  json.omitempty name e1 v1 = json.omitempty name e2 v2 ->
  e1 = e2 /\ (e1 = false -> json.toJSON v1 = json.toJSON v2).
Proof.
  destruct e1, e2; cbn [json.omitempty]; intros E; try discriminate E.
  - split; [reflexivity|discriminate].
  - injection E as E. split; [reflexivity|intros _; exact E].
Qed.

Lemma field_last (name : string) (v1 v2 : A) :
  json.field name v1 = json.field name v2 -> json.toJSON v1 = json.toJSON v2.
Proof. intros [= E]. exact E. Qed.

End Last.

Lemma Object_inj (ms1 ms2 : list (string * json.value)) :
  json.Object ms1 = json.Object ms2 -> ms1 = ms2.
Proof. intros [= E]. exact E. Qed.

Lemma string_text_inj (s1 s2 : string) : json.toJSON s1 = json.toJSON s2 -> s1 = s2.
Proof. intros [= E]. exact E. Qed.

Lemma number_text_inj (z1 z2 : Z) : json.toJSON z1 = json.toJSON z2 -> z1 = z2.
Proof. intros [= E]. exact E. Qed.

Lemma string_same (s1 s2 : string) :
  String.eqb s1 EmptyString = String.eqb s2 EmptyString ->
  (String.eqb s1 EmptyString = false -> json.toJSON s1 = json.toJSON s2) ->
  s1 = s2.
Proof.
  intros He Hv. destruct (String.eqb s1 EmptyString) eqn:E1.
  - symmetry in He. apply String.eqb_eq in E1, He. congruence.
  - apply string_text_inj. apply Hv. reflexivity.
Qed.

Lemma slice_text_inj {A : Type} `{json.Marshaler A} (l1 l2 : list A) :
  (forall x y : A, json.toJSON x = json.toJSON y -> x = y) ->
  json.toJSON l1 = json.toJSON l2 -> l1 = l2.
Proof. intros Hinj [= E]. exact (map_eq_inj _ _ _ Hinj E). Qed.

Lemma slice_same {A : Type} `{json.Marshaler A} (l1 l2 : list A) :
  (forall x y : A, json.toJSON x = json.toJSON y -> x = y) ->
  is_zero (length l1) = is_zero (length l2) ->
  (is_zero (length l1) = false -> json.toJSON l1 = json.toJSON l2) ->
  l1 = l2.
Proof.
  intros Hinj He Hv. destruct l1 as [|x l1].
  - destruct l2; [reflexivity|discriminate He].
  - apply (slice_text_inj _ _ Hinj). apply Hv. reflexivity.
Qed.

(** ** The fingerprint structures *)

Lemma EnvVarFingerprint_text_inj (e1 e2 : EnvVarFingerprint.t) :
  json.toJSON e1 = json.toJSON e2 -> e1 = e2.
Proof.
  destruct e1 as [n1 v1], e2 as [n2 v2].
  unfold json.toJSON at 1 2, EnvVarFingerprint.marshal.
  cbn [EnvVarFingerprint.Name EnvVarFingerprint.Value]. intros E. apply Object_inj in E.
  apply field_cancel in E as [En E]. apply omitempty_last in E as [Fv Vv].
  apply string_text_inj in En. rewrite En, (string_same v1 v2 Fv Vv). reflexivity.
Qed.

Lemma ContainerPortFingerprint_text_inj (p1 p2 : ContainerPortFingerprint.t) :
  json.toJSON p1 = json.toJSON p2 -> p1 = p2.
Proof.
  destruct p1 as [n1 c1 q1], p2 as [n2 c2 q2].
  unfold json.toJSON at 1 2, ContainerPortFingerprint.marshal.
  cbn [ContainerPortFingerprint.Name ContainerPortFingerprint.ContainerPort
       ContainerPortFingerprint.Protocol]. intros E. apply Object_inj in E.
  apply omitempty_cancel in E as (Fn & Vn & E); [|auto 6 with keys..].
  apply field_cancel in E as [Ec E]. apply omitempty_last in E as [Fq Vq].
  apply number_text_inj in Ec.
  rewrite (string_same n1 n2 Fn Vn), Ec, (string_same q1 q2 Fq Vq). reflexivity.
Qed.

Lemma ResourceClaim_text_inj (c1 c2 : ResourceClaim.t) :
  json.toJSON c1 = json.toJSON c2 -> c1 = c2.
Proof.
  destruct c1 as [n1 r1], c2 as [n2 r2].
  unfold json.toJSON at 1 2, ResourceClaim.marshal.
  cbn [ResourceClaim.Name ResourceClaim.Request]. intros E. apply Object_inj in E.
  apply field_cancel in E as [En E]. apply omitempty_last in E as [Fr Vr].
  apply string_text_inj in En. rewrite En, (string_same r1 r2 Fr Vr). reflexivity.
Qed.

Lemma ResourceRequirements_text_same (r1 r2 : ResourceRequirements.t) :
  json.toJSON r1 = json.toJSON r2 <-> same_resources r1 r2.
Proof.
  destruct r1 as [l1 q1 c1], r2 as [l2 q2 c2].
  unfold json.toJSON at 1 2, ResourceRequirements.marshal, same_resources.
  cbn [ResourceRequirements.Limits ResourceRequirements.Requests ResourceRequirements.Claims].
  split.
  - intros E. apply Object_inj in E.
    apply omitempty_cancel in E as (Fl & Vl & E); [|auto 6 with keys..].
    apply omitempty_cancel in E as (Fq & Vq & E); [|auto 6 with keys..].
    apply omitempty_last in E as [Fc Vc].
    split; [exact (gomap_same l1 l2 Fl Vl)|].
    split; [exact (gomap_same q1 q2 Fq Vq)|].
    exact (slice_same c1 c2 ResourceClaim_text_inj Fc Vc).
  - intros (El & Eq & ->).
    rewrite (same_entries_omitempty "limits" l1 l2 El),
      (same_entries_omitempty "requests" q1 q2 Eq). reflexivity.
Qed.

Lemma ContainerFingerprint_text_same (c1 c2 : ContainerFingerprint.t) :
  json.toJSON c1 = json.toJSON c2 <-> same_container c1 c2.
Proof.
  destruct c1 as [n1 i1 e1 p1 r1], c2 as [n2 i2 e2 p2 r2].
  unfold json.toJSON at 1 2, ContainerFingerprint.marshal, same_container.
  cbn [ContainerFingerprint.Name ContainerFingerprint.Image ContainerFingerprint.Env
       ContainerFingerprint.Ports ContainerFingerprint.Resources].
  split.
  - intros E. apply Object_inj in E.
    apply field_cancel in E as [En E]. apply field_cancel in E as [Ei E].
    apply omitempty_cancel in E as (Fe & Ve & E); [|auto 6 with keys..].
    apply omitempty_cancel in E as (Fp & Vp & E); [|auto 6 with keys..].
    apply field_last in E.
    split; [exact (string_text_inj _ _ En)|]. split; [exact (string_text_inj _ _ Ei)|].
    split; [exact (slice_same e1 e2 EnvVarFingerprint_text_inj Fe Ve)|].
    split; [exact (slice_same p1 p2 ContainerPortFingerprint_text_inj Fp Vp)|].
    apply ResourceRequirements_text_same. exact E.
  - intros (-> & -> & -> & -> & Er).
    apply ResourceRequirements_text_same in Er.
    unfold json.field. rewrite Er. reflexivity.
Qed.

Lemma option_Forall2_eq {A : Type} (o1 o2 : option A) : option_Forall2 eq o1 o2 -> o1 = o2.
Proof. intros [x y ->|]; reflexivity. Qed.

(** Two pointers under [omitempty] that are written alike are both nil or
    point to values that are written alike. *)
Lemma pointer_same {A : Type} `{json.Marshaler A} (R : A -> A -> Prop)
    (o1 o2 : option A) (e1 e2 : bool) :
  (forall x y : A, o1 = Some x -> o2 = Some y ->
                   json.toJSON (Some x) = json.toJSON (Some y) -> R x y) ->
  (e1 = true <-> o1 = None) -> (e2 = true <-> o2 = None) ->
  e1 = e2 -> (e1 = false -> json.toJSON o1 = json.toJSON o2) -> option_Forall2 R o1 o2.
Proof.
  intros Hinj H1 H2 He Hv. destruct e1.
  - rewrite (proj1 H1 eq_refl), (proj1 H2 (eq_sym He)). constructor.
  - specialize (Hv eq_refl).
    destruct o1 as [x|]; [|exfalso; pose proof (proj2 H1 eq_refl); discriminate].
    destruct o2 as [y|]; [|exfalso; pose proof (proj2 H2 eq_refl); congruence].
    constructor. apply Hinj; [reflexivity|reflexivity|exact Hv].
Qed.

Lemma possible_toJSON (x : intstr.IntOrString) :
  possible x = true ->
  json.toJSON (Some x) = json.toJSON x
  /\ ((intstr.Type_ x = intstr.Int /\ json.toJSON x = json.Number (intstr.IntVal x))
      \/ (intstr.Type_ x = intstr.String_ /\ json.toJSON x = json.Str (intstr.StrVal x))).
Proof.
  destruct x as [t i s].
  unfold possible, json.toJSON, json.marshal_ptr, json.toJSON, intstr.marshal.
  cbn [intstr.Type_ intstr.IntVal intstr.StrVal].
  destruct (Z.eqb_spec t intstr.Int) as [->|Hi].
  - intros _. split; [reflexivity|]. left. split; reflexivity.
  - destruct (Z.eqb_spec t intstr.String_) as [->|Hs]; [|discriminate].
    intros _. split; [reflexivity|]. right. split; reflexivity.
Qed.

Lemma IntOrString_text_same (x y : intstr.IntOrString) :
  possible x = true -> possible y = true ->
  json.toJSON (Some x) = json.toJSON (Some y) -> same_number_or_text x y.
Proof.
  intros Px Py.
  destruct (possible_toJSON x Px) as [-> [[Tx ->]|[Tx ->]]];
    destruct (possible_toJSON y Py) as [-> [[Ty ->]|[Ty ->]]];
    intros E; try discriminate E; injection E as E;
    unfold same_number_or_text; rewrite Tx, Ty; split; try reflexivity; exact E.
Qed.

Lemma IntOrString_same_text (x y : intstr.IntOrString) :
  same_number_or_text x y -> json.toJSON (Some x) = json.toJSON (Some y).
Proof.
  destruct x as [t i s], y as [t' i' s']. unfold same_number_or_text.
  cbn [intstr.Type_ intstr.IntVal intstr.StrVal]. intros [<- E].
  unfold json.toJSON, json.marshal_ptr, json.toJSON, intstr.marshal.
  cbn [intstr.Type_ intstr.IntVal intstr.StrVal].
  destruct (t =? intstr.Int); rewrite E; reflexivity.
Qed.

Lemma pointer_omitempty (name : string) (o1 o2 : option intstr.IntOrString) :
  option_Forall2 same_number_or_text o1 o2 ->
  json.omitempty name (bool_decide (o1 = None)) o1
  = json.omitempty name (bool_decide (o2 = None)) o2.
Proof.
  intros [x y E|]; [|reflexivity].
  rewrite !bool_decide_eq_false_2 by discriminate.
  unfold json.omitempty. rewrite (IntOrString_same_text x y E). reflexivity.
Qed.

Lemma RollingUpdateDeployment_text_same (r1 r2 : RollingUpdateDeployment.t) :
  possible_ptr (RollingUpdateDeployment.MaxUnavailable r1)
  && possible_ptr (RollingUpdateDeployment.MaxSurge r1) = true ->
  possible_ptr (RollingUpdateDeployment.MaxUnavailable r2)
  && possible_ptr (RollingUpdateDeployment.MaxSurge r2) = true ->
  json.toJSON r1 = json.toJSON r2 -> same_rolling_update r1 r2.
Proof.
  destruct r1 as [u1 s1], r2 as [u2 s2].
  unfold json.toJSON at 1 2, RollingUpdateDeployment.marshal, same_rolling_update.
  cbn [RollingUpdateDeployment.MaxUnavailable RollingUpdateDeployment.MaxSurge].
  intros P1 P2 E. apply andb_prop in P1 as [Pu1 Ps1]. apply andb_prop in P2 as [Pu2 Ps2].
  apply Object_inj in E.
  apply omitempty_cancel in E as (Fu & Vu & E); [|auto 6 with keys..].
  apply omitempty_last in E as [Fs Vs].
  split.
  - refine (pointer_same same_number_or_text u1 u2 _ _ _
              (bool_decide_eq_true _) (bool_decide_eq_true _) Fu Vu).
    intros x y -> ->. apply IntOrString_text_same; assumption.
  - refine (pointer_same same_number_or_text s1 s2 _ _ _
              (bool_decide_eq_true _) (bool_decide_eq_true _) Fs Vs).
    intros x y -> ->. apply IntOrString_text_same; assumption.
Qed.

Lemma RollingUpdateDeployment_same_text (r1 r2 : RollingUpdateDeployment.t) :
  same_rolling_update r1 r2 -> json.toJSON r1 = json.toJSON r2.
Proof.
  destruct r1 as [u1 s1], r2 as [u2 s2].
  unfold json.toJSON at 1 2, RollingUpdateDeployment.marshal, same_rolling_update.
  cbn [RollingUpdateDeployment.MaxUnavailable RollingUpdateDeployment.MaxSurge].
  intros [Eu Es].
  rewrite (pointer_omitempty "maxUnavailable" u1 u2 Eu), (pointer_omitempty "maxSurge" s1 s2 Es).
  reflexivity.
Qed.

Lemma DeploymentStrategy_text_same (s1 s2 : DeploymentStrategy.t) :
  strategy_marshals s1 = true -> strategy_marshals s2 = true ->
  json.toJSON s1 = json.toJSON s2 -> same_strategy s1 s2.
Proof.
  destruct s1 as [t1 r1], s2 as [t2 r2].
  unfold json.toJSON at 1 2, DeploymentStrategy.marshal, same_strategy, strategy_marshals.
  cbn [DeploymentStrategy.Type_ DeploymentStrategy.RollingUpdate]. intros P1 P2 E.
  apply Object_inj in E.
  apply omitempty_cancel in E as (Ft & Vt & E); [|auto 6 with keys..].
  apply omitempty_last in E as [Fr Vr].
  split; [exact (string_same t1 t2 Ft Vt)|].
  refine (pointer_same same_rolling_update r1 r2 _ _ _ _ _ Fr Vr).
  - intros x y -> ->. apply RollingUpdateDeployment_text_same; assumption.
  - destruct r1; split; intros; try reflexivity; discriminate.
  - destruct r2; split; intros; try reflexivity; discriminate.
Qed.

Lemma DeploymentStrategy_same_text (s1 s2 : DeploymentStrategy.t) :
  same_strategy s1 s2 -> json.toJSON s1 = json.toJSON s2.
Proof.
  destruct s1 as [t1 r1], s2 as [t2 r2].
  unfold json.toJSON at 1 2, DeploymentStrategy.marshal, same_strategy.
  cbn [DeploymentStrategy.Type_ DeploymentStrategy.RollingUpdate].
  intros [-> [x y E|]]; [|reflexivity].
  unfold json.omitempty at 2 4.
  change (json.toJSON (Some x)) with (json.toJSON x).
  change (json.toJSON (Some y)) with (json.toJSON y).
  rewrite (RollingUpdateDeployment_same_text x y E). reflexivity.
Qed.

Lemma PodTemplateFingerprint_text_same (t1 t2 : PodTemplateFingerprint.t) :
  json.toJSON t1 = json.toJSON t2 <-> same_template t1 t2.
Proof.
  destruct t1 as [l1 a1 c1], t2 as [l2 a2 c2].
  unfold json.toJSON at 1 2, PodTemplateFingerprint.marshal, same_template.
  cbn [PodTemplateFingerprint.Labels PodTemplateFingerprint.Annotations
       PodTemplateFingerprint.Containers].
  split.
  - intros E. apply Object_inj in E.
    apply omitempty_cancel in E as (Fl & Vl & E); [|auto 6 with keys..].
    apply omitempty_cancel in E as (Fa & Va & E); [|auto 6 with keys..].
    apply field_last in E. injection E as E.
    split; [exact (gomap_same l1 l2 Fl Vl)|]. split; [exact (gomap_same a1 a2 Fa Va)|].
    apply (map_eq_Forall2 json.toJSON); [|exact E].
    intros x y. apply ContainerFingerprint_text_same.
  - intros (El & Ea & Ec).
    rewrite (same_entries_omitempty "labels" l1 l2 El),
      (same_entries_omitempty "annotations" a1 a2 Ea).
    do 3 f_equal. unfold json.field. do 2 f_equal.
    unfold json.toJSON, json.marshal_slice. f_equal.
    apply (Forall2_map_eq _ same_container); [|exact Ec].
    intros x y. apply ContainerFingerprint_text_same.
Qed.

Lemma DeploymentFingerprint_text_same (f1 f2 : DeploymentFingerprint.t) :
  strategy_marshals (DeploymentFingerprint.Strategy f1) = true ->
  strategy_marshals (DeploymentFingerprint.Strategy f2) = true ->
  json.toJSON f1 = json.toJSON f2 <-> same_fingerprint f1 f2.
Proof.
  destruct f1 as [r1 s1 t1], f2 as [r2 s2 t2].
  rewrite !toJSON_DeploymentFingerprint. unfold same_fingerprint.
  cbn [DeploymentFingerprint.Replicas DeploymentFingerprint.Strategy
       DeploymentFingerprint.Template].
  intros P1 P2. split.
  - intros E. apply Object_inj in E.
    apply omitempty_cancel in E as (Fr & Vr & E); [|auto 6 with keys..].
    apply field_cancel in E as [Es E]. apply field_last in E.
    split.
    { apply option_Forall2_eq.
      refine (pointer_same eq r1 r2 _ _ _ _ _ Fr Vr).
      - intros x y _ _. apply number_text_inj.
      - destruct r1; split; intros; try reflexivity; discriminate.
      - destruct r2; split; intros; try reflexivity; discriminate. }
    split; [exact (DeploymentStrategy_text_same _ _ P1 P2 Es)|].
    apply PodTemplateFingerprint_text_same. exact E.
  - intros (-> & Es & Et). apply PodTemplateFingerprint_text_same in Et.
    apply DeploymentStrategy_same_text in Es.
    unfold json.field. rewrite Es, Et. reflexivity.
Qed.

Lemma ServicePortFingerprint_text_inj (p1 p2 : ServicePortFingerprint.t) :
  json.toJSON p1 = json.toJSON p2 -> p1 = p2.
Proof.
  destruct p1 as [n1 q1 p1 t1 d1], p2 as [n2 q2 p2 t2 d2].
  unfold json.toJSON at 1 2, ServicePortFingerprint.marshal.
  cbn [ServicePortFingerprint.Name ServicePortFingerprint.Protocol ServicePortFingerprint.Port
       ServicePortFingerprint.TargetPort ServicePortFingerprint.NodePort]. intros E. apply Object_inj in E.
  apply omitempty_cancel in E as (Fn & Vn & E); [|auto 8 with keys..].
  apply omitempty_cancel in E as (Fq & Vq & E); [|auto 8 with keys..].
  apply field_cancel in E as [Ep E]. apply field_cancel in E as [Et E].
  apply omitempty_last in E as [Fd Vd].
  rewrite (string_same n1 n2 Fn Vn), (string_same q1 q2 Fq Vq),
    (number_text_inj _ _ Ep), (string_text_inj _ _ Et).
  f_equal. destruct (Z.eqb_spec d1 0) as [->|Hd].
  - symmetry in Fd. apply Z.eqb_eq in Fd. congruence.
  - apply number_text_inj. apply Vd. reflexivity.
Qed.

Lemma ServiceFingerprint_text_same (f1 f2 : ServiceFingerprint.t) :
  json.toJSON f1 = json.toJSON f2 <-> same_service_fingerprint f1 f2.
Proof.
  destruct f1 as [t1 s1 p1], f2 as [t2 s2 p2].
  rewrite !toJSON_ServiceFingerprint. unfold same_service_fingerprint.
  cbn [ServiceFingerprint.Type_ ServiceFingerprint.Selector ServiceFingerprint.Ports].
  split.
  - intros E. apply Object_inj in E.
    apply field_cancel in E as [Et E].
    apply omitempty_cancel in E as (Fs & Vs & E); [|auto 6 with keys..].
    apply field_last in E.
    split; [exact (string_text_inj _ _ Et)|]. split; [exact (gomap_same s1 s2 Fs Vs)|].
    exact (slice_text_inj _ _ ServicePortFingerprint_text_inj E).
  - intros (-> & Es & ->).
    rewrite (same_entries_omitempty "selector" s1 s2 Es). reflexivity.
Qed.

Lemma wellformed_no_failure (v : json.value) : wellformed v = true -> json.failure v = None.
Proof.
  induction v as [| | |es IH|ms IH|type_ err] using value_ind_nested; intros W;
    try reflexivity; [| |discriminate W].
  - apply failure_Array. apply wellformed_Array in W.
    apply Forall_forall. intros e He.
    rewrite Forall_forall in IH. rewrite Forall_forall in W. exact (IH e He (W e He)).
  - apply failure_Object. apply wellformed_Object in W.
    apply Forall_forall. intros m Hm.
    rewrite Forall_forall in IH. rewrite Forall_forall in W.
    exact (IH m Hm (proj2 (W m Hm))).
Qed.

Lemma wellformed_strategy (f : DeploymentFingerprint.t) :
  wellformed (json.toJSON f) = true ->
  strategy_marshals (DeploymentFingerprint.Strategy f) = true.
Proof.
  intros W. apply failure_DeploymentStrategy.
  rewrite <- failure_DeploymentFingerprint. apply wellformed_no_failure. exact W.
Qed.

(** X17. The canonical text of a Deployment fingerprint tells the
    fingerprint, among the fingerprints that marshal without an error and
    whose strings are valid UTF-8. Two such fingerprints marshal to the same
    text if and only if they have the same replicas, strategies that agree
    on the type and on the rolling update (of each maximum the number or the
    text its type selects), template labels and annotations with the same
    entries (a nil map and an empty map are both left out), and containers
    that agree one by one, in order, on name, image, environment, ports and
    resources (limits and requests up to nil against empty). *)
Theorem deployment_text_tells_the_fingerprint (f1 f2 : DeploymentFingerprint.t) :
  wellformed (json.toJSON f1) = true -> wellformed (json.toJSON f2) = true ->
  canonical_bytes f1 = canonical_bytes f2 <-> same_fingerprint f1 f2.
Proof.
  intros W1 W2. unfold canonical_bytes.
  pose proof (wellformed_strategy f1 W1) as P1. pose proof (wellformed_strategy f2 W2) as P2.
  split.
  - intros E. apply (DeploymentFingerprint_text_same f1 f2 P1 P2).
    apply encode_inj; assumption.
  - intros E. apply (DeploymentFingerprint_text_same f1 f2 P1 P2) in E. rewrite E. reflexivity.
Qed.

(** X18. The canonical text of a Service fingerprint tells the fingerprint,
    among the fingerprints whose strings are valid UTF-8. Two such
    fingerprints marshal to the same text if and only if they have the same
    type, selectors with the same entries (nil and empty are both left out)
    and the same ports in the same order, each with its name, protocol,
    port, target port and node port. *)
Theorem service_text_tells_the_fingerprint (f1 f2 : ServiceFingerprint.t) :
  wellformed (json.toJSON f1) = true -> wellformed (json.toJSON f2) = true ->
  canonical_bytes f1 = canonical_bytes f2 <-> same_service_fingerprint f1 f2.
Proof.
  intros W1 W2. unfold canonical_bytes. split.
  - intros E. apply ServiceFingerprint_text_same. apply encode_inj; assumption.
  - intros E. apply ServiceFingerprint_text_same in E. rewrite E. reflexivity.
Qed.

Section Images.
Context `{S : sort.SortSlice}.
Hypothesis Hcontract : sort.sort_contract S.

Lemma canonical_name_images (dep : Deployment.t) :
  Permutation
    (map fingerprint_name_image
       (PodTemplateFingerprint.Containers
          (DeploymentFingerprint.Template (DeploymentCanonical dep))))
    (map name_image (containers_of dep)).
Proof.
  unfold DeploymentCanonical, fingerprintPodTemplate, containers_of. cbv zeta.
  cbn [DeploymentFingerprint.Template PodTemplateFingerprint.Containers].
  rewrite map_map.
  rewrite (map_ext (fun c => fingerprint_name_image (sortContainer c)) fingerprint_name_image)
    by (intros c; reflexivity).
  etransitivity.
  - apply Permutation_map.
    exact (proj1 (Hcontract _ _ container_less ContainerFingerprint.Name _
                    container_less_keyed)).
  - rewrite map_map. reflexivity.
Qed.

Lemma same_text_same_images (d1 d2 : Deployment.t) :
  wellformed (json.toJSON (DeploymentCanonical d1)) = true ->
  wellformed (json.toJSON (DeploymentCanonical d2)) = true ->
  canonical_bytes (DeploymentCanonical d1) = canonical_bytes (DeploymentCanonical d2) ->
  Permutation (map name_image (containers_of d1)) (map name_image (containers_of d2)).
Proof.
  unfold canonical_bytes. intros W1 W2 E.
  apply encode_inj in E; [|assumption..].
  apply DeploymentFingerprint_text_same in E; [|apply wellformed_strategy; assumption..].
  destruct E as (_ & _ & _ & _ & Ec).
  rewrite <- (canonical_name_images d1), <- (canonical_name_images d2).
  rewrite (Forall2_map_eq fingerprint_name_image same_container _ _) with (2 := Ec);
    [reflexivity|].
  intros x y (En & Ei & _). unfold fingerprint_name_image. rewrite En, Ei. reflexivity.
Qed.

End Images.

(** X19. Equal texts, same images. For any sort that returns a sorted
    permutation, two Deployments whose fingerprints marshal without an
    error, hold valid UTF-8 only and have equal canonical texts have, up to
    order, the same containers by name and image. *)
Theorem equal_texts_have_the_same_images (S : sort.SortSlice) (d1 d2 : Deployment.t) :
  sort.sort_contract S ->
  wellformed (json.toJSON (DeploymentCanonical d1)) = true ->
  wellformed (json.toJSON (DeploymentCanonical d2)) = true ->
  canonical_bytes (DeploymentCanonical d1) = canonical_bytes (DeploymentCanonical d2) ->
  Permutation (map name_image (containers_of d1)) (map name_image (containers_of d2)).
Proof. intros Hc W1 W2 E. exact (same_text_same_images Hc d1 d2 W1 W2 E). Qed.

(** X20. An image change is always in the text. For any sort that returns a
    sorted permutation: replacing one container of a Deployment by a
    container with another name or another image, all other containers
    staying, changes the canonical text, whatever else differs between the
    two Deployments, as long as both fingerprints marshal without an error
    and hold valid UTF-8 only. *)
Theorem replacing_an_image_changes_the_text (S : sort.SortSlice)
    (meta1 meta2 : ObjectMeta.t) (r1 r2 : option Z) (s1 s2 : DeploymentStrategy.t)
    (l1 l2 a1 a2 : gomap) (before after : list Container.t) (c c' : Container.t) :
  sort.sort_contract S ->
  name_image c' <> name_image c ->
  wellformed (json.toJSON (DeploymentCanonical
                             (deployment_of meta1 r1 s1 l1 a1 (before ++ c :: after)))) = true ->
  wellformed (json.toJSON (DeploymentCanonical
                             (deployment_of meta2 r2 s2 l2 a2 (before ++ c' :: after)))) = true ->
  canonical_bytes (DeploymentCanonical
                     (deployment_of meta1 r1 s1 l1 a1 (before ++ c :: after)))
  <> canonical_bytes (DeploymentCanonical
                        (deployment_of meta2 r2 s2 l2 a2 (before ++ c' :: after))).
Proof.
  intros Hc Hne W1 W2 E. apply (same_text_same_images Hc) in E; [|assumption..].
  unfold containers_of, deployment_of in E.
  cbn [Deployment.Spec DeploymentSpec.Template PodTemplateSpec.Spec PodSpec.Containers] in E.
  assert (Hdec : forall x y : string * string, {x = y} + {x <> y}) by (intros x y; apply decide; apply _).
  rewrite (Permutation_count_occ Hdec) in E. specialize (E (name_image c)).
  rewrite !map_app, !count_occ_app in E. cbn [map] in E.
  rewrite count_occ_cons_eq in E by reflexivity.
  rewrite count_occ_cons_neq in E by exact Hne. lia.
Qed.

(** ** The environment entries in the text *)



Section Entries.
Context `{S : sort.SortSlice}.
Hypothesis Hcontract : sort.sort_contract S.




End Entries.



(* ===================================================================== *)
(** * The further properties at concrete inputs *)
(* ===================================================================== *)

Lemma singleton_store_wf (d : Deployment.t) (gf pf : error) (j : list Call) :
  key_of d = sample.key ->
  store_wf (mkWorld {[ sample.key := d ]} gf pf sample.clock 0 j).
Proof.
  intros Hk k o. cbn [objects]. intros [<- <-]%lookup_singleton_Some. exact Hk.
Qed.

Lemma drift_is_recorded_and_notified_witness :
  let w := sample.drifted_world in
  let r := sample.reconcile sample.req w in
  let h := fst (HashDeployment (S := sort.insertion) fixtures.pinned) in
  let a : gmap string string := {[ AnnExpectedHash := sample.baseline ]} in
  fst r = (Result_zero, None)
  /\ annotation (snd r) sample.key AnnDrifted = Some "true"
  /\ annotation (snd r) sample.key AnnLiveHash = Some h
  /\ annotation (snd r) sample.key AnnLastCheckedAt = Some (clock w (ticks w))
  /\ annotation (snd r) sample.key AnnDriftedAt
     = Some (first_detection (a !! AnnDriftedAt) (clock w (ticks w)))
  /\ annotation (snd r) sample.key AnnExpectedHash = Some sample.baseline
  /\ warnings (calls_since w (snd r))
     = [mkEvent sample.key "Warning" "TerraformDriftDetected"
          ("Deployment" +:+ " drift detected: expectedHash=" +:+ sample.baseline
           +:+ " liveHash=" +:+ h)].
Proof.
  cbv zeta.
  apply (drift_is_recorded_and_notified (HashDeployment (S := sort.insertion)) "Deployment"
           sample.req sample.drifted_world fixtures.pinned
           {[ LabelEnabled := "true" ]} {[ AnnExpectedHash := sample.baseline ]}
           sample.baseline (fst (HashDeployment (S := sort.insertion) fixtures.pinned))).
  - apply world_wf. reflexivity.
  - reflexivity.
  - reflexivity.
  - apply lookup_singleton_eq.
  - reflexivity.
  - apply lookup_singleton_eq.
  - vm_compute. discriminate.
  - reflexivity.
  - vm_compute. discriminate.
  - reflexivity.
Defined.

Lemma clean_is_recorded_silently_witness :
  let w := fixtures.clean_world in
  let r := sample.reconcile sample.req w in
  let a : gmap string string := {[ AnnExpectedHash := sample.baseline ]} in
  fst r = (Result_zero, None)
  /\ annotation (snd r) sample.key AnnDrifted = Some "false"
  /\ annotation (snd r) sample.key AnnLiveHash = Some sample.baseline
  /\ annotation (snd r) sample.key AnnLastCheckedAt = Some (clock w (ticks w))
  /\ annotation (snd r) sample.key AnnDriftedAt = a !! AnnDriftedAt
  /\ annotation (snd r) sample.key AnnExpectedHash = Some sample.baseline
  /\ warnings (calls_since w (snd r)) = [].
Proof.
  cbv zeta.
  apply (clean_is_recorded_silently (HashDeployment (S := sort.insertion)) "Deployment"
           sample.req fixtures.clean_world fixtures.faithful
           {[ LabelEnabled := "true" ]} {[ AnnExpectedHash := sample.baseline ]}
           sample.baseline).
  - apply world_wf. reflexivity.
  - reflexivity.
  - reflexivity.
  - apply lookup_singleton_eq.
  - reflexivity.
  - apply lookup_singleton_eq.
  - vm_compute. discriminate.
  - reflexivity.
  - reflexivity.
Defined.

Lemma reconcile_leaves_the_rest_witness :
  let w := sample.drifted_world in
  let w' := snd (sample.reconcile sample.req w) in
  (forall key k, ~ owned k -> annotation w' key k = annotation w key k)
  /\ (forall key, key <> Request_NamespacedName sample.req ->
        objects w' !! key = objects w !! key)
  /\ (forall key, objects w !! key = None -> objects w' !! key = None)
  /\ (forall key o, objects w !! key = Some o ->
        objects w' !! key = Some o
        \/ exists a, objects w' !! key = Some (SetAnnotations a o)).
Proof.
  cbv zeta.
  apply (reconcile_leaves_the_rest (HashDeployment (S := sort.insertion)) "Deployment"
           sample.req sample.drifted_world).
  apply world_wf. reflexivity.
Defined.

Lemma errors_abort_before_the_write_witness :
  (fst (Reconcile fixtures.failing_hash "Deployment" sample.req fixtures.unreadable_world)
   = (Result_zero, Some (ErrOther "timeout"))
   /\ calls_since fixtures.unreadable_world
        (snd (Reconcile fixtures.failing_hash "Deployment" sample.req
                fixtures.unreadable_world))
      = [CallGet sample.key])
  /\ (fst (Reconcile fixtures.failing_hash "Deployment" sample.req sample.drifted_world)
      = (Result_zero, Some (ErrOther "unsupported value"))
      /\ calls_since sample.drifted_world
           (snd (Reconcile fixtures.failing_hash "Deployment" sample.req
                   sample.drifted_world))
         = [CallGet sample.key; CallHash sample.key]
      /\ objects (snd (Reconcile fixtures.failing_hash "Deployment" sample.req
                         sample.drifted_world))
         = objects sample.drifted_world).
Proof.
  split.
  - destruct (errors_abort_before_the_write fixtures.failing_hash "Deployment" sample.req
                fixtures.unreadable_world) as [Hget _].
    destruct (Hget (ErrOther "timeout") eq_refl eq_refl) as (Hr & Hc & _).
    split; [exact Hr|exact Hc].
  - destruct (errors_abort_before_the_write fixtures.failing_hash "Deployment" sample.req
                sample.drifted_world) as [_ Hhash].
    destruct (Hhash fixtures.pinned EmptyString (ErrOther "unsupported value")) as (Hr & Hc & Ho & _).
    + reflexivity.
    + reflexivity.
    + vm_compute. discriminate.
    + reflexivity.
    + repeat split; assumption.
Defined.

Lemma patch_error_is_returned_after_the_warning_witness :
  let w := fixtures.unwritable_world in
  let r := sample.reconcile sample.req w in
  let h := fst (HashDeployment (S := sort.insertion) fixtures.pinned) in
  let key := Request_NamespacedName sample.req in
  fst r = (Result_zero, Some (ErrOther "conflict"))
  /\ (exists p,
        calls_since w (snd r)
        = [CallGet key; CallHash key; CallNow;
           CallEventf (drift_event "Deployment" key (expected_of fixtures.pinned) h);
           CallLogInfo "drift detected"
             [("expected", expected_of fixtures.pinned); ("live", h)];
           CallPatch key p])
  /\ warnings (calls_since w (snd r))
     = [drift_event "Deployment" key (expected_of fixtures.pinned) h]
  /\ (exists p, writes (calls_since w (snd r)) = [(key, p)])
  /\ writes (before_event (calls_since w (snd r))) = []
  /\ objects (snd r) = objects w.
Proof.
  cbv zeta.
  apply (patch_error_is_returned_after_the_warning (HashDeployment (S := sort.insertion))
           "Deployment" sample.req fixtures.unwritable_world fixtures.pinned
           (fst (HashDeployment (S := sort.insertion) fixtures.pinned))
           (ErrOther "conflict")).
  - apply singleton_store_wf. reflexivity.
  - reflexivity.
  - reflexivity.
  - vm_compute. discriminate.
  - vm_compute. reflexivity.
  - vm_compute. discriminate.
  - reflexivity.
Defined.

Lemma patch_overlays_the_stored_annotations_witness :
  let w := sample.drifted_world in
  let kv : gmap string string := {[ AnnLastCheckedAt := sample.t1 ]} in
  let r := patchAnnotations fixtures.pinned kv w in
  fst r = (Result_zero, None)
  /\ forall k,
       annotation (snd r) (key_of fixtures.pinned) k
       = match kv !! k with
         | Some v =>
             if decide (default ∅ (GetAnnotations fixtures.pinned) !! k = Some v)
             then annotation w (key_of fixtures.pinned) k
             else Some v
         | None => annotation w (key_of fixtures.pinned) k
         end.
Proof.
  cbv zeta.
  apply (patch_overlays_the_stored_annotations sample.drifted_world fixtures.pinned
           fixtures.pinned {[ AnnLastCheckedAt := sample.t1 ]}).
  - apply lookup_singleton_eq.
  - reflexivity.
Defined.

Lemma reconcile_call_discipline_witness :
  let w := sample.drifted_world in
  let r := sample.reconcile sample.req w in
  let key := Request_NamespacedName sample.req in
  let cs := calls_since w (snd r) in
  fst (fst r) = Result_zero
  /\ head cs = Some (CallGet key)
  /\ reads cs = [key]
  /\ (length (hash_calls cs) <= 1)%nat
  /\ (clock_reads cs <= 1)%nat
  /\ (length (warnings cs) <= 1)%nat
  /\ (length (writes cs) <= 1)%nat
  /\ (forall k p, writes cs = [(k, p)] -> k = key /\ last cs = Some (CallPatch k p))
  /\ (warnings cs <> [] -> hash_calls cs = [key])
  /\ ticks (snd r) = (ticks w + clock_reads cs)%nat
  /\ program_order cs = true
  /\ (warnings cs <> [] ->
      hash_calls (before_event cs) = [key]
      /\ clock_reads (before_event cs) = 1%nat
      /\ writes (before_event cs) = []
      /\ hash_calls (after_event cs) = []
      /\ writes (after_event cs) = writes cs).
Proof.
  cbv zeta.
  apply (reconcile_call_discipline (HashDeployment (S := sort.insertion)) "Deployment"
           sample.req sample.drifted_world).
  apply world_wf. reflexivity.
Defined.

Lemma fingerprint_order_independent_witness :
  HashDeployment (S := sort.insertion) fixtures.shop_listed
  = HashDeployment (S := sort.insertion) fixtures.shop_shuffled.
Proof.
  apply (fingerprint_order_independent sort.insertion fixtures.shop_listed
           fixtures.shop_shuffled insertion_contract).
  - repeat split.
    exists [fixtures.proxy; fixtures.api [fixtures.region; fixtures.tier]
                              [fixtures.http; fixtures.https]].
    split; [apply perm_swap|].
    constructor; [repeat split; constructor|].
    constructor; [repeat split; apply perm_swap|constructor].
  - split.
    + apply (bool_decide_unpack _). vm_compute. exact I.
    + constructor; [|constructor; [|constructor]];
        split; apply (bool_decide_unpack _); vm_compute; exact I.
Defined.

Lemma service_fingerprint_order_independent_witness :
  HashService (S := sort.insertion)
    (service_of (sample.meta None None) "ClusterIP" None
       [fixtures.web_port; fixtures.metrics_port])
  = HashService (S := sort.insertion)
      (service_of (sample.meta sample.enabled None) "ClusterIP" None
         [fixtures.metrics_port; fixtures.web_port]).
Proof.
  apply (service_fingerprint_order_independent sort.insertion
           (sample.meta None None) (sample.meta sample.enabled None) "ClusterIP" None
           [fixtures.web_port; fixtures.metrics_port]
           [fixtures.metrics_port; fixtures.web_port] insertion_contract).
  - apply perm_swap.
  - apply (bool_decide_unpack _). vm_compute. exact I.
Defined.

Lemma malformed_baseline_always_drifts_witness :
  let w := sample.world fixtures.mislabelled in
  let r := sample.reconcile sample.req w in
  annotation (snd r) (Request_NamespacedName sample.req) AnnDrifted = Some "true"
  /\ warnings (calls_since w (snd r))
     = [drift_event "Deployment" (Request_NamespacedName sample.req) "sha256:9f2c"
          (fst (HashDeployment (S := sort.insertion) fixtures.mislabelled))].
Proof.
  cbv zeta.
  destruct (malformed_baseline_always_drifts sort.insertion sample.req) as [Hdep _].
  apply (Hdep (sample.world fixtures.mislabelled) fixtures.mislabelled
           {[ LabelEnabled := "true" ]} {[ AnnExpectedHash := "sha256:9f2c" ]} "sha256:9f2c").
  - apply world_wf. reflexivity.
  - reflexivity.
  - reflexivity.
  - apply lookup_singleton_eq.
  - reflexivity.
  - apply lookup_singleton_eq.
  - discriminate.
  - intros [Hl _]. vm_compute in Hl. discriminate.
  - vm_compute. reflexivity.
  - reflexivity.
Defined.

Lemma reconciliation_changes_no_hash_witness :
  exists dep',
    objects (snd (sample.reconcile sample.req sample.drifted_world)) !! sample.key = Some dep'
    /\ Deployment.Spec dep' = Deployment.Spec fixtures.pinned
    /\ GetLabels dep' = GetLabels fixtures.pinned
    /\ HashDeployment (S := sort.insertion) dep'
       = HashDeployment (S := sort.insertion) fixtures.pinned.
Proof.
  destruct (reconciliation_changes_no_hash sort.insertion sample.req) as [Hdep _].
  apply (Hdep sample.drifted_world sample.key fixtures.pinned).
  - apply world_wf. reflexivity.
  - apply lookup_singleton_eq.
Defined.

Lemma surrounding_white_space_is_not_hashed_witness :
  let padded := strings.of_codes [32; 9]%N +:+ "prod" +:+ strings.of_codes [194; 160; 10]%N in
  strings.TrimSpace padded = "prod"
  /\ HashDeployment (S := sort.insertion)
       (deployment_of (sample.meta None None) (Some 1) sample.no_strategy
          (Some (<[ "env" := padded ]> {[ "team" := "payments" ]})) None [])
     = HashDeployment (S := sort.insertion)
         (deployment_of (sample.meta None None) (Some 1) sample.no_strategy
            (Some (<[ "env" := "prod" ]> {[ "team" := "payments" ]})) None []).
Proof.
  cbv zeta.
  destruct (surrounding_white_space_is_not_hashed sort.insertion "env"
              (strings.of_codes [32; 9]%N) "prod" (strings.of_codes [194; 160; 10]%N)
              {[ "team" := "payments" ]}) as (Ht & Hd & _).
  - apply (blank_cons _ (strings.of_codes [32]%N) (strings.of_codes [9]%N)).
    + apply (bool_decide_unpack _). vm_compute. exact I.
    + apply (blank_cons _ (strings.of_codes [9]%N) EmptyString); [|constructor].
      apply (bool_decide_unpack _). vm_compute. exact I.
  - apply (blank_cons _ (strings.of_codes [194; 160]%N) (strings.of_codes [10]%N)).
    + apply (bool_decide_unpack _). vm_compute. exact I.
    + apply (blank_cons _ (strings.of_codes [10]%N) EmptyString); [|constructor].
      apply (bool_decide_unpack _). vm_compute. exact I.
  - split; vm_compute; reflexivity.
  - split; [exact Ht|].
    exact (proj1 (Hd (sample.meta None None) (Some 1) sample.no_strategy None [])).
Defined.


Lemma deployment_text_tells_the_fingerprint_witness :
  canonical_bytes (DeploymentCanonical (S := sort.insertion) fixtures.shop_listed)
  = canonical_bytes (DeploymentCanonical (S := sort.insertion) fixtures.shop_shuffled)
  <-> same_fingerprint (DeploymentCanonical (S := sort.insertion) fixtures.shop_listed)
        (DeploymentCanonical (S := sort.insertion) fixtures.shop_shuffled).
Proof.
  apply (deployment_text_tells_the_fingerprint
           (DeploymentCanonical (S := sort.insertion) fixtures.shop_listed)
           (DeploymentCanonical (S := sort.insertion) fixtures.shop_shuffled)).
  - vm_compute. reflexivity.
  - vm_compute. reflexivity.
Defined.

Lemma service_text_tells_the_fingerprint_witness :
  canonical_bytes (ServiceFingerprint.mk "ClusterIP" None [])
  = canonical_bytes (ServiceFingerprint.mk "ClusterIP" (Some ∅) [])
  <-> same_service_fingerprint (ServiceFingerprint.mk "ClusterIP" None [])
        (ServiceFingerprint.mk "ClusterIP" (Some ∅) []).
Proof.
  apply (service_text_tells_the_fingerprint
           (ServiceFingerprint.mk "ClusterIP" None [])
           (ServiceFingerprint.mk "ClusterIP" (Some ∅) [])).
  - vm_compute. reflexivity.
  - vm_compute. reflexivity.
Defined.

Lemma equal_texts_have_the_same_images_witness :
  Permutation (map name_image (containers_of fixtures.shop_listed))
    (map name_image (containers_of fixtures.shop_shuffled)).
Proof.
  apply (equal_texts_have_the_same_images sort.insertion fixtures.shop_listed
           fixtures.shop_shuffled insertion_contract).
  - vm_compute. reflexivity.
  - vm_compute. reflexivity.
  - vm_compute. reflexivity.
Defined.

Lemma replacing_an_image_changes_the_text_witness :
  canonical_bytes
    (DeploymentCanonical (S := sort.insertion)
       (fixtures.shop [fixtures.api [] []; fixtures.proxy]))
  <> canonical_bytes
       (DeploymentCanonical (S := sort.insertion)
          (fixtures.shop [fixtures.api [] []; with_Image "envoy:1.31" fixtures.proxy])).
Proof.
  apply (replacing_an_image_changes_the_text sort.insertion
           (sample.meta None None) (sample.meta None None) (Some 3) (Some 3)
           sample.no_strategy sample.no_strategy None None None None
           [fixtures.api [] []] [] fixtures.proxy (with_Image "envoy:1.31" fixtures.proxy)
           insertion_contract).
  - intros E. discriminate E.
  - vm_compute. reflexivity.
  - vm_compute. reflexivity.
Defined.


